(** * msprime pedigrees: a shallow embedding of [msprime/pedigrees.py]

    The development follows the Python module top to bottom: the exceptions
    the module raises, the numpy idioms it relies on, the [Pedigree] class with
    its static helpers, the forward simulator [sim_pedigree] and the PLINK
    reader [parse_fam].  Integers are [Z]; arrays are lists indexed as Python
    indexes them; Python sets are [gset Z] and dictionaries are [gmap]. *)

From stdpp Require Import gmap strings list fin_maps sets sorting.
From Stdlib Require Import ZArith Lia.

Local Open Scope Z_scope.

(** ** Exceptions *)

(** One constructor per message the module formats, with the values that the
    message interpolates. *)
Inductive message : Type :=
  | PloidyUnsupported            (* "Ploidy != 2 not currently supported" *)
  | SexUnsupported               (* "Assigning individual sexes not currently supported" *)
  | PloidyConflict (ploidy : Z) (n_parents : nat)
  | IndividualIDs                (* "Individual IDs must be > 0" *)
  | ProbandsOnly                 (* "Only probands may currently be set as samples." *)
  | MustSpecifyOne               (* "Must specify one of num_samples of sample_IDs" *)
  | CannotSpecifyBoth            (* "Cannot specify both samples and num_samples." *)
  | TooManySamples (num_samples : Z) (num_probands : nat)
  | SampleSizeMismatch           (* "Sample size mismatch - duplicate sample IDs ..." *)
  | TimeOrder (ind parent : Z)   (* "Ind {} has time >= than parent {}" *)
  | MustSpecifyParents           (* "Must specify either parent IDs or parent indices" *)
  | InvalidIDZero                (* "Invalid ID: 0 reserved to denote individual..." *)
  | NonSequentialColumns         (* "Non-sequential columns in pedigree format: ..." *)
  | DuplicatePlinkID             (* "Duplicate PLINK ID: {plink_id}" *)
  | SexCode                      (* "Sex must be one of the following: 0 ..., 1 ..., 2 ..." *)
  | IntLiteral (s : string)      (* int(): invalid literal *)
  | Numpy (what : string).       (* a ValueError raised inside numpy *)

Inductive exn : Type :=
  | ValueError (m : message)
  | NotImplementedError (m : message)
  | IndexError
  | KeyError (key : string)
  | KeyErrorZ (key : Z).

(** A computation either returns or raises. *)
Inductive result (A : Type) : Type :=
  | Ok (a : A)
  | Raise (e : exn).
Arguments Ok {A} a.
Arguments Raise {A} e.

#[global] Instance result_ret : MRet result := λ A a, Ok a.
#[global] Instance result_bind : MBind result :=
  λ A B f m, match m with Ok a => f a | Raise e => Raise e end.
#[global] Instance result_fmap : FMap result :=
  λ A B f m, match m with Ok a => Ok (f a) | Raise e => Raise e end.

Definition raises {A} (m : result A) : Prop := ∃ e, m = Raise e.

(** [for x in l: body(x)] where the body may raise. *)
Fixpoint for_ {A} (l : list A) (body : A → result unit) : result unit :=
  match l with
  | [] => Ok ()
  | x :: l' => match body x with Ok _ => for_ l' body | Raise e => Raise e end
  end.

(** [enumerate(l)] *)
Definition enumerate {A} (l : list A) : list (nat * A) := imap pair l.

(** ** numpy and Python idioms *)

(** [l[i]] for an integer index: negative indices count from the end and an
    index outside the sequence raises [IndexError]. *)
Definition normalize_index (n : nat) (i : Z) : option nat :=
  let j := if bool_decide (i < 0) then i + Z.of_nat n else i in
  if bool_decide (0 ≤ j < Z.of_nat n) then Some (Z.to_nat j) else None.

Definition getitem {A} (l : list A) (i : Z) : result A :=
  match normalize_index (length l) i with
  | Some j => match l !! j with Some x => Ok x | None => Raise IndexError end
  | None => Raise IndexError
  end.

(** [l[i] = x] *)
Definition setitem {A} (l : list A) (i : Z) (x : A) : result (list A) :=
  match normalize_index (length l) i with
  | Some j => Ok (<[j:=x]> l)
  | None => Raise IndexError
  end.

(** A two-dimensional array: [shape1] is [a.shape[1]], kept apart from the rows
    because an array without rows still has a column count. *)
Record ndarray2 (A : Type) : Type := Array2 { shape1 : nat; rows : list (list A) }.
Arguments Array2 {A} shape1 rows.
Arguments shape1 {A} _.
Arguments rows {A} _.

(** [a.ravel()] *)
Definition ravel {A} (a : ndarray2 A) : list A := mjoin (rows a).

(** [x.astype(np.int32)] and [x.astype(np.uint32)] on one integer: C-style
    wrap-around. *)
Definition int32 (x : Z) : Z := (x + 2 ^ 31) `mod` 2 ^ 32 - 2 ^ 31.
Definition uint32 (x : Z) : Z := x `mod` 2 ^ 32.

(** The operations of [np.float64] that the module uses: conversion of a
    Python int, and the comparisons [<] and [>=].  The type is left open so that
    no property below depends on rounding, infinities or NaN. *)
Class Float64 (F : Type) : Type := {
  of_int : Z → F;
  float_lt : F → F → bool;
  float_ge : F → F → bool
}.

(** Integers of magnitude below [2^53] are exact in binary64 and ordered as in
    [Z]. *)
Class Float64Exact (F : Type) `{Float64 F} : Prop := {
  float_lt_of_int a b :
    0 ≤ a ≤ 2 ^ 53 → 0 ≤ b ≤ 2 ^ 53 → float_lt (of_int a) (of_int b) = bool_decide (a < b)
}.

(** The integers themselves are one such number type. *)
#[global] Instance Z_float64 : Float64 Z :=
  {| of_int := id; float_lt := Z.ltb; float_ge := Z.geb |}.

(** [for x in l: s = body(s, x)]: a loop that updates local variables. *)
Fixpoint for_fold {A S} (l : list A) (s : S) (body : S → A → result S) : result S :=
  match l with
  | [] => Ok s
  | x :: l' => match body s x with Ok s' => for_fold l' s' body | Raise e => Raise e end
  end.

(** A comprehension whose element expression may raise. *)
Fixpoint mapM_result {A B} (f : A → result B) (l : list A) : result (list B) :=
  match l with
  | [] => Ok []
  | x :: l' => y ← f x; ys ← mapM_result f l'; Ok (y :: ys)
  end.

(** [np.min(l)]: numpy refuses an empty array. *)
Definition np_min (l : list Z) : result Z :=
  match l with
  | [] => Raise (ValueError (Numpy "zero-size array to reduction operation minimum which has no identity"))
  | x :: l' => Ok (foldr Z.min x l')
  end.

(** *** The random generator

    [np.random.RandomState] is a deterministic stream of raw draws.  The stream
    is a function from positions to naturals and a cursor; a bounded draw
    reduces the raw value modulo the bound, so every outcome the real generator
    can produce is produced by some stream. *)
Record RandomState : Type := { tape : nat → nat; cursor : nat }.

Definition advance (n : nat) (rs : RandomState) : RandomState :=
  {| tape := tape rs; cursor := (cursor rs + n)%nat |}.

(** [rs.randint(0, bound, size=n)] *)
Definition randint (rs : RandomState) (bound n : nat) : list nat * RandomState :=
  ((λ k, tape rs (cursor rs + k) `mod` bound)%nat <$> seq 0 n, advance n rs).

(** [rs.permutation(l)]: one draw selects the next element among those left. *)
Fixpoint permutation_of {A} (fuel : nat) (rs : RandomState) (l : list A) : list A :=
  match fuel with
  | O => []
  | S fuel' =>
      let i := (tape rs (cursor rs) `mod` length l)%nat in
      match l !! i with
      | Some x => x :: permutation_of fuel' (advance 1 rs) (delete i l)
      | None => []
      end
  end.

Definition permutation {A} (rs : RandomState) (l : list A) : list A :=
  permutation_of (length l) rs l.

(** The value of [np.random.choice(a, size, replace=False)] when used as an
    index: an integer array, except that [np.array([])] has dtype float64, so a
    choice of nothing out of nothing is an empty float array, which numpy does
    not accept as an index. *)
Inductive index_array : Type :=
  | IntArray (l : list Z)
  | EmptyFloatArray.

Definition index_array_len (a : index_array) : Z :=
  match a with IntArray l => Z.of_nat (length l) | EmptyFloatArray => 0 end.

Definition choice_no_replace (rs : RandomState) (a : list Z) (size : Z)
    : result index_array :=
  if bool_decide (length a = 0%nat ∧ size ≠ 0) then
    Raise (ValueError (Numpy "'a' cannot be empty unless no samples are taken"))
  else if bool_decide (size > Z.of_nat (length a)) then
    Raise (ValueError (Numpy "Cannot take a larger sample than population when 'replace=False'"))
  else if bool_decide (size < 0) then
    Raise (ValueError (Numpy "negative dimensions are not allowed"))
  else match a with
       | [] => Ok EmptyFloatArray
       | _ => Ok (IntArray (take (Z.to_nat size) (permutation rs a)))
       end.

(** [rs.choice(a, (n, 2))], with replacement: an [n × 2] array of elements of
    [a], flattened row by row. *)
Definition choice_pairs (rs : RandomState) (a : list Z) (n : Z)
    : result (list Z * RandomState) :=
  if bool_decide (length a = 0%nat ∧ n ≠ 0) then
    Raise (ValueError (Numpy "'a' cannot be empty unless no samples are taken"))
  else if bool_decide (n < 0) then
    Raise (ValueError (Numpy "negative dimensions are not allowed"))
  else
    let '(idx, rs') := randint rs (length a) (2 * Z.to_nat n) in
    Ok ((λ i, a !!! i) <$> idx, rs').

(** [a[index] = v] for an index array. *)
Definition setitems {A} (l : list A) (index : index_array) (v : A) : result (list A) :=
  match index with
  | IntArray idx => for_fold idx l (λ l i, setitem l i v)
  | EmptyFloatArray => Raise IndexError
  end.

(** ** The [Pedigree] class *)

(** The attributes of an instance.  [is_sample], [samples] and [num_samples]
    are [None] while the attribute has not been assigned. *)
Record Pedigree (F : Type) : Type := {
  individual : list Z;
  num_individuals : nat;
  parents : ndarray2 Z;
  time : list F;
  sex : option Z;
  ploidy : Z;
  is_sample : option (list Z);
  samples : option (list Z);
  num_samples : option Z
}.
Arguments individual {F} _.
Arguments num_individuals {F} _.
Arguments parents {F} _.
Arguments time {F} _.
Arguments sex {F} _.
Arguments ploidy {F} _.
Arguments is_sample {F} _.
Arguments samples {F} _.
Arguments num_samples {F} _.

Section pedigree.
Context {F : Type} `{Float64 F}.

(** *** [Pedigree.__init__] *)

Definition Pedigree_init (individual : list Z) (parents : ndarray2 Z) (time : list F)
    (is_sample : option (list Z)) (sex : option Z) (ploidy : Z) : result (Pedigree F) :=
  if bool_decide (ploidy ≠ 2) then Raise (NotImplementedError PloidyUnsupported)
  else if bool_decide (sex ≠ None) then Raise (NotImplementedError SexUnsupported)
  else if bool_decide (Z.of_nat (shape1 parents) ≠ ploidy) then
    Raise (ValueError (PloidyConflict ploidy (shape1 parents)))
  else
    m ← np_min individual;
    if bool_decide (m ≤ 0) then Raise (ValueError IndividualIDs)
    else Ok {|
      individual := int32 <$> individual;
      num_individuals := length individual;
      parents := Array2 (shape1 parents) ((λ row : list Z, int32 <$> row) <$> rows parents);
      time := time;
      sex := sex;
      ploidy := ploidy;
      is_sample := (λ l : list Z, uint32 <$> l) <$> is_sample;
      samples := (λ l : list Z, filter (λ x, x = 1) l) <$> is_sample;
      num_samples := (λ l : list Z, Z.of_nat (length (filter (λ x, x = 1) l))) <$> is_sample
    |}.

(** *** Probands

    [set(range(n)).difference(parents.ravel())] *)
Definition proband_indices (n : nat) (parents : ndarray2 Z) : gset Z :=
  list_to_set (seqZ 0 (Z.of_nat n)) ∖ list_to_set (ravel parents).

(** *** [Pedigree.set_samples]

    The method assigns attributes of [self] before some of its checks, so the
    model returns the object as the call leaves it together with the outcome.
    [rs] is numpy's global generator. *)
Definition with_is_sample (self : Pedigree F) (v : list Z) : Pedigree F :=
  {| individual := individual self; num_individuals := num_individuals self;
     parents := parents self; time := time self; sex := sex self;
     ploidy := ploidy self; is_sample := Some v; samples := samples self;
     num_samples := num_samples self |}.

Definition with_num_samples (self : Pedigree F) (v : Z) : Pedigree F :=
  {| individual := individual self; num_individuals := num_individuals self;
     parents := parents self; time := time self; sex := sex self;
     ploidy := ploidy self; is_sample := is_sample self; samples := samples self;
     num_samples := Some v |}.

(** The last two statements of the method, common to both branches. *)
Definition mark_samples (self : Pedigree F) (n : Z) (sample_indices : index_array)
    : Pedigree F * result unit :=
  if bool_decide (index_array_len sample_indices ≠ n) then
    (self, Raise (ValueError SampleSizeMismatch))
  else
    match setitems (default [] (is_sample self)) sample_indices 1 with
    | Ok flags => (with_is_sample self flags, Ok ())
    | Raise e => (self, Raise e)
    end.

Definition set_samples (rs : RandomState) (self : Pedigree F)
    (num_samples : option Z) (sample_IDs : option (list Z)) (probands_only : bool)
    : Pedigree F * result unit :=
  if negb probands_only then (self, Raise (NotImplementedError ProbandsOnly))
  else match num_samples, sample_IDs with
  | None, None => (self, Raise (ValueError MustSpecifyOne))
  | Some _, Some _ => (self, Raise (ValueError CannotSpecifyBoth))
  | Some k, None =>
      let self := with_is_sample self (replicate (num_individuals self) 0) in
      let proband_indices := proband_indices (length (individual self)) (parents self) in
      let self := with_num_samples self k in
      if bool_decide (k > Z.of_nat (size proband_indices)) then
        (self, Raise (ValueError (TooManySamples k (size proband_indices))))
      else
        match choice_no_replace rs (elements proband_indices) k with
        | Raise e => (self, Raise e)
        | Ok sample_indices => mark_samples self k sample_indices
        end
  | None, Some sample_IDs =>
      let self := with_is_sample self (replicate (num_individuals self) 0) in
      let proband_indices := proband_indices (length (individual self)) (parents self) in
      let self := with_num_samples self (Z.of_nat (length sample_IDs)) in
      let sample_set : gset Z := list_to_set sample_IDs in
      match mapM_result (λ i, x ← getitem (individual self) i; Ok (i, x))
              (elements proband_indices) with
      | Raise e => (self, Raise e)
      | Ok tagged =>
          let sample_indices := (filter (λ ix, ix.2 ∈ sample_set) tagged).*1 in
          mark_samples self (Z.of_nat (length sample_IDs)) (IntArray sample_indices)
      end
  end.

(** *** [Pedigree.get_proband_indices] *)
Definition get_proband_indices (self : Pedigree F) : list Z :=
  merge_sort Z.le (elements (proband_indices (length (individual self)) (parents self))).

(** ** [Pedigree.check_times] *)

Definition check_parent (individual : list Z) (time : list F)
    (i : nat) (ind : Z) (parent_ix : Z) : result unit :=
  if bool_decide (0 ≤ parent_ix) then
    t1 ← getitem time (Z.of_nat i);
    t2 ← getitem time parent_ix;
    if float_ge t1 t2 then
      parent ← getitem individual parent_ix;
      Raise (ValueError (TimeOrder ind parent))
    else Ok ()
  else Ok ().

Definition check_times (individual : list Z) (parents : ndarray2 Z)
    (time : list F) : result unit :=
  for_ (enumerate individual) (λ '(i, ind),
    row ← getitem (rows parents) (Z.of_nat i);
    for_ row (check_parent individual time i ind)).

(** *** [Pedigree.parent_ID_to_index] and [Pedigree.parent_index_to_ID] *)

(** [dict(zip(keys, values))]: a later pair replaces an earlier one with the
    same key. *)
Definition dict_of_pairs (l : list (Z * Z)) : gmap Z Z :=
  foldl (λ d kv, <[kv.1:=kv.2]> d) ∅ l.

Definition dict_getitem (d : gmap Z Z) (k : Z) : result Z :=
  match d !! k with Some v => Ok v | None => Raise (KeyErrorZ k) end.

Definition parent_ID_to_index (individual : list Z) (parent_IDs : ndarray2 Z)
    : result (ndarray2 Z) :=
  let n_inds := length (rows parent_IDs) in
  let ind_to_index_dict := dict_of_pairs (zip individual (seqZ 0 (Z.of_nat n_inds))) in
  if bool_decide (is_Some (ind_to_index_dict !! 0)) then Raise (ValueError InvalidIDZero)
  else
    let ind_to_index_dict := <[0:=-1]> ind_to_index_dict in
    parents ← mapM_result (mapM_result (dict_getitem ind_to_index_dict)) (rows parent_IDs);
    Ok (Array2 (shape1 parent_IDs) parents).

Definition parent_index_to_ID (individual : list Z) (parents : ndarray2 Z)
    : result (ndarray2 Z) :=
  parent_IDs ← mapM_result (mapM_result (λ p,
      if bool_decide (0 ≤ p) then getitem individual p else Ok 0)) (rows parents);
  Ok (Array2 (shape1 parents) parent_IDs).

(** *** [Pedigree.get_times]

    The body of the [for c_idx in climber_indices] loop: the local variables it
    updates are [time] and [next_climbers]. *)
Definition climb_one (parents : ndarray2 Z) (t : Z) (st : list F * list Z) (c_idx : Z)
    : result (list F * list Z) :=
  tc ← getitem st.1 c_idx;
  time ← (if float_lt tc (of_int t) then setitem st.1 c_idx (of_int t) else Ok st.1);
  row ← getitem (rows parents) c_idx;
  Ok (time, st.2 ++ filter (λ p, 0 ≤ p) row).

(** The [while len(climber_indices) > 0] loop.  [None] means that [fuel]
    iterations were not enough for the loop to finish. *)
Fixpoint climb (fuel : nat) (parents : ndarray2 Z) (t : Z)
    (climber_indices : list Z) (time : list F) : option (result (list F)) :=
  match climber_indices with
  | [] => Some (Ok time)
  | _ :: _ =>
      match fuel with
      | O => None
      | S fuel' =>
          match for_fold climber_indices (time, []) (climb_one parents t) with
          | Raise e => Some (Raise e)
          | Ok (time, next_climbers) =>
              climb fuel' parents (t + 1)
                (elements (list_to_set next_climbers : gset Z)) time
          end
      end
  end.

Definition get_times (fuel : nat) (individual : list Z)
    (parent_IDs parents : option (ndarray2 Z)) (check : bool)
    : option (result (list F)) :=
  match parents, parent_IDs with
  | None, None => Some (Raise (ValueError MustSpecifyParents))
  | _, _ =>
      match (match parents with
             | Some parents => Ok parents
             | None => parent_ID_to_index individual
                         (default (Array2 0 []) parent_IDs)
             end) with
      | Raise e => Some (Raise e)
      | Ok parents =>
          let time := replicate (length individual) (of_int 0) in
          let climber_indices := elements (proband_indices (length individual) parents) in
          match climb fuel parents 0 climber_indices time with
          | None => None
          | Some (Raise e) => Some (Raise e)
          | Some (Ok time) =>
              if check then
                Some (match check_times individual parents time with
                      | Ok _ => Ok time
                      | Raise e => Raise e
                      end)
              else Some (Ok time)
          end
      end
  end.

(** *** Array and text forms *)

Record format : Type := {
  col_individual : Z;
  col_parents : list Z;
  col_time : option Z;
  col_is_sample : option Z;
  col_sexes : option Z
}.

Definition default_format : format :=
  {| col_individual := 0; col_parents := [1; 2]; col_time := Some 3;
     col_is_sample := None; col_sexes := None |}.

(** The column numbers of a format, in the order of the dictionary's values. *)
Definition col_nums (cols : format) : list Z :=
  col_individual cols :: col_parents cols ++ option_list (col_time cols)
    ++ option_list (col_is_sample cols) ++ option_list (col_sexes cols).

(** [np.diff] *)
Definition np_diff (l : list Z) : list Z := zip_with (λ a b, b - a) l (tail l).

(** [max] of a non-empty list *)
Definition list_max_Z (l : list Z) : result Z :=
  match l with
  | [] => Raise (ValueError (Numpy "max() arg is an empty sequence"))
  | x :: l' => Ok (foldr Z.max x l')
  end.

(** numpy broadcasting along one axis: the value has the length of the target
    or length one. *)
Definition broadcast {A} (n : nat) (v : list A) : result (list A) :=
  if bool_decide (length v = n) then Ok v
  else match v with
       | [x] => Ok (replicate n x)
       | _ => Raise (ValueError (Numpy "could not broadcast input array"))
       end.

(** [a[:, js] = v] for a list of columns [js] and a two-dimensional [v]. *)
Definition assign_columns {A} (a : ndarray2 A) (js : list Z) (v : ndarray2 A)
    : result (ndarray2 A) :=
  vrows ← broadcast (length (rows a)) (rows v);
  vrows ← mapM_result (broadcast (length js)) vrows;
  new_rows ← mapM_result (λ rv : list A * list A,
      for_fold (zip js rv.2) rv.1 (λ r jx, setitem r jx.1 jx.2)) (zip (rows a) vrows);
  Ok (Array2 (shape1 a) new_rows).

(** [a[:, j] = v] for one column [j] and a one-dimensional [v]. *)
Definition assign_column {A} (a : ndarray2 A) (j : Z) (v : list A)
    : result (ndarray2 A) :=
  assign_columns a [j] (Array2 1 ((λ x, [x]) <$> v)).

(** [a[idx]] for a list of integers [idx]: a selection of rows. *)
Definition take_rows {A} (a : ndarray2 A) (idx : list Z) : result (ndarray2 A) :=
  selected ← mapM_result (getitem (rows a)) idx;
  Ok (Array2 (shape1 a) selected).

Definition build_array (self : Pedigree F) : result (ndarray2 F) :=
  let cols := default_format in
  let col_nums := col_nums cols in
  m ← list_max_Z col_nums;
  let n_cols := Z.to_nat (m + 1) in
  d ← list_max_Z (np_diff col_nums);
  if bool_decide (d > 1) then Raise (ValueError NonSequentialColumns)
  else
    let pedarray :=
      Array2 n_cols (replicate (num_individuals self) (replicate n_cols (of_int 0))) in
    pedarray ← assign_column pedarray (col_individual cols) (of_int <$> individual self);
    pedarray ← assign_columns pedarray (col_parents cols)
                 (Array2 (shape1 (parents self))
                    ((λ row : list Z, of_int <$> row) <$> rows (parents self)));
    match col_time cols with
    | Some c => assign_column pedarray c (time self)
    | None => Raise IndexError  (* not reached: the default format has a time column *)
    end.

(** A text pedigree file: the header line and, per data line, the numbers
    whose [str] the line joins with tabs. *)
Record txt_file : Type := { header : string; data : list (list F) }.

Definition tab : string := String (Ascii.ascii_of_nat 9) "".
Definition newline : string := String (Ascii.ascii_of_nat 10) "".

Definition save_txt (self : Pedigree F) : result txt_file :=
  pedarray ← build_array self;
  let cols := default_format in
  p0 ← getitem (col_parents cols) 0;
  p1 ← getitem (col_parents cols) 1;
  c_time ← (match col_time cols with Some c => Ok c | None => Raise IndexError end);
  let cols_to_save := [col_individual cols; p0; p1; c_time] in
  pedarray ← take_rows pedarray cols_to_save;
  parent_IDs ← parent_index_to_ID (individual self) (parents self);
  pedarray ← assign_columns pedarray (col_parents cols)
               (Array2 (shape1 parent_IDs)
                  ((λ row : list Z, of_int <$> row) <$> rows parent_IDs));
  Ok {| header := "ind" +:+ tab +:+ "father" +:+ tab +:+ "mother" +:+ tab +:+ "time" +:+ newline;
        data := rows pedarray |}.

(** [np.save] stores the array itself. *)
Definition save_npy (self : Pedigree F) : result (ndarray2 F) := build_array self.

End pedigree.

(** ** [sim_pedigree]

    The tables of the sink, with the columns the simulator fills.  The sink
    is tskit's [TableCollection]; its metadata schemas play no part here. *)
Record IndividualRow : Type := { ind_flags : Z; ind_parents : list Z }.

Record NodeRow (F : Type) : Type := {
  node_flags : Z;
  node_time : F;
  node_population : Z;
  node_individual : Z
}.
Arguments node_flags {F} _.
Arguments node_time {F} _.
Arguments node_population {F} _.
Arguments node_individual {F} _.

Record TableCollection (F : Type) : Type := {
  sequence_length : F;
  populations : nat;
  individuals : list IndividualRow;
  nodes : list (NodeRow F)
}.
Arguments sequence_length {F} _.
Arguments populations {F} _.
Arguments individuals {F} _.
Arguments nodes {F} _.

Definition NULL : Z := -1.
Definition NODE_IS_SAMPLE : Z := 1.

(** [tables.individuals.append_columns(flags, parents, parents_offset)]: row [k]
    receives the slice [parents[parents_offset[k]:parents_offset[k+1]]]. *)
Definition individuals_append_columns (tb : list IndividualRow)
    (flags parents parents_offset : list Z) : list IndividualRow :=
  tb ++ zip_with (λ fl (ab : Z * Z),
          {| ind_flags := fl;
             ind_parents := take (Z.to_nat (ab.2 - ab.1)) (drop (Z.to_nat ab.1) parents) |})
        flags (zip parents_offset (tail parents_offset)).

Section sim_pedigree.
Context {F : Type} `{Float64 F}.

(** [tables.nodes.append_columns(flags, time, population, individual)] *)
Definition nodes_append_columns (tb : list (NodeRow F))
    (flags : list Z) (time : list F) (population individual : list Z) : list (NodeRow F) :=
  tb ++ zip_with (λ (ft : Z * F) (pi : Z * Z),
          {| node_flags := ft.1; node_time := ft.2;
             node_population := pi.1; node_individual := pi.2 |})
        (zip flags time) (zip population individual).

(** One iteration of [for time in reversed(range(end_time + 1))]; the loop
    carries [tables], [population] and the generator. *)
Definition generation (population_size : Z)
    (st : TableCollection F * list Z * RandomState) (time : Z)
    : result (TableCollection F * list Z * RandomState) :=
  let '(tables, population, rng) := st in
  let N := population_size in
  let progeny :=
    (λ i, int32 (Z.of_nat (length (individuals tables)) + i)) <$> seqZ 0 N in
  drawn ← choice_pairs rng population N;
  let parents := drawn.1 in
  let individuals' :=
    individuals_append_columns (individuals tables)
      (replicate (Z.to_nat N) 0) parents
      ((λ i, uint32 (i * 2)) <$> seqZ 0 (N + 1)) in
  let node_individual := progeny ≫= (λ p, [p; p]) in
  let flags_value := if bool_decide (time > 0) then 0 else NODE_IS_SAMPLE in
  let nodes' :=
    nodes_append_columns (nodes tables)
      (replicate (Z.to_nat (2 * N)) flags_value)
      (replicate (Z.to_nat (2 * N)) (of_int time))
      (replicate (Z.to_nat (2 * N)) 0)
      node_individual in
  Ok ({| sequence_length := sequence_length tables; populations := populations tables;
         individuals := individuals'; nodes := nodes' |}, progeny, drawn.2).

(** [rng] is the generator that [np.random.RandomState(random_seed)] builds. *)
Definition sim_pedigree (population_size : Z) (sequence_length : option F)
    (rng : RandomState) (end_time : Z) : result (TableCollection F) :=
  let tables :=
    {| sequence_length := default (of_int (-1)) sequence_length;
       populations := 1; individuals := []; nodes := [] |} in
  st ← for_fold (reverse (seqZ 0 (end_time + 1))) (tables, [NULL], rng)
         (generation population_size);
  Ok st.1.1.
End sim_pedigree.

(** ** [parse_fam]

    [np.loadtxt] delivers the file as rows of five strings. *)
Record fam_row : Type := {
  plink_fid : string;
  plink_iid : string;
  pat : string;
  mat : string;
  fam_sex : string
}.

Record fam_metadata : Type := {
  md_plink_fid : string;
  md_plink_iid : string;
  md_sex : Z
}.

Record fam_individual : Type := {
  fam_parents : list Z;
  fam_metadata_of : fam_metadata
}.

Section parse_fam.
(** Python's [int] on a string; [None] when it raises [ValueError]. *)
Variable py_int : string → option Z.
(** [tc.sort()] of tskit, on the individual table. *)
Variable tc_sort : list fam_individual → result (list fam_individual).

Definition plink_key (fid iid : string) : string := fid +:+ " " +:+ iid.

Definition id_map_getitem (id_map : gmap string Z) (k : string) : result Z :=
  match id_map !! k with Some v => Ok v | None => Raise (KeyError k) end.

(** The first loop and the assignment [id_map["0"] = -1]. *)
Definition build_id_map (individuals : list fam_row) : result (gmap string Z) :=
  id_map ← for_fold (enumerate individuals) (∅ : gmap string Z)
    (λ id_map ir,
       let plink_id := plink_key (plink_fid ir.2) (plink_iid ir.2) in
       if bool_decide (is_Some (id_map !! plink_id)) then
         Raise (ValueError DuplicatePlinkID)
       else Ok (<[plink_id:=Z.of_nat ir.1]> id_map));
  Ok (<["0":=-1]> id_map).

(** The body of the second loop. *)
Definition fam_add_row (id_map : gmap string Z) (tb : list fam_individual) (r : fam_row)
    : result (list fam_individual) :=
  sex ← (match py_int (fam_sex r) with
         | Some z => Ok z
         | None => Raise (ValueError (IntLiteral (fam_sex r)))
         end);
  if negb (bool_decide (0 ≤ sex < 3)) then Raise (ValueError SexCode)
  else
    let pat_id := if bool_decide (pat r ≠ "0") then plink_key (plink_fid r) (pat r)
                  else pat r in
    let mat_id := if bool_decide (mat r ≠ "0") then plink_key (plink_fid r) (mat r)
                  else mat r in
    p ← id_map_getitem id_map pat_id;
    m ← id_map_getitem id_map mat_id;
    Ok (tb ++ [{| fam_parents := [p; m];
                  fam_metadata_of := {| md_plink_fid := plink_fid r;
                                        md_plink_iid := plink_iid r;
                                        md_sex := sex |} |}]).

(** The rows handed to [add_row], in order, before [tc.sort()]. *)
Definition fam_rows (individuals : list fam_row) : result (list fam_individual) :=
  id_map ← build_id_map individuals;
  for_fold individuals [] (fam_add_row id_map).

Definition parse_fam (individuals : list fam_row) : result (list fam_individual) :=
  tb ← fam_rows individuals;
  tc_sort tb.
End parse_fam.

(** ** Vocabulary of the statements *)

(** A parent-index matrix for [n] individuals: one row per individual and no
    entry beyond the last index.  Negative entries stand for an absent
    parent. *)
Definition valid_indices (n : nat) (parents : ndarray2 Z) : Prop :=
  length (rows parents) = n ∧
  ∀ row p, row ∈ rows parents → p ∈ row → p < Z.of_nat n.

(** Individual [i] has the parent [p] and is not younger than it. *)
Definition time_violation {F} `{Float64 F} (parents : ndarray2 Z) (time : list F)
    (i : nat) (p : Z) : Prop :=
  ∃ row t1 t2,
    rows parents !! i = Some row ∧ p ∈ row ∧ 0 ≤ p ∧
    time !! i = Some t1 ∧ time !! Z.to_nat p = Some t2 ∧ float_ge t1 t2 = true.

(** *** The tables that [sim_pedigree] leaves

    Row [j] of the individual table belongs to the generation [j / N] in
    order of production; generation 0 is the founders'.  Its flags are 0, it
    has two parent slots, and each slot holds [NULL] in the founder generation
    and the index of an individual of the generation before in any other. *)
Definition individual_row_ok (N : Z) (j : nat) (row : IndividualRow) : Prop :=
  ind_flags row = 0 ∧ length (ind_parents row) = 2%nat ∧
  ∀ p, p ∈ ind_parents row →
    if bool_decide (Z.of_nat j < N) then p = NULL
    else (Z.of_nat j `div` N - 1) * N ≤ p < (Z.of_nat j `div` N) * N.

(** Row [j] of the node table belongs to the individual [j / 2] and carries
    the time of its generation, [E - j / (2 N)]; it is flagged as a sample
    exactly when that time is 0. *)
Definition node_row_ok {F} `{Float64 F} (N E : Z) (j : nat) (row : NodeRow F) : Prop :=
  let t := E - Z.of_nat j `div` (2 * N) in
  node_time row = of_int t ∧
  node_flags row = (if bool_decide (t > 0) then 0 else NODE_IS_SAMPLE) ∧
  node_population row = 0 ∧
  node_individual row = Z.of_nat j `div` 2.

(** The state of the generation loop after [g] iterations. *)
Definition sim_invariant {F} `{Float64 F} (N E : Z) (g : nat)
    (st : TableCollection F * list Z * RandomState) : Prop :=
  length (individuals st.1.1) = Z.to_nat (Z.of_nat g * N) ∧
  length (nodes st.1.1) = Z.to_nat (2 * Z.of_nat g * N) ∧
  st.1.2 = (if decide (g = 0%nat) then [NULL] else seqZ ((Z.of_nat g - 1) * N) N) ∧
  (∀ j row, individuals st.1.1 !! j = Some row → individual_row_ok N j row) ∧
  (∀ j row, nodes st.1.1 !! j = Some row → node_row_ok N E j row).

(** *** PLINK rows *)

(** The key under which [parse_fam] files a row. *)
Definition row_key (r : fam_row) : string := plink_key (plink_fid r) (plink_iid r).

(** The sex code of a row is one of 0, 1, 2. *)
Definition sex_code_ok (py_int : string → option Z) (r : fam_row) : Prop :=
  ∃ z, py_int (fam_sex r) = Some z ∧ 0 ≤ z < 3.

(** A parent field [p] of a row of family [fid] refers to no row of the
    input. *)
Definition unresolved (individuals : list fam_row) (fid p : string) : Prop :=
  p ≠ "0" ∧ ∀ r, r ∈ individuals → row_key r ≠ plink_key fid p.

(** What a parent field must have been translated to: [-1] for ["0"],
    otherwise the position of the row it names. *)
Definition resolved (individuals : list fam_row) (fid p : string) (v : Z) : Prop :=
  if bool_decide (p = "0") then v = -1
  else ∃ (j : nat) r, individuals !! j = Some r ∧ row_key r = plink_key fid p ∧ v = Z.of_nat j.

(** *** The parent relation as a graph *)

(** [w] is a present parent of [v]: a non-negative entry of row [v]. *)
Definition parent_of (parents : ndarray2 Z) (v w : Z) : Prop :=
  0 ≤ v ∧ ∃ row, rows parents !! Z.to_nat v = Some row ∧ w ∈ row ∧ 0 ≤ w.

(** [path parents u v n]: [v] is reached from [u] by [n] steps from child to
    parent. *)
Inductive path (parents : ndarray2 Z) : Z → Z → nat → Prop :=
  | path_refl v : path parents v v 0
  | path_step u v w n :
      path parents u v n → parent_of parents v w → path parents u w (S n).

(** No individual is its own ancestor. *)
Definition acyclic (parents : ndarray2 Z) : Prop :=
  ∀ v n, ¬ path parents v v (S n).

(** [v] lies [t] steps above some proband. *)
Definition level (n : nat) (parents : ndarray2 Z) (t : nat) (v : Z) : Prop :=
  ∃ p, p ∈ proband_indices n parents ∧ path parents p v t.

(** Some proband reaches a cycle of the parent relation. *)
Definition reachable_cycle (n : nat) (parents : ndarray2 Z) : Prop :=
  ∃ p v t k, p ∈ proband_indices n parents ∧
             path parents p v t ∧ path parents v v (S k).

(** [k] is the length of the longest path from any proband to [v]. *)
Definition longest_path (n : nat) (parents : ndarray2 Z) (v : Z) (k : nat) : Prop :=
  level n parents k v ∧ ∀ t, level n parents t v → (t ≤ k)%nat.

(** A single unbranched lineage of depth [k]: individual [i] has the one
    parent [i + 1], and the last individual has none. *)
Definition lineage (k : nat) : ndarray2 Z :=
  Array2 2 (((λ i, [i + 1; -1]) <$> seqZ 0 (Z.of_nat k)) ++ [[-1; -1]]).

(** A sufficient, computable test for a well-formed acyclic matrix with [n]
    rows: every present parent has a larger index than its child and lies
    within the matrix. *)
Definition parents_after_children (n : nat) (parents : ndarray2 Z) : bool :=
  bool_decide (length (rows parents) = n) &&
  forallb (λ ir : nat * list Z,
             forallb (λ p, bool_decide (p < 0 ∨ Z.of_nat ir.1 < p < Z.of_nat n)) ir.2)
          (enumerate (rows parents)).

(** What one round of the climb does to the time of a climber. *)
Definition raise_to {F} `{Float64 F} (t : Z) (x : F) : F :=
  if float_lt x (of_int t) then of_int t else x.

(** The [time] vector at the start of round [t] of the climb: each entry is
    the number of the last earlier round in which the individual was a
    climber, or 0 when there was none. *)
Definition times_before {F} `{Float64 F} (n : nat) (parents : ndarray2 Z) (t : nat)
    (time : list F) : Prop :=
  ∀ i : nat, (i < n)%nat →
    ∃ k : nat, time !! i = Some (of_int (Z.of_nat k)) ∧
      (k = 0%nat ∨ (k < t)%nat ∧ level n parents k (Z.of_nat i)) ∧
      ∀ s, (s < t)%nat → level n parents s (Z.of_nat i) → (s ≤ k)%nat.

(** *** Inputs of the worked examples *)

(** A generator whose raw draws are 3, 10, 17, ... *)
Definition example_rng : RandomState :=
  {| tape := λ k, (7 * k + 3)%nat; cursor := 0 |}.

(** Eight individuals: proband 0 reaches individual 7 in two steps
    (0, 2, 7) and proband 1 reaches it in five (1, 3, 4, 5, 6, 7). *)
Definition two_paths : ndarray2 Z :=
  Array2 2 [[2; -1]; [3; -1]; [7; -1]; [4; -1]; [5; -1]; [6; -1]; [7; -1]; [-1; -1]].

(** One individual that is its own parent. *)
Definition self_parent : ndarray2 Z := Array2 2 [[0; -1]].

(** A proband whose parent is its own parent. *)
Definition reachable_loop : ndarray2 Z := Array2 2 [[1; -1]; [1; -1]].

(** A proband without parents beside two individuals that are each other's
    parent. *)
Definition unreachable_loop : ndarray2 Z := Array2 2 [[-1; -1]; [2; -1]; [1; -1]].

(** Four individuals, the first a child of the third and fourth; times in
    generations. *)
Definition example_pedigree : Pedigree Z :=
  {| individual := [1; 2; 3; 4]; num_individuals := 4;
     parents := Array2 2 [[2; 3]; [-1; -1]; [-1; -1]; [-1; -1]];
     time := [0; 0; 1; 1]; sex := None; ploidy := 2;
     is_sample := None; samples := None; num_samples := None |}.

(** One individual without parents. *)
Definition single_pedigree : Pedigree Z :=
  {| individual := [1]; num_individuals := 1;
     parents := Array2 2 [[-1; -1]];
     time := [0]; sex := None; ploidy := 2;
     is_sample := None; samples := None; num_samples := None |}.

(** A reading of [int] that covers the single digits. *)
Definition digit_int (s : string) : option Z :=
  if bool_decide (s = "0") then Some 0
  else if bool_decide (s = "1") then Some 1
  else if bool_decide (s = "2") then Some 2
  else if bool_decide (s = "3") then Some 3
  else None.

(** A family of two: a founder and a child; then the same with the founder
    listed twice, and with a father nobody lists. *)
Definition fam_founder : fam_row :=
  {| plink_fid := "F1"; plink_iid := "1"; pat := "0"; mat := "0"; fam_sex := "1" |}.
Definition fam_child : fam_row :=
  {| plink_fid := "F1"; plink_iid := "2"; pat := "1"; mat := "0"; fam_sex := "2" |}.
Definition fam_orphan : fam_row :=
  {| plink_fid := "F1"; plink_iid := "3"; pat := "9"; mat := "0"; fam_sex := "0" |}.

(** *** Identifiers and indices *)

(** What [parent_ID_to_index] must make of the identifier [k] when the
    dictionary was built from the first [n] entries of [individual]: [-1] for
    the reserved [0], otherwise the last position below [n] that holds [k]. *)
Definition resolves_to (individual : list Z) (n : nat) (k p : Z) : Prop :=
  if bool_decide (k = 0) then p = -1
  else ∃ i : nat, p = Z.of_nat i ∧ (i < n)%nat ∧ individual !! i = Some k ∧
         ∀ j : nat, (i < j < n)%nat → individual !! j ≠ Some k.

(** The identifier that stands for the index [p]: [0] for an absent parent. *)
Definition ID_of (individual : list Z) (p : Z) : Z :=
  if bool_decide (0 ≤ p) then default 0 (individual !! Z.to_nat p) else 0.

(** *** Comparison of exact integers

    [>=] on integers that binary64 represents exactly agrees with [Z]. *)
Class Float64ExactGe (F : Type) `{Float64 F} : Prop := {
  float_ge_of_int a b :
    0 ≤ a ≤ 2 ^ 53 → 0 ≤ b ≤ 2 ^ 53 → float_ge (of_int a) (of_int b) = bool_decide (b ≤ a)
}.

(** *** The simulated pedigree as a graph *)

(** The parent slots of an individual table, read as a parent-index matrix. *)
Definition table_parents {F} (tables : TableCollection F) : ndarray2 Z :=
  Array2 2 (ind_parents <$> individuals tables).

(** *** Column assignment *)

(** A row after the assignments [r[j] = x] for the positions [js] and the
    values [rv], all positions being within the row. *)
Definition set_columns {A} (js : list Z) (r rv : list A) : list A :=
  foldl (λ r (jx : Z * A), <[Z.to_nat jx.1:=jx.2]> r) r (zip js rv).

(** *** [Pedigree.asdict]

    The keyword arguments of [Pedigree.__init__]; every one of them is also an
    attribute that [__init__] assigns, so [asdict] returns all six. *)
Record init_args (F : Type) : Type := {
  arg_individual : list Z;
  arg_parents : ndarray2 Z;
  arg_time : list F;
  arg_is_sample : option (list Z);
  arg_sex : option Z;
  arg_ploidy : Z
}.
Arguments arg_individual {F} _.
Arguments arg_parents {F} _.
Arguments arg_time {F} _.
Arguments arg_is_sample {F} _.
Arguments arg_sex {F} _.
Arguments arg_ploidy {F} _.

Definition asdict {F} (self : Pedigree F) : init_args F :=
  {| arg_individual := individual self; arg_parents := parents self;
     arg_time := time self; arg_is_sample := is_sample self;
     arg_sex := sex self; arg_ploidy := ploidy self |}.

(** The constructor called with a dictionary as its keyword arguments. *)
Definition Pedigree_from_dict {F} `{Float64 F} (d : init_args F) : result (Pedigree F) :=
  Pedigree_init (arg_individual d) (arg_parents d) (arg_time d)
    (arg_is_sample d) (arg_sex d) (arg_ploidy d).

(** *** The order of the time check *)

(** Slot [k] of row [i] names a parent that is not older than individual
    [i]. *)
Definition slot_violation {F} `{Float64 F} (parents : ndarray2 Z) (time : list F)
    (i k : nat) : Prop :=
  ∃ row p t1 t2,
    rows parents !! i = Some row ∧ row !! k = Some p ∧ 0 ≤ p ∧
    time !! i = Some t1 ∧ time !! Z.to_nat p = Some t2 ∧ float_ge t1 t2 = true.

(** * Properties *)

(** ** Loops and indexing *)

Lemma normalize_index_nonneg n i :
  0 ≤ i → normalize_index n i = if bool_decide (i < Z.of_nat n) then Some (Z.to_nat i) else None.
Proof.
  intros Hi. unfold normalize_index.
  rewrite (bool_decide_eq_false_2 (i < 0)) by lia.
  repeat case_bool_decide; try done; lia.
Qed.

Lemma getitem_nonneg {A} (l : list A) i :
  0 ≤ i →
  getitem l i = match l !! Z.to_nat i with Some x => Ok x | None => Raise IndexError end.
Proof.
  intros Hi. unfold getitem. rewrite normalize_index_nonneg by done.
  case_bool_decide as Hlt; [done|].
  rewrite lookup_ge_None_2; [done|lia].
Qed.

Lemma getitem_nat {A} (l : list A) (i : nat) :
  getitem l (Z.of_nat i) = match l !! i with Some x => Ok x | None => Raise IndexError end.
Proof. rewrite getitem_nonneg by lia. by rewrite Nat2Z.id. Qed.

Lemma setitem_nonneg {A} (l : list A) i x :
  0 ≤ i →
  setitem l i x = if bool_decide (i < Z.of_nat (length l)) then Ok (<[Z.to_nat i:=x]> l)
                  else Raise IndexError.
Proof.
  intros Hi. unfold setitem. rewrite normalize_index_nonneg by done.
  by case_bool_decide.
Qed.

Lemma for_Ok {A} (l : list A) body :
  for_ l body = Ok () ↔ ∀ x, x ∈ l → body x = Ok ().
Proof.
  induction l as [|x l IH]; simpl.
  - split; [|done]. intros _ x Hx. by apply elem_of_nil in Hx.
  - destruct (body x) as [[]|e] eqn:Hx.
    + rewrite IH. split.
      * intros Hl y [->|Hy]%elem_of_cons; auto.
      * intros Hl y Hy. apply Hl. by right.
    + split; [done|]. intros Hl. specialize (Hl x (list_elem_of_here _ _)). congruence.
Qed.

Lemma for_Raise {A} (l : list A) body e :
  for_ l body = Raise e → ∃ x, x ∈ l ∧ body x = Raise e.
Proof.
  induction l as [|x l IH]; simpl; [done|].
  destruct (body x) as [[]|e'] eqn:Hx.
  - intros (y & Hy & Hb)%IH. exists y. split; [by right|done].
  - intros [= ->]. exists x. split; [by left|done].
Qed.

Lemma for_raises {A} (l : list A) body x :
  x ∈ l → raises (body x) → raises (for_ l body).
Proof.
  intros Hx Hr. destruct (for_ l body) as [[]|e] eqn:Hf; [|by eexists].
  rewrite for_Ok in Hf. destruct Hr as [e He]. rewrite (Hf x Hx) in He. done.
Qed.

Lemma elem_of_enumerate {A} (l : list A) i x :
  (i, x) ∈ enumerate l ↔ l !! i = Some x.
Proof.
  unfold enumerate. rewrite elem_of_lookup_imap. split.
  - intros (j & y & [= -> ->] & Hy). done.
  - intros Hl. eauto.
Qed.

(** ** [check_times] *)

Section check_times_properties.
Context {F : Type} `{Float64 F}.
Implicit Types (individual : list Z) (parents : ndarray2 Z) (time : list F).

(** What one parent slot does, when the row index and the parent index are
    within the three arrays. *)
Lemma check_parent_cases individual time i ind p t1 :
  time !! i = Some t1 →
  length time = length individual →
  p < Z.of_nat (length individual) →
  (check_parent individual time i ind p = Ok () ∧
     ¬ (0 ≤ p ∧ ∃ t2, time !! Z.to_nat p = Some t2 ∧ float_ge t1 t2 = true)) ∨
  (0 ≤ p ∧ ∃ t2 pid,
     time !! Z.to_nat p = Some t2 ∧ float_ge t1 t2 = true ∧
     individual !! Z.to_nat p = Some pid ∧
     check_parent individual time i ind p = Raise (ValueError (TimeOrder ind pid))).
Proof.
  intros Ht1 Hlen Hp. unfold check_parent.
  case_bool_decide as Hp0; [|left; split; [done|tauto]].
  rewrite getitem_nat, Ht1. simpl.
  destruct (lookup_lt_is_Some_2 time (Z.to_nat p)) as [t2 Ht2]; [lia|].
  destruct (lookup_lt_is_Some_2 individual (Z.to_nat p)) as [pid Hpid]; [lia|].
  rewrite !getitem_nonneg by done. rewrite Ht2. simpl.
  destruct (float_ge t1 t2) eqn:Hge.
  - right. split; [done|]. exists t2, pid. by rewrite Hpid.
  - left. split; [done|]. intros (_ & t2' & Ht2' & Hge'). congruence.
Qed.

(** C7. On a parent-index matrix whose entries are within the arrays,
    [check_times] raises exactly when some individual has a present parent
    ([parents[i][k] >= 0]) with [time[i] >= time[parents[i][k]]]; the error
    then carries the identifiers of such a child and parent, taken from
    [individual], not their indices; and without such a pair the call returns
    normally.  The function only reads its arguments. *)
Theorem check_times_raises_iff_violation individual parents time :
  valid_indices (length individual) parents →
  length time = length individual →
  (raises (check_times individual parents time) ↔
     ∃ i p, time_violation parents time i p) ∧
  (∀ e, check_times individual parents time = Raise e →
     ∃ i p ind pid,
       time_violation parents time i p ∧
       individual !! i = Some ind ∧ individual !! Z.to_nat p = Some pid ∧
       e = ValueError (TimeOrder ind pid)) ∧
  ((¬ ∃ i p, time_violation parents time i p) →
     check_times individual parents time = Ok ()).
Proof.
  intros [Hrows Hentries] Hlen.
  assert (Hraise : ∀ e, check_times individual parents time = Raise e →
     ∃ i p ind pid,
       time_violation parents time i p ∧
       individual !! i = Some ind ∧ individual !! Z.to_nat p = Some pid ∧
       e = ValueError (TimeOrder ind pid)).
  { intros e He. unfold check_times in He.
    apply for_Raise in He as ([i ind] & Hi & He). apply elem_of_enumerate in Hi.
    pose proof (lookup_lt_Some _ _ _ Hi) as Hlt.
    destruct (lookup_lt_is_Some_2 (rows parents) i) as [row Hrow]; [lia|].
    destruct (lookup_lt_is_Some_2 time i) as [t1 Ht1]; [lia|].
    rewrite getitem_nat, Hrow in He. simpl in He.
    apply for_Raise in He as (p & Hp & He).
    assert (p < Z.of_nat (length individual)) as Hpn.
    { eapply Hentries; [|done]. by eapply list_elem_of_lookup_2. }
    destruct (check_parent_cases individual time i ind p t1 Ht1 Hlen Hpn)
      as [[Hok _]|(Hp0 & t2 & pid & Ht2 & Hge & Hpid & Hr)]; [congruence|].
    exists i, p, ind, pid. split_and!; [|done|done|congruence].
    exists row, t1, t2. done. }
  assert (Hviol : (∃ i p, time_violation parents time i p) →
     raises (check_times individual parents time)).
  { intros (i & p & row & t1 & t2 & Hrow & Hp & Hp0 & Ht1 & Ht2 & Hge).
    assert (i < length individual)%nat as Hlt.
    { rewrite <- Hrows. by eapply lookup_lt_Some. }
    destruct (lookup_lt_is_Some_2 individual i) as [ind Hind]; [done|].
    unfold check_times. eapply (for_raises _ _ (i, ind)).
    { by apply elem_of_enumerate. }
    rewrite getitem_nat, Hrow. simpl.
    eapply for_raises; [exact Hp|].
    assert (p < Z.of_nat (length individual)) as Hpn.
    { eapply Hentries; [|done]. by eapply list_elem_of_lookup_2. }
    destruct (check_parent_cases individual time i ind p t1 Ht1 Hlen Hpn)
      as [[_ Hno]|(_ & _ & pid & _ & _ & _ & Hr)]; [|by eexists].
    destruct Hno. eauto. }
  split_and!; [|done|].
  - split; [|done]. intros [e He]. destruct (Hraise e He) as (i & p & _ & _ & Hv & _).
    eauto.
  - intros Hno. destruct (check_times individual parents time) as [[]|e] eqn:Hc; [done|].
    destruct Hno. destruct (Hraise e eq_refl) as (i & p & _ & _ & Hv & _). eauto.
Qed.
End check_times_properties.

(** ** [Pedigree.__init__] *)

Lemma foldr_min_le (x : Z) (l : list Z) (b : Z) :
  foldr Z.min x l ≤ b ↔ ∃ y, y ∈ x :: l ∧ y ≤ b.
Proof.
  induction l as [|a l IH]; simpl.
  - split.
    + intros Hx. exists x. split; [by left|done].
    + intros (y & Hy & Hb). apply elem_of_cons in Hy as [->|Hy]; [done|].
      by apply elem_of_nil in Hy.
  - rewrite Z.min_le_iff, IH. split.
    + intros [Ha|(y & Hy & Hb)].
      * exists a. split; [|done]. right. by left.
      * exists y. split; [|done].
        apply elem_of_cons in Hy as [->|Hy]; [by left|]. right. by right.
    + intros (y & Hy & Hb).
      apply elem_of_cons in Hy as [->|Hy]; [right; exists x; split; [by left|done]|].
      apply elem_of_cons in Hy as [->|Hy]; [by left|].
      right. exists y. split; [by right|done].
Qed.

Section init_properties.
Context {F : Type} `{Float64 F}.

(** C2, as the constructor stands: it raises exactly when the ploidy is not 2,
    a sex array is given, the parent matrix does not have 2 columns, there is
    no identifier at all, or some identifier is not strictly positive.  Neither
    the uniqueness of the identifiers nor the order of the times takes part in
    the decision. *)
Theorem Pedigree_init_raises_iff (individual : list Z) (parents : ndarray2 Z)
    (time : list F) (is_sample : option (list Z)) (sex : option Z) (ploidy : Z) :
  raises (Pedigree_init individual parents time is_sample sex ploidy) ↔
    ploidy ≠ 2 ∨ sex ≠ None ∨ shape1 parents ≠ 2%nat ∨
    individual = [] ∨ ∃ x, x ∈ individual ∧ x ≤ 0.
Proof.
  unfold Pedigree_init.
  case_bool_decide as Hpl.
  { split; [auto|]. intros _. by eexists. }
  subst ploidy.
  case_bool_decide as Hsex.
  { split; [auto|]. intros _. by eexists. }
  case_bool_decide as Hsh.
  { split; [|intros _; by eexists]. intros _. right. right. left. lia. }
  destruct individual as [|x l]; simpl.
  { split; [auto 6|]. intros _. by eexists. }
  case_bool_decide as Hmin.
  - split; [|intros _; by eexists]. intros _.
    apply foldr_min_le in Hmin. auto 6.
  - split; [intros [e He]; done|].
    intros [?|[?|[?|[?|Hx]]]]; [done|done|lia|done|].
    destruct Hmin. by apply foldr_min_le.
Qed.
End init_properties.

(** C2, as the claim states it, fails: two individuals with the same
    identifier are accepted, and so is a child whose time is not below its
    parent's. *)
Lemma Pedigree_init_accepts_duplicates_and_disorder :
  (¬ NoDup [1; 1] ∧
   ¬ raises (Pedigree_init (F:=Z) [1; 1] (Array2 2 [[-1; -1]; [-1; -1]]) [0; 0]
               None None 2)) ∧
  (time_violation (F:=Z) (Array2 2 [[1; -1]; [-1; -1]]) [5; 0] 0 1 ∧
   ¬ raises (Pedigree_init (F:=Z) [1; 2] (Array2 2 [[1; -1]; [-1; -1]]) [5; 0]
               None None 2)).
Proof.
  split_and!.
  - intros Hnd. apply NoDup_cons in Hnd as [Hin _]. apply Hin. by left.
  - intros [e He]. vm_compute in He. done.
  - exists [1; -1], 5, 0. split_and!; try done. by left.
  - intros [e He]. vm_compute in He. done.
Qed.

(** ** The random generator *)



Lemma randint_below rs bound n i :
  bound ≠ 0%nat → i ∈ (randint rs bound n).1 → (i < bound)%nat.
Proof.
  intros Hb. unfold randint. simpl.
  intros (k & -> & _)%list_elem_of_fmap. by apply Nat.mod_upper_bound.
Qed.

Lemma randint_length rs bound n : length (randint rs bound n).1 = n.
Proof. unfold randint. simpl. by rewrite length_fmap, length_seq. Qed.

(** ** Index-array assignment *)

Lemma setitems_IntArray {A} (idx : list Z) (l : list A) (v : A) :
  (∀ i, i ∈ idx → 0 ≤ i < Z.of_nat (length l)) →
  ∃ l', setitems l (IntArray idx) v = Ok l' ∧ length l' = length l ∧
        ∀ j : nat, l' !! j = if bool_decide (Z.of_nat j ∈ idx)
                             then (λ _, v) <$> l !! j else l !! j.
Proof.
  simpl. revert l. induction idx as [|i idx IH]; intros l Hin; simpl.
  - exists l. split_and!; [done..|]. by intros j.
  - assert (0 ≤ i < Z.of_nat (length l)) as Hi by (apply Hin; by left).
    rewrite setitem_nonneg by lia. rewrite bool_decide_eq_true_2 by lia.
    destruct (IH (<[Z.to_nat i:=v]> l)) as (l' & Hl' & Hlen & Hlook).
    { intros i' Hi'. rewrite length_insert. apply Hin. by right. }
    exists l'. split_and!; [done|by rewrite Hlen, length_insert|].
    intros j. rewrite Hlook.
    destruct (decide (j = Z.to_nat i)) as [->|Hne].
    + rewrite list_lookup_insert_eq by lia.
      rewrite (bool_decide_eq_true_2 (Z.of_nat (Z.to_nat i) ∈ i :: idx)).
      2:{ rewrite Z2Nat.id by lia. by left. }
      destruct (lookup_lt_is_Some_2 l (Z.to_nat i)) as [x Hx]; [lia|].
      rewrite Hx. by case_bool_decide.
    + rewrite list_lookup_insert_ne by done.
      case_bool_decide as H1.
      * rewrite bool_decide_eq_true_2; [done|by right].
      * rewrite bool_decide_eq_false_2; [done|].
        intros [Heq|?]%elem_of_cons; [lia|done].
Qed.

(** ** [Pedigree.set_samples] *)

Lemma elem_of_proband_indices (n : nat) (parents : ndarray2 Z) (x : Z) :
  x ∈ proband_indices n parents ↔ 0 ≤ x < Z.of_nat n ∧ x ∉ ravel parents.
Proof.
  unfold proband_indices.
  rewrite elem_of_difference, !elem_of_list_to_set, elem_of_seqZ. intuition lia.
Qed.



Section set_samples_properties.
Context {F : Type} `{Float64 F}.
Implicit Types (self : Pedigree F) (rs : RandomState).


End set_samples_properties.

Section set_samples_failure.
Context {F : Type} `{Float64 F}.
Implicit Types (self : Pedigree F) (rs : RandomState).

Lemma mark_samples_raises self n sample_indices :
  raises (mark_samples self n sample_indices).2 →
  (mark_samples self n sample_indices).1 = self.
Proof.
  unfold mark_samples. case_bool_decide; [done|].
  destruct (setitems _ _ _); [|done]. simpl. by intros [e He].
Qed.

(** C6, as the method stands.  When the request itself is refused (samples
    other than probands, neither argument, both arguments) the object is left
    as it was.  When a later check fails (a count above the number of probands,
    a list that does not resolve to as many probands), the flag vector has
    already been replaced by zeros and the stored count by the requested one;
    the other attributes are untouched. *)
Theorem set_samples_state_after_failure rs self num_samples sample_IDs probands_only :
  raises (set_samples rs self num_samples sample_IDs probands_only).2 →
  let self' := (set_samples rs self num_samples sample_IDs probands_only).1 in
  (probands_only = false ∨ (num_samples = None ∧ sample_IDs = None) ∨
     (is_Some num_samples ∧ is_Some sample_IDs) → self' = self) ∧
  (probands_only = true →
   ∀ requested,
     (num_samples = Some requested ∧ sample_IDs = None) ∨
     (num_samples = None ∧ Z.of_nat ∘ length <$> sample_IDs = Some requested) →
     self' = with_num_samples
               (with_is_sample self (replicate (num_individuals self) 0)) requested).
Proof.
  intros Hr self'. subst self'. split.
  - intros [->|[[-> ->]|[[k ->] [ids ->]]]]; simpl; [done| |].
    + by destruct probands_only.
    + by destruct probands_only.
  - intros -> requested Hreq. revert Hr. unfold set_samples. simpl.
    destruct Hreq as [[-> ->]|[-> Hids]].
    + case_bool_decide; [done|].
      destruct (choice_no_replace _ _ _); [|done].
      apply mark_samples_raises.
    + destruct sample_IDs as [ids|]; [|done]. simpl in Hids. injection Hids as <-.
      destruct (mapM_result _ _); [|done].
      apply mark_samples_raises.
Qed.
End set_samples_failure.

(** C6, as the claim states it, fails: a pedigree constructed with one sample
    flagged, asked for two samples when it has one proband, comes out of the
    failed call with its flag cleared and its stored count changed. *)
Lemma set_samples_failure_mutates :
  ∃ self : Pedigree Z,
    Pedigree_init [1] (Array2 2 [[-1; -1]]) [0] (Some [1]) None 2 = Ok self ∧
    let after := set_samples {| tape := λ _, 0%nat; cursor := 0 |} self (Some 2) None true in
    raises after.2 ∧
    is_sample self = Some [1] ∧ is_sample after.1 = Some [0] ∧
    num_samples self = Some 1 ∧ num_samples after.1 = Some 2.
Proof.
  eexists. split; [reflexivity|]. simpl. split_and!; try reflexivity.
  vm_compute. by eexists.
Qed.

(** ** [sim_pedigree] *)

Lemma for_fold_invariant {A S} (I : nat → S → Prop) (l : list A) (body : S → A → result S) s :
  I 0%nat s →
  (∀ i x s, l !! i = Some x → I i s → ∃ s', body s x = Ok s' ∧ I (Datatypes.S i) s') →
  ∃ s', for_fold l s body = Ok s' ∧ I (length l) s'.
Proof.
  revert I s. induction l as [|x l IH]; intros I s H0 Hstep; simpl.
  - by exists s.
  - destruct (Hstep 0%nat x s eq_refl H0) as (s1 & -> & H1).
    apply (IH (λ i, I (Datatypes.S i))); [done|].
    intros i y s2 Hy. by apply (Hstep (Datatypes.S i)).
Qed.

Lemma int32_id x : - 2 ^ 31 ≤ x < 2 ^ 31 → int32 x = x.
Proof. intros Hx. unfold int32. rewrite Z.mod_small; lia. Qed.

Lemma uint32_id x : 0 ≤ x < 2 ^ 32 → uint32 x = x.
Proof. intros Hx. unfold uint32. by rewrite Z.mod_small. Qed.

Lemma lookup_duplicate {A} (l : list A) (k : nat) :
  (l ≫= (λ p, [p; p])) !! k = l !! (k `div` 2)%nat.
Proof.
  revert k. induction l as [|x l IH]; intros k; [done|].
  change ((x :: l) ≫= (λ p, [p; p])) with (x :: x :: (l ≫= (λ p, [p; p]))).
  destruct k as [|[|k]]; [done..|].
  simpl lookup at 1. rewrite IH.
  replace (Datatypes.S (Datatypes.S k)) with (k + 1 * 2)%nat by lia.
  rewrite Nat.div_add by lia. by rewrite Nat.add_1_r.
Qed.

Lemma length_tail_pred {A} (l : list A) : length (tail l) = pred (length l).
Proof. by destruct l. Qed.

Lemma length_bind_duplicate {A} (l : list A) :
  length (l ≫= (λ p, [p; p])) = (2 * length l)%nat.
Proof.
  induction l as [|x l IH]; [done|].
  change ((x :: l) ≫= (λ p, [p; p])) with (x :: x :: (l ≫= (λ p, [p; p]))).
  simpl. rewrite IH. lia.
Qed.

Lemma choice_pairs_spec rs (a : list Z) (n : Z) :
  a ≠ [] → 0 ≤ n →
  ∃ flat rs', choice_pairs rs a n = Ok (flat, rs') ∧
    length flat = (2 * Z.to_nat n)%nat ∧ ∀ p, p ∈ flat → p ∈ a.
Proof.
  intros Ha Hn. unfold choice_pairs.
  rewrite bool_decide_eq_false_2.
  2:{ intros [Hl _]. by apply length_zero_iff_nil in Hl. }
  rewrite bool_decide_eq_false_2 by lia.
  destruct (randint rs (length a) (2 * Z.to_nat n)) as [idx rs'] eqn:Hr.
  eexists _, _. split; [done|]. split.
  - rewrite length_fmap. by rewrite <- (randint_length rs (length a)), Hr.
  - intros p (i & -> & Hi)%list_elem_of_fmap.
    apply list_elem_of_lookup_total_2. apply (randint_below rs (length a) (2 * Z.to_nat n)).
    + intros Hl. by apply length_zero_iff_nil in Hl.
    + by rewrite Hr.
Qed.

Section sim_pedigree_properties.
Context {F : Type} `{Float64 F}.

Lemma progeny_seqZ (len N : Z) :
  0 ≤ len → len + N < 2 ^ 31 →
  (λ i, int32 (len + i)) <$> seqZ 0 N = seqZ len N.
Proof.
  intros Hlen Hb. apply list_eq. intros i. rewrite list_lookup_fmap.
  destruct (decide (Z.of_nat i < N)) as [Hi|Hi].
  - rewrite !lookup_seqZ_lt by done. simpl. f_equal. rewrite int32_id; lia.
  - by rewrite !lookup_seqZ_ge by lia.
Qed.

(** One generation: row counts grow by [N] and [2 N], the new rows are as
    described, and the new generation becomes the population. *)
Lemma generation_step (N E : Z) (g : nat) st :
  1 ≤ N → (Z.of_nat g + 1) * N < 2 ^ 31 →
  sim_invariant N E g st →
  ∃ st', generation N st (E - Z.of_nat g) = Ok st' ∧ sim_invariant N E (S g) st'.
Proof.
  intros HN Hbound. destruct st as [[tables population] rng].
  unfold sim_invariant. simpl. intros (Hli & Hln & Hpop & Hind & Hnode).
  destruct (choice_pairs_spec rng population N) as (flat & rng' & Hc & Hflen & Hfin).
  { subst population. case_decide; [done|].
    intros Hnil. apply (f_equal length) in Hnil. rewrite length_seqZ in Hnil.
    simpl in Hnil. lia. }
  { lia. }
  unfold generation. rewrite Hc. simpl. eexists. split; [done|]. simpl.
  assert (length (zip_with (λ fl (ab : Z * Z),
            {| ind_flags := fl;
               ind_parents := take (Z.to_nat (ab.2 - ab.1)) (drop (Z.to_nat ab.1) flat) |})
          (replicate (Z.to_nat N) 0)
          (zip ((λ i, uint32 (i * 2)) <$> seqZ 0 (N + 1))
               (tail ((λ i, uint32 (i * 2)) <$> seqZ 0 (N + 1))))) = Z.to_nat N) as Hnewi.
  { rewrite !length_zip_with, length_replicate, length_tail_pred, length_fmap, length_seqZ. lia. }
  assert ((λ i, int32 (Z.of_nat (length (individuals tables)) + i)) <$> seqZ 0 N
          = seqZ (Z.of_nat g * N) N) as Hprog.
  { rewrite Hli. rewrite progeny_seqZ by nia. f_equal. nia. }
  rewrite Hprog.
  split_and!.
  - unfold individuals_append_columns. rewrite length_app, Hnewi, Hli. nia.
  - unfold nodes_append_columns.
    rewrite length_app, !length_zip_with, !length_replicate, length_bind_duplicate, Hln.
    rewrite length_seqZ. nia.
  - f_equal. lia.
  - intros j row. unfold individuals_append_columns.
    rewrite lookup_app_Some. intros [Hold|[Hge Hnew]]; [by apply Hind|].
    apply lookup_zip_with_Some in Hnew as (fl & [a b] & -> & Hfl & Hab).
    apply lookup_replicate in Hfl as [-> Hk].
    apply lookup_zip_with_Some in Hab as (a' & b' & [= <- <-] & Ha & Hb).
    rewrite lookup_tail in Hb. rewrite list_lookup_fmap in Ha, Hb.
    rewrite lookup_seqZ_lt in Ha by lia. rewrite lookup_seqZ_lt in Hb by lia.
    simpl in Ha, Hb. injection Ha as <-. injection Hb as <-.
    rewrite !uint32_id by lia.
    set (k := (j - length (individuals tables))%nat) in *.
    replace (Z.to_nat ((0 + Z.of_nat (S k)) * 2 - (0 + Z.of_nat k) * 2)) with 2%nat by lia.
    assert (Z.of_nat j = Z.of_nat g * N + Z.of_nat k) as Hj by nia.
    split_and!; simpl.
    + done.
    + rewrite length_take, length_drop, Hflen. lia.
    + intros p Hp. apply elem_of_take in Hp as (i & Hp & _).
      rewrite lookup_drop in Hp. apply list_elem_of_lookup_2, Hfin in Hp.
      rewrite Hpop in Hp. case_decide as Hg.
      * subst g. rewrite bool_decide_eq_true_2 by lia.
        apply list_elem_of_singleton in Hp. done.
      * rewrite bool_decide_eq_false_2 by nia.
        apply elem_of_seqZ in Hp.
        replace (Z.of_nat j `div` N) with (Z.of_nat g); [lia|].
        apply (Z.div_unique _ _ _ (Z.of_nat k)); lia.
  - intros j row. unfold nodes_append_columns.
    rewrite lookup_app_Some. intros [Hold|[Hge Hnew]]; [by apply Hnode|].
    apply lookup_zip_with_Some in Hnew as ([fl tm] & [pop ind] & -> & Hft & Hpi).
    apply lookup_zip_with_Some in Hft as (fl' & tm' & [= <- <-] & Hfl & Htm).
    apply lookup_zip_with_Some in Hpi as (pop' & ind' & [= <- <-] & Hpo & Hin).
    apply lookup_replicate in Hfl as [-> Hk].
    apply lookup_replicate in Htm as [-> _].
    apply lookup_replicate in Hpo as [-> _].
    rewrite lookup_duplicate in Hin.
    set (k := (j - length (nodes tables))%nat) in *.
    assert (∃ q : nat, (k `div` 2)%nat = q ∧ Z.of_nat q = Z.of_nat k `div` 2)
      as (q & Hkq & Hq) by (eexists; split; [done|apply (Nat2Z.inj_div k 2)]).
    rewrite Hkq in Hin. clear Hkq. apply lookup_seqZ in Hin as [-> Hk2].
    assert (Z.of_nat j = 2 * Z.of_nat g * N + Z.of_nat k) as Hj by nia.
    assert (Z.of_nat j `div` (2 * N) = Z.of_nat g) as Hdiv.
    { symmetry. apply (Z.div_unique _ _ _ (Z.of_nat k)); lia. }
    unfold node_row_ok. simpl. rewrite Hdiv. split_and!; [done..|].
    rewrite Hq, Hj.
    replace (2 * Z.of_nat g * N + Z.of_nat k)
      with (Z.of_nat k + (Z.of_nat g * N) * 2) by lia.
    rewrite Z.div_add by lia. lia.
Qed.
End sim_pedigree_properties.

Section sim_pedigree_theorems.
Context {F : Type} `{Float64 F}.

(** The whole run: all [E + 1] generations are produced and the invariant
    holds of the tables returned. *)
Lemma sim_pedigree_invariant (N E : Z) (sequence_length : option F) rng :
  1 ≤ N → 0 ≤ E → (E + 1) * N < 2 ^ 31 →
  ∃ tables population rng',
    sim_pedigree N sequence_length rng E = Ok tables ∧
    sim_invariant N E (Z.to_nat (E + 1)) (tables, population, rng').
Proof.
  intros HN HE Hbound. unfold sim_pedigree.
  destruct (for_fold_invariant (sim_invariant N E) (reverse (seqZ 0 (E + 1)))
              (generation N)
              ({| sequence_length := default (of_int (-1)) sequence_length;
                  populations := 1; individuals := []; nodes := [] |}, [NULL], rng))
    as ([[tables population] rng'] & Hrun & Hinv).
  - unfold sim_invariant. simpl. split_and!; [done..| |]; by intros j row.
  - intros i x st Hx Hinv.
    apply reverse_lookup_Some in Hx as [Hx Hi]. rewrite length_seqZ in Hx, Hi.
    apply lookup_seqZ in Hx as [-> _].
    replace (0 + Z.of_nat (Z.to_nat (E + 1) - S i)) with (E - Z.of_nat i) by lia.
    apply generation_step; [done| |done]. nia.
  - rewrite length_reverse, length_seqZ in Hinv.
    exists tables, population, rng'. by rewrite Hrun.
Qed.

(** C4. For a population size [N >= 1] and an end time [E >= 0] (with the
    [(E + 1) N] rows within the int32 row ids of the sink) the simulator emits
    [(E + 1) N] individual rows and [2 (E + 1) N] node rows.  Node row [j]
    belongs to individual [j / 2] and carries the time [E - j / (2 N)] of that
    individual's generation; its flag is the sample flag when this time is 0
    and 0 otherwise.  Every individual of the generation of time [E] has
    [NULL] in both parent slots. *)
Theorem sim_pedigree_rows (N E : Z) (sequence_length : option F) rng :
  1 ≤ N → 0 ≤ E → (E + 1) * N < 2 ^ 31 →
  ∃ tables,
    sim_pedigree N sequence_length rng E = Ok tables ∧
    Z.of_nat (length (individuals tables)) = (E + 1) * N ∧
    Z.of_nat (length (nodes tables)) = 2 * (E + 1) * N ∧
    (∀ (j : nat) row, nodes tables !! j = Some row →
       ∃ t, 0 ≤ t ≤ E ∧ t = E - Z.of_nat j `div` (2 * N) ∧
            t = E - node_individual row `div` N ∧
            node_individual row = Z.of_nat j `div` 2 ∧
            node_time row = of_int t ∧
            node_flags row = (if bool_decide (t = 0) then NODE_IS_SAMPLE else 0)) ∧
    (∀ (j : nat) row, individuals tables !! j = Some row →
       E - Z.of_nat j `div` N = E → ind_parents row = [NULL; NULL]).
Proof.
  intros HN HE Hbound.
  destruct (sim_pedigree_invariant N E sequence_length rng HN HE Hbound)
    as (tables & population & rng' & Hrun & Hli & Hln & _ & Hind & Hnode).
  simpl in *. exists tables. split_and!; [done|lia|lia| |].
  - intros j row Hj. pose proof (lookup_lt_Some _ _ _ Hj) as Hlt.
    destruct (Hnode j row Hj) as (Ht & Hf & _ & Hi).
    assert (0 ≤ Z.of_nat j `div` (2 * N) ≤ E) as Hq.
    { split; [apply Z.div_pos; lia|].
      apply Z.lt_succ_r, Z.div_lt_upper_bound; lia. }
    exists (E - Z.of_nat j `div` (2 * N)). split_and!; [lia|lia|done| |done|done|].
    + rewrite Hi, Z.div_div by lia. done.
    + rewrite Hf. repeat case_bool_decide; try done; lia.
  - intros j row Hj Hgen. destruct (Hind j row Hj) as (_ & Hlen & Hp).
    assert (Z.of_nat j < N) as HjN.
    { assert (Z.of_nat j `div` N = 0) as Hq by lia.
      apply Z.div_small_iff in Hq; lia. }
    rewrite bool_decide_eq_true_2 in Hp by done.
    destruct (ind_parents row) as [|p1 [|p2 [|]]]; simplify_eq/=.
    rewrite (Hp p1) by (by left). rewrite (Hp p2) by (right; by left). done.
Qed.

(** C10. In the individual rows, the rows of the first generation produced
    have [NULL] in every parent slot, and every parent slot of a later row [j]
    holds the index of a row of the generation just before ([p / N = j / N - 1]);
    such an index is below [j], that is, it names a row appended earlier. *)
Theorem sim_pedigree_parents_precede (N E : Z) (sequence_length : option F) rng :
  1 ≤ N → 0 ≤ E → (E + 1) * N < 2 ^ 31 →
  ∃ tables,
    sim_pedigree N sequence_length rng E = Ok tables ∧
    ∀ (j : nat) row p,
      individuals tables !! j = Some row → p ∈ ind_parents row →
      (Z.of_nat j `div` N = 0 → p = NULL) ∧
      (p = NULL ∨ (0 ≤ p ∧ p `div` N = Z.of_nat j `div` N - 1)) ∧
      (p ≠ NULL → 0 ≤ p < Z.of_nat j).
Proof.
  intros HN HE Hbound.
  destruct (sim_pedigree_invariant N E sequence_length rng HN HE Hbound)
    as (tables & population & rng' & Hrun & _ & _ & _ & Hind & _).
  simpl in *. exists tables. split; [done|].
  intros j row p Hj Hp. destruct (Hind j row Hj) as (_ & _ & Hrow).
  specialize (Hrow p Hp).
  pose proof (Z.div_pos (Z.of_nat j) N) as Hq0.
  pose proof (Z.mul_div_le (Z.of_nat j) N) as Hq1.
  case_bool_decide as HjN.
  - split_and!; [done|by left|done].
  - assert (1 ≤ Z.of_nat j `div` N) as Hq.
    { apply Z.div_le_lower_bound; lia. }
    split_and!.
    + lia.
    + right. split; [nia|]. symmetry.
      apply (Z.div_unique _ _ _ (p - (Z.of_nat j `div` N - 1) * N)); lia.
    + intros _. nia.
Qed.
End sim_pedigree_theorems.

(** ** [parse_fam] *)

Lemma for_fold_raises {A S} (l : list A) (s : S) body x :
  x ∈ l → (∀ s, raises (body s x)) → raises (for_fold l s body).
Proof.
  intros Hx Hr. revert s. induction l as [|y l IH]; intros s; simpl.
  - by apply elem_of_nil in Hx.
  - destruct (body s y) as [s'|e] eqn:Hy; [|by eexists].
    apply elem_of_cons in Hx as [->|Hx]; [|by apply IH].
    destruct (Hr s) as [e He]. congruence.
Qed.

Lemma for_fold_Raise {A S} (l : list A) (s : S) body e :
  for_fold l s body = Raise e → ∃ x s', x ∈ l ∧ body s' x = Raise e.
Proof.
  revert s. induction l as [|y l IH]; intros s; simpl; [done|].
  destruct (body s y) as [s'|e'] eqn:Hy.
  - intros (x & s'' & Hx & Hb)%IH. exists x, s''. split; [by right|done].
  - intros [= ->]. exists y, s. split; [by left|done].
Qed.

Lemma for_fold_Ok_invariant {A S} (I : nat → S → Prop) (l : list A) body (s s' : S) :
  for_fold l s body = Ok s' →
  I 0%nat s →
  (∀ i x s s1, l !! i = Some x → I i s → body s x = Ok s1 → I (Datatypes.S i) s1) →
  I (length l) s'.
Proof.
  revert I s. induction l as [|x l IH]; intros I s; simpl.
  - by intros [= ->].
  - destruct (body s x) as [s1|e] eqn:Hx; [|done].
    intros Hrun H0 Hstep. apply (IH (λ i, I (Datatypes.S i)) s1); [done| |].
    + by apply (Hstep 0%nat x s).
    + intros i y s2 s3 Hy. by apply (Hstep (Datatypes.S i)).
Qed.

Lemma plink_key_not_zero fid iid : plink_key fid iid ≠ "0".
Proof.
  unfold plink_key. destruct fid as [|c [|c' fid]]; simpl; [done| |done].
  by destruct iid.
Qed.

(** The first loop of [parse_fam] over a list of numbered rows: it finishes
    only when the keys are pairwise distinct and new to the map, and then the
    map sends each key to the number of its row. *)
Lemma id_map_loop (ps : list (nat * fam_row)) (m m' : gmap string Z) :
  for_fold ps m
    (λ id_map ir,
       let plink_id := plink_key (plink_fid ir.2) (plink_iid ir.2) in
       if bool_decide (is_Some (id_map !! plink_id)) then
         Raise (ValueError DuplicatePlinkID)
       else Ok (<[plink_id:=Z.of_nat ir.1]> id_map)) = Ok m' →
  NoDup ((row_key ∘ snd) <$> ps) ∧
  (∀ ir, ir ∈ ps → m !! row_key ir.2 = None) ∧
  (∀ ir, ir ∈ ps → m' !! row_key ir.2 = Some (Z.of_nat ir.1)) ∧
  (∀ k, (∀ ir, ir ∈ ps → row_key ir.2 ≠ k) → m' !! k = m !! k).
Proof.
  revert m. induction ps as [|[i r] ps IH]; intros m; simpl.
  - intros [= ->]. split_and!; [constructor| | |done].
    all: intros ir Hir; by apply elem_of_nil in Hir.
  - fold (row_key r). case_bool_decide as Hin; [done|].
    apply eq_None_not_Some in Hin.
    intros (Hnd & Hnew & Hval & Hother)%IH.
    assert (∀ ir, ir ∈ ps → row_key ir.2 ≠ row_key r) as Hfresh.
    { intros ir Hir Heq. specialize (Hnew ir Hir).
      rewrite Heq, lookup_insert_eq in Hnew. done. }
    split_and!.
    + constructor; [|done]. intros (ir & Heq & Hir)%list_elem_of_fmap.
      by apply (Hfresh ir).
    + intros ir [->|Hir]%elem_of_cons; [done|].
      specialize (Hnew ir Hir). rewrite lookup_insert_ne in Hnew; [done|].
      intros Heq. by apply (Hfresh ir).
    + intros ir [->|Hir]%elem_of_cons; [|by apply Hval]. simpl.
      rewrite Hother by done. by rewrite lookup_insert_eq.
    + intros k Hk. rewrite Hother.
      * rewrite lookup_insert_ne; [done|]. apply (Hk (i, r)). by left.
      * intros ir Hir. apply Hk. by right.
Qed.

Lemma raises_bind {A B} (m : result A) (f : A → result B) :
  raises m → raises (m ≫= f).
Proof. intros [e ->]. by eexists. Qed.

Lemma id_map_loop_complete (ps : list (nat * fam_row)) (m : gmap string Z) :
  NoDup ((row_key ∘ snd) <$> ps) →
  (∀ ir, ir ∈ ps → m !! row_key ir.2 = None) →
  ∃ m', for_fold ps m
    (λ id_map ir,
       let plink_id := plink_key (plink_fid ir.2) (plink_iid ir.2) in
       if bool_decide (is_Some (id_map !! plink_id)) then
         Raise (ValueError DuplicatePlinkID)
       else Ok (<[plink_id:=Z.of_nat ir.1]> id_map)) = Ok m'.
Proof.
  revert m. induction ps as [|[i r] ps IH]; intros m Hnd Hnew; simpl; [by eexists|].
  fold (row_key r). rewrite fmap_cons in Hnd. apply NoDup_cons in Hnd as [Hr Hnd].
  rewrite bool_decide_eq_false_2.
  2:{ pose proof (Hnew (i, r) (list_elem_of_here _ _)) as Hr'. simpl in Hr'.
      rewrite Hr'. by intros [? ?]. }
  apply IH; [done|]. intros ir Hir.
  rewrite lookup_insert_ne; [apply Hnew; by right|].
  intros Heq. apply Hr. apply list_elem_of_fmap. exists ir. by split.
Qed.

Lemma enumerate_keys (individuals : list fam_row) :
  (row_key ∘ snd) <$> enumerate individuals = row_key <$> individuals.
Proof.
  apply list_eq. intros i. unfold enumerate.
  rewrite !list_lookup_fmap, list_lookup_imap. by destruct (individuals !! i).
Qed.

(** The map that the second loop consults. *)
Lemma build_id_map_Ok (individuals : list fam_row) (m : gmap string Z) :
  build_id_map individuals = Ok m →
  NoDup (row_key <$> individuals) ∧
  m !! "0" = Some (-1) ∧
  (∀ i r, individuals !! i = Some r → m !! row_key r = Some (Z.of_nat i)) ∧
  (∀ k, k ≠ "0" → (∀ r, r ∈ individuals → row_key r ≠ k) → m !! k = None).
Proof.
  unfold build_id_map.
  destruct (for_fold _ _ _) as [m0|e] eqn:Hloop; [|done]. simpl. intros [= <-].
  apply id_map_loop in Hloop as (Hnd & _ & Hval & Hother).
  rewrite enumerate_keys in Hnd. split_and!; [done|by rewrite lookup_insert_eq| |].
  - intros i r Hr. rewrite lookup_insert_ne by (symmetry; apply plink_key_not_zero).
    apply (Hval (i, r)). by apply elem_of_enumerate.
  - intros k Hk Hfree. rewrite lookup_insert_ne by done. rewrite Hother; [done|].
    intros [i r] Hir. apply Hfree. apply elem_of_enumerate in Hir.
    by eapply list_elem_of_lookup_2.
Qed.

Lemma build_id_map_complete (individuals : list fam_row) :
  NoDup (row_key <$> individuals) → ∃ m, build_id_map individuals = Ok m.
Proof.
  intros Hnd. unfold build_id_map.
  destruct (id_map_loop_complete (enumerate individuals) ∅) as [m0 Hm0].
  - by rewrite enumerate_keys.
  - done.
  - destruct (for_fold _ _ _) as [m1|e] eqn:Hloop; [by eexists|congruence].
Qed.

Section parse_fam_properties.
Variable py_int : string → option Z.
Variable tc_sort : list fam_individual → result (list fam_individual).

(** The identifier under which a parent field is looked up. *)
Lemma fam_add_row_Ok id_map tb r tb' :
  fam_add_row py_int id_map tb r = Ok tb' →
  sex_code_ok py_int r ∧
  ∃ p m row,
    id_map !! (if bool_decide (pat r ≠ "0") then plink_key (plink_fid r) (pat r)
               else pat r) = Some p ∧
    id_map !! (if bool_decide (mat r ≠ "0") then plink_key (plink_fid r) (mat r)
               else mat r) = Some m ∧
    fam_parents row = [p; m] ∧ tb' = tb ++ [row].
Proof.
  unfold fam_add_row, sex_code_ok, id_map_getitem.
  destruct (py_int (fam_sex r)) as [z|]; [|done]. simpl.
  case_bool_decide as Hz; [|done]. simpl.
  set (pat_id := if bool_decide (pat r ≠ "0") then _ else _).
  set (mat_id := if bool_decide (mat r ≠ "0") then _ else _).
  destruct (id_map !! pat_id) as [p|]; simpl; [|done].
  destruct (id_map !! mat_id) as [m|]; simpl; [|done].
  intros [= <-]. split; [by exists z|].
  by exists p, m,
    {| fam_parents := [p; m];
       fam_metadata_of := {| md_plink_fid := plink_fid r;
                             md_plink_iid := plink_iid r; md_sex := z |} |}.

Qed.

Lemma fam_add_row_raises id_map tb r :
  id_map !! "0" = Some (-1) →
  raises (fam_add_row py_int id_map tb r) ↔
    ¬ sex_code_ok py_int r ∨
    ∃ p, (p = pat r ∨ p = mat r) ∧ p ≠ "0" ∧ id_map !! plink_key (plink_fid r) p = None.
Proof.
  intros H0. unfold fam_add_row, sex_code_ok, id_map_getitem.
  destruct (py_int (fam_sex r)) as [z|]; simpl.
  2:{ split; [|intros _; by eexists]. intros _. left. by intros (z & ? & _). }
  case_bool_decide as Hz; simpl.
  2:{ split; [|intros _; by eexists]. intros _. left. intros (z' & [= <-] & ?). done. }
  assert (∀ p, (id_map !! (if bool_decide (p ≠ "0") then plink_key (plink_fid r) p else p)
                = None) ↔ p ≠ "0" ∧ id_map !! plink_key (plink_fid r) p = None) as Hlook.
  { intros p. case_bool_decide as Hp.
    - tauto.
    - subst p. rewrite H0. split; [done|]. by intros [? _]. }
  destruct (id_map !! (if bool_decide (pat r ≠ "0") then _ else _)) as [p|] eqn:Hp; simpl.
  - destruct (id_map !! (if bool_decide (mat r ≠ "0") then _ else _)) as [m|] eqn:Hm; simpl.
    + split; [by intros [e ?]|]. intros [Hsex|(q & [->| ->] & Hq)].
      * destruct Hsex. by exists z.
      * apply Hlook in Hq. congruence.
      * apply Hlook in Hq. congruence.
    + split; [|intros _; by eexists]. intros _. right. exists (mat r).
      apply Hlook in Hm. split; [by right|done].
  - split; [|intros _; by eexists]. intros _. right. exists (pat r).
    apply Hlook in Hp. split; [by left|done].
Qed.

Lemma fam_add_row_KeyError id_map tb r e :
  id_map !! "0" = Some (-1) →
  sex_code_ok py_int r →
  fam_add_row py_int id_map tb r = Raise e →
  ∃ p, (p = pat r ∨ p = mat r) ∧ p ≠ "0" ∧
       id_map !! plink_key (plink_fid r) p = None ∧
       e = KeyError (plink_key (plink_fid r) p).
Proof.
  intros H0 (z & Hz & Hrange). unfold fam_add_row, id_map_getitem. rewrite Hz. simpl.
  rewrite bool_decide_eq_true_2 by done. simpl.
  assert (∀ p, id_map !! (if bool_decide (p ≠ "0") then plink_key (plink_fid r) p else p)
               = None →
               p ≠ "0" ∧ id_map !! plink_key (plink_fid r) p = None ∧
               (if bool_decide (p ≠ "0") then plink_key (plink_fid r) p else p)
                 = plink_key (plink_fid r) p) as Hlook.
  { intros p. case_bool_decide as Hp; [done|]. subst p. by rewrite H0. }
  set (pat_id := if bool_decide (pat r ≠ "0") then _ else _) in *.
  set (mat_id := if bool_decide (mat r ≠ "0") then _ else _) in *.
  destruct (id_map !! pat_id) as [p|] eqn:Hp; simpl.
  - destruct (id_map !! mat_id) as [m|] eqn:Hm; simpl; [done|].
    intros [= <-]. exists (mat r). apply Hlook in Hm as (? & ? & Heq).
    fold mat_id in Heq. rewrite Heq. split_and!; [by right|done..].
  - intros [= <-]. exists (pat r). apply Hlook in Hp as (? & ? & Heq).
    fold pat_id in Heq. rewrite Heq. split_and!; [by left|done..].
Qed.

(** C8. [parse_fam] raises on two rows with the same family-id/individual-id
    key, on a row whose sex code is not 0, 1 or 2, and on a parent field other
    than ["0"] whose key no row of the input has; when this last defect is the
    only one, the error is the [KeyError] of such a key.  When all rows are
    accepted, each parent field ["0"] has become [-1] and every other parent
    field has become the position of the row it names. *)
Theorem parse_fam_errors_and_references (individuals : list fam_row) :
  (∀ i j r1 r2, i ≠ j → individuals !! i = Some r1 → individuals !! j = Some r2 →
     row_key r1 = row_key r2 → raises (parse_fam py_int tc_sort individuals)) ∧
  (∀ r, r ∈ individuals → ¬ sex_code_ok py_int r →
     raises (parse_fam py_int tc_sort individuals)) ∧
  (∀ r p, r ∈ individuals → p = pat r ∨ p = mat r →
     unresolved individuals (plink_fid r) p →
     raises (parse_fam py_int tc_sort individuals)) ∧
  (NoDup (row_key <$> individuals) →
   (∀ r, r ∈ individuals → sex_code_ok py_int r) →
   (∃ r p, r ∈ individuals ∧ (p = pat r ∨ p = mat r) ∧
           unresolved individuals (plink_fid r) p) →
   ∃ r p, r ∈ individuals ∧ (p = pat r ∨ p = mat r) ∧
          unresolved individuals (plink_fid r) p ∧
          parse_fam py_int tc_sort individuals
            = Raise (KeyError (plink_key (plink_fid r) p))) ∧
  (∀ tb, fam_rows py_int individuals = Ok tb →
     parse_fam py_int tc_sort individuals = tc_sort tb ∧
     length tb = length individuals ∧
     ∀ i r, individuals !! i = Some r →
       ∃ row p m, tb !! i = Some row ∧ fam_parents row = [p; m] ∧
                  resolved individuals (plink_fid r) (pat r) p ∧
                  resolved individuals (plink_fid r) (mat r) m).
Proof.
  assert (Hunres : ∀ id_map r p,
     build_id_map individuals = Ok id_map →
     unresolved individuals (plink_fid r) p →
     p ≠ "0" ∧ id_map !! plink_key (plink_fid r) p = None).
  { intros id_map r p (_ & _ & _ & Hnone)%build_id_map_Ok [Hp Hfree].
    split; [done|]. apply Hnone; [apply plink_key_not_zero|done]. }
  split_and!.
  - intros i j r1 r2 Hij H1 H2 Hkey. unfold parse_fam, fam_rows.
    do 2 apply raises_bind.
    destruct (build_id_map individuals) as [m|e] eqn:Hm; [|by eexists].
    apply build_id_map_Ok in Hm as (Hnd & _). destruct Hij.
    eapply NoDup_lookup; [exact Hnd| |].
    + by rewrite list_lookup_fmap, H1.
    + by rewrite list_lookup_fmap, H2, Hkey.
  - intros r Hr Hsex. unfold parse_fam, fam_rows. apply raises_bind.
    destruct (build_id_map individuals) as [m|e] eqn:Hm; [|by eexists]. simpl.
    apply build_id_map_Ok in Hm as (_ & H0 & _).
    eapply for_fold_raises; [exact Hr|]. intros tb.
    apply fam_add_row_raises; [done|by left].
  - intros r p Hr Hp Hun. unfold parse_fam, fam_rows. apply raises_bind.
    destruct (build_id_map individuals) as [m|e] eqn:Hm; [|by eexists]. simpl.
    destruct (Hunres m r p eq_refl Hun) as [Hp0 Hnone].
    apply build_id_map_Ok in Hm as (_ & H0 & _).
    eapply for_fold_raises; [exact Hr|]. intros tb.
    apply fam_add_row_raises; [done|]. right. by exists p.
  - intros Hnd Hsex (r & p & Hr & Hp & Hun).
    destruct (build_id_map_complete individuals Hnd) as [m Hm].
    destruct (Hunres m r p Hm Hun) as [Hp0 Hnone].
    pose proof (build_id_map_Ok _ _ Hm) as (_ & H0 & _ & Hfree).
    unfold parse_fam, fam_rows. rewrite Hm. simpl.
    destruct (for_fold individuals [] (fam_add_row py_int m)) as [tb|e] eqn:Hloop.
    { assert (raises (for_fold individuals [] (fam_add_row py_int m))) as [e He].
      { eapply for_fold_raises; [exact Hr|]. intros tb'.
        apply fam_add_row_raises; [done|]. right. by exists p. }
      congruence. }
    apply for_fold_Raise in Hloop as (r' & tb' & Hr' & Hraise).
    apply fam_add_row_KeyError in Hraise as (p' & Hp' & Hp0' & Hnone' & ->);
      [|done|by apply Hsex].
    exists r', p'. split_and!; [done|done| |done].
    split; [done|]. intros r'' Hr'' Hkey.
    apply list_elem_of_lookup_1 in Hr'' as [i Hi].
    pose proof (build_id_map_Ok _ _ Hm) as (_ & _ & Hval & _).
    specialize (Hval i r'' Hi). rewrite Hkey in Hval. congruence.
  - intros tb Htb. unfold parse_fam. rewrite Htb. simpl. split; [done|].
    unfold fam_rows in Htb.
    destruct (build_id_map individuals) as [m|e] eqn:Hm; [|done]. simpl in Htb.
    pose proof (build_id_map_Ok _ _ Hm) as (_ & H0 & Hval & Hfree).
    assert (Hres : ∀ fid p v,
      m !! (if bool_decide (p ≠ "0") then plink_key fid p else p) = Some v →
      resolved individuals fid p v).
    { intros fid p v. unfold resolved. case_bool_decide as Hp.
      - rewrite bool_decide_eq_false_2 by done. intros Hv.
        destruct (decide (Exists (λ r, row_key r = plink_key fid p) individuals))
          as [Hex|Hno].
        + apply Exists_exists in Hex as (r & Hr & Hkey).
          apply list_elem_of_lookup_1 in Hr as [j Hj].
          exists j, r. split_and!; [done..|].
          specialize (Hval j r Hj). rewrite Hkey in Hval. congruence.
        + rewrite Hfree in Hv; [done|apply plink_key_not_zero|].
          intros r Hr Hkey. apply Hno, Exists_exists. eauto.
      - subst p. rewrite bool_decide_eq_true_2 by done. rewrite H0. congruence. }
    apply (for_fold_Ok_invariant
      (λ n tb, length tb = n ∧
         ∀ i r, (i < n)%nat → individuals !! i = Some r →
           ∃ row p mm, tb !! i = Some row ∧ fam_parents row = [p; mm] ∧
                      resolved individuals (plink_fid r) (pat r) p ∧
                      resolved individuals (plink_fid r) (mat r) mm)) in Htb.
    + destruct Htb as [Hlen Hrows]. split; [done|].
      intros i r Hi. apply Hrows; [|done]. by eapply lookup_lt_Some.
    + split; [done|]. intros i r Hi. lia.
    + intros n r tb0 tb1 Hr [Hlen Hrows] Hstep.
      apply fam_add_row_Ok in Hstep as (_ & p & mm & row & Hp & Hmm & Hrow & ->).
      split; [rewrite length_app; simpl; lia|].
      intros i r' Hi Hr'. destruct (decide (i = n)) as [->|Hne].
      * assert (r' = r) as -> by congruence.
        exists row, p, mm. rewrite lookup_app_r by lia.
        rewrite Hlen, Nat.sub_diag. split_and!; [done|done|by apply Hres..].
      * destruct (Hrows i r') as (row' & p' & mm' & Hrow' & Hrest); [lia|done|].
        exists row', p', mm'. split; [|done].
        rewrite lookup_app_l; [done|]. by eapply lookup_lt_Some.
Qed.
End parse_fam_properties.

(** ** Paths in the parent relation *)

Section paths.
Variable parents : ndarray2 Z.
#[local] Abbreviation path := (path parents).
#[local] Abbreviation parent_of := (parent_of parents).

Lemma path_trans u v w n m : path u v n → path v w m → path u w (n + m).
Proof.
  intros Huv Hvw. induction Hvw as [v|v x w m Hvx IH Hxw].
  - by rewrite Nat.add_0_r.
  - rewrite Nat.add_succ_r. eapply path_step; [by apply IH|done].
Qed.

Lemma path_one u v : parent_of u v → path u v 1.
Proof. intros Huv. eapply path_step; [apply path_refl|done]. Qed.

Lemma path_cons u v w n : parent_of u v → path v w n → path u w (S n).
Proof. intros Huv Hvw. apply (path_trans u v w 1 n); [by apply path_one|done]. Qed.

Lemma path_0_inv u v : path u v 0 → u = v.
Proof. by inversion 1. Qed.

Lemma path_S_inv u w n : path u w (S n) → ∃ v, path u v n ∧ parent_of v w.
Proof. inversion 1; subst. eauto. Qed.

Lemma path_head u w n : path u w (S n) → ∃ v, parent_of u v ∧ path v w n.
Proof.
  revert w. induction n as [|n IH]; intros w (v & Huv & Hvw)%path_S_inv.
  - apply path_0_inv in Huv as ->. exists w. split; [done|apply path_refl].
  - apply IH in Huv as (x & Hux & Hxv). exists x. split; [done|].
    by eapply path_step.
Qed.

Lemma path_split u w n m : path u w (n + m) → ∃ v, path u v n ∧ path v w m.
Proof.
  revert w. induction m as [|m IH]; intros w.
  - rewrite Nat.add_0_r. intros Huw. exists w. split; [done|apply path_refl].
  - rewrite Nat.add_succ_r. intros (x & Hux & Hxw)%path_S_inv.
    apply IH in Hux as (v & Huv & Hvx). exists v. split; [done|].
    by eapply path_step.
Qed.

(** A node with a parent indexes a row of the matrix. *)
Lemma parent_of_range v w :
  parent_of v w → 0 ≤ v < Z.of_nat (length (rows parents)) ∧ 0 ≤ w.
Proof.
  intros (Hv & row & Hrow & _ & Hw). apply lookup_lt_Some in Hrow. lia.
Qed.

(** The nodes visited by a path, in order. *)
Lemma path_nodes u v n :
  path u v n →
  ∃ l : list Z,
    length l = S n ∧ l !! 0%nat = Some u ∧ l !! n = Some v ∧
    (∀ i j x y, (i ≤ j)%nat → l !! i = Some x → l !! j = Some y → path x y (j - i)) ∧
    (∀ i x, (i < n)%nat → l !! i = Some x → 0 ≤ x < Z.of_nat (length (rows parents))).
Proof.
  induction 1 as [v|u v w n Huv (l & Hlen & Hfirst & Hlast & Hpaths & Hrange) Hvw].
  - exists [v]. split_and!; [done..| |lia].
    intros [|i] [|j] x y Hij Hx Hy; simplify_eq/=. apply path_refl.
  - exists (l ++ [w]). split_and!.
    + rewrite length_app. simpl. lia.
    + rewrite lookup_app_l by lia. done.
    + rewrite lookup_app_r, Hlen, Nat.sub_diag by lia. done.
    + intros i j x y Hij Hx Hy.
      destruct (decide (j = S n)) as [->|Hj].
      * rewrite lookup_app_r, Hlen, Nat.sub_diag in Hy by lia. simplify_eq/=.
        destruct (decide (i = S n)) as [->|Hi].
        -- rewrite lookup_app_r, Hlen, Nat.sub_diag in Hx by lia. simplify_eq/=.
           rewrite Nat.sub_diag. apply path_refl.
        -- rewrite lookup_app_l in Hx by lia.
           replace (S n - i)%nat with (S (n - i)) by lia.
           eapply path_step; [|done]. by apply (Hpaths i n); [lia|..].
      * assert (j < S n)%nat.
        { apply lookup_lt_Some in Hy. rewrite length_app in Hy. simpl in Hy. lia. }
        rewrite lookup_app_l in Hx, Hy by lia. by apply Hpaths.
    + intros i x Hi Hx. rewrite lookup_app_l in Hx by lia.
      destruct (decide (i = n)) as [->|Hne]; [|apply (Hrange i); [lia|done]].
      assert (x = v) as -> by congruence. by apply parent_of_range in Hvw as [? _].
Qed.
End paths.

Lemma not_NoDup_lookup (l : list Z) :
  ¬ NoDup l → ∃ (i j : nat) x, (i < j)%nat ∧ l !! i = Some x ∧ l !! j = Some x.
Proof.
  induction l as [|a l IH]; intros Hnd.
  - destruct Hnd. constructor.
  - destruct (decide (a ∈ l)) as [Ha|Ha].
    + apply list_elem_of_lookup_1 in Ha as [k Hk].
      exists 0%nat, (S k), a. split_and!; [lia|done..].
    + destruct IH as (i & j & x & Hij & Hi & Hj).
      { intros Hl. apply Hnd. by constructor. }
      exists (S i), (S j), x. split_and!; [lia|done..].
Qed.

(** More nodes than indices: some node occurs twice. *)
Lemma pigeonhole_lookup (l : list Z) (R : nat) :
  (∀ i x, l !! i = Some x → 0 ≤ x < Z.of_nat R) → (R < length l)%nat →
  ∃ (i j : nat) x, (i < j)%nat ∧ l !! i = Some x ∧ l !! j = Some x.
Proof.
  intros Hrange Hlen. apply not_NoDup_lookup. intros Hnd.
  assert (l ⊆+ seqZ 0 (Z.of_nat R)) as Hsub.
  { apply NoDup_submseteq; [done|]. intros x (i & Hi)%list_elem_of_lookup_1.
    apply elem_of_seqZ. specialize (Hrange i x Hi). lia. }
  apply submseteq_length in Hsub. rewrite length_seqZ in Hsub. lia.
Qed.

(** In an acyclic matrix no path is longer than the matrix has rows. *)
Lemma path_length_bound (parents : ndarray2 Z) u v n :
  acyclic parents → path parents u v n → (n ≤ length (rows parents))%nat.
Proof.
  intros Hacyc Hpath. apply path_nodes in Hpath as (l & Hlen & _ & _ & Hpaths & Hrange).
  destruct (decide (n ≤ length (rows parents))%nat) as [|Hlong]; [done|].
  destruct (pigeonhole_lookup (take (S (length (rows parents))) l)
              (length (rows parents))) as (i & j & x & Hij & Hi & Hj).
  - intros i x Hx. apply lookup_take_Some in Hx as [Hx Hi].
    apply (Hrange i); [lia|done].
  - rewrite length_take. lia.
  - apply lookup_take_Some in Hi as [Hi _]. apply lookup_take_Some in Hj as [Hj _].
    pose proof (Hpaths i j x x ltac:(lia) Hi Hj) as Hcycle.
    replace (j - i)%nat with (S (j - i - 1)) in Hcycle by lia.
    by apply Hacyc in Hcycle.
Qed.

(** A path with more steps than the matrix has rows passes twice through some
    node: its start reaches a cycle. *)
Lemma long_path_enters_cycle (parents : ndarray2 Z) u v n :
  path parents u v n → (length (rows parents) < n)%nat →
  ∃ w j k, path parents u w j ∧ path parents w w (S k).
Proof.
  intros Hpath Hlong.
  apply path_nodes in Hpath as (l & Hlen & Hfirst & _ & Hpaths & Hrange).
  destruct (pigeonhole_lookup (take (S (length (rows parents))) l)
              (length (rows parents))) as (i & j & x & Hij & Hi & Hj).
  - intros i x Hx. apply lookup_take_Some in Hx as [Hx Hi].
    apply (Hrange i); [lia|done].
  - rewrite length_take. lia.
  - apply lookup_take_Some in Hi as [Hi _]. apply lookup_take_Some in Hj as [Hj _].
    pose proof (Hpaths i j x x ltac:(lia) Hi Hj) as Hcycle.
    replace (j - i)%nat with (S (j - i - 1)) in Hcycle by lia.
    pose proof (Hpaths 0%nat i u x ltac:(lia) Hfirst Hi) as Hreach.
    eauto.
Qed.

(** Every present parent has a larger index than its child: no cycle. *)
Lemma acyclic_increasing (parents : ndarray2 Z) :
  (∀ v w, parent_of parents v w → v < w) → acyclic parents.
Proof.
  intros Hinc.
  assert (∀ u v n, path parents u v n → u + Z.of_nat n ≤ v) as Hmono.
  { induction 1 as [v|u v w n _ IH Hvw]; [lia|]. apply Hinc in Hvw. lia. }
  intros v n Hcycle%Hmono. lia.
Qed.

Lemma parents_after_children_spec (n : nat) (parents : ndarray2 Z) :
  parents_after_children n parents = true →
  valid_indices n parents ∧ (∀ v w, parent_of parents v w → v < w).
Proof.
  unfold parents_after_children. intros [Hlen Hrows]%andb_prop.
  apply bool_decide_eq_true in Hlen.
  rewrite forallb_forall in Hrows.
  assert (∀ (i : nat) row p, rows parents !! i = Some row → p ∈ row →
            p < 0 ∨ Z.of_nat i < p < Z.of_nat n) as Hentry.
  { intros i row p Hrow Hp.
    assert ((i, row) ∈ enumerate (rows parents)) as Hin by by apply elem_of_enumerate.
    apply list_elem_of_In, Hrows in Hin. simpl in Hin.
    rewrite forallb_forall in Hin. apply list_elem_of_In, Hin in Hp.
    by apply bool_decide_eq_true in Hp. }
  split.
  - split; [done|]. intros row p (i & Hrow)%list_elem_of_lookup_1 Hp.
    destruct (Hentry i row p Hrow Hp); lia.
  - intros v w (Hv & row & Hrow & Hw & Hw0).
    destruct (Hentry _ row w Hrow Hw); lia.
Qed.

(** ** [Pedigree.get_times] *)

Section climb_rounds.
Context {F : Type} `{Float64 F}.
Variable parents : ndarray2 Z.
Implicit Types (time : list F) (C acc next : list Z).

Lemma climb_one_Ok t time acc c time' next :
  0 ≤ c →
  climb_one parents t (time, acc) c = Ok (time', next) →
  ∃ tc row,
    time !! Z.to_nat c = Some tc ∧ rows parents !! Z.to_nat c = Some row ∧
    time' = (if float_lt tc (of_int t) then <[Z.to_nat c:=of_int t]> time else time) ∧
    next = acc ++ filter (λ p, 0 ≤ p) row.
Proof.
  intros Hc. unfold climb_one. simpl. rewrite !getitem_nonneg by done.
  destruct (time !! Z.to_nat c) as [tc|] eqn:Htc; simpl; [|done].
  destruct (rows parents !! Z.to_nat c) as [row|] eqn:Hrow; simpl.
  - destruct (float_lt tc (of_int t)) eqn:Hlt.
    + rewrite setitem_nonneg by done. case_bool_decide; simpl; [|done].
      intros [= <- <-]. exists tc, row. by rewrite Hlt.
    + simpl. intros [= <- <-]. exists tc, row. by rewrite Hlt.
  - destruct (float_lt tc (of_int t)); [|done].
    rewrite setitem_nonneg by done. by case_bool_decide.
Qed.

Lemma climb_one_in_range t time acc c tc row :
  0 ≤ c → time !! Z.to_nat c = Some tc → rows parents !! Z.to_nat c = Some row →
  climb_one parents t (time, acc) c =
    Ok (if float_lt tc (of_int t) then <[Z.to_nat c:=of_int t]> time else time,
        acc ++ filter (λ p, 0 ≤ p) row).
Proof.
  intros Hc Htc Hrow. unfold climb_one. simpl. rewrite !getitem_nonneg by done.
  rewrite Htc, Hrow. simpl. destruct (float_lt tc (of_int t)); [|done].
  rewrite setitem_nonneg by done. apply lookup_lt_Some in Htc.
  rewrite bool_decide_eq_true_2 by lia. done.
Qed.

(** A round that finishes keeps the length of [time] and collects exactly the
    present parents of the climbers. *)
Lemma climb_round_Ok t C time acc time' next :
  (∀ c, c ∈ C → 0 ≤ c) →
  for_fold C (time, acc) (climb_one parents t) = Ok (time', next) →
  length time' = length time ∧
  (∀ w, w ∈ next ↔ w ∈ acc ∨ ∃ c, c ∈ C ∧ parent_of parents c w).
Proof.
  revert time acc. induction C as [|c C IH]; intros time acc Hpos; simpl.
  - intros [= <- <-]. split; [done|]. intros w. split; [by left|].
    intros [?|(c & Hc & _)]; [done|]. by apply elem_of_nil in Hc.
  - destruct (climb_one parents t (time, acc) c) as [[time1 acc1]|e] eqn:Hone; [|done].
    apply climb_one_Ok in Hone as (tc & row & Htc & Hrow & -> & ->);
      [|apply Hpos; by left].
    intros (Hlen & Hnext)%IH; [|intros c' Hc'; apply Hpos; by right].
    split.
    + rewrite Hlen. destruct (float_lt tc (of_int t)); [|done]. by rewrite length_insert.
    + intros w. rewrite Hnext, elem_of_app, list_elem_of_filter. split.
      * intros [[?|[Hw0 Hw]]|(c' & Hc' & Hpar)]; [by left| |].
        -- right. exists c. split; [by left|]. split; [apply Hpos; by left|].
           by exists row.
        -- right. exists c'. split; [by right|done].
      * intros [?|(c' & [->|Hc']%elem_of_cons & Hpar)]; [by left; left| |].
        -- left. right. destruct Hpar as (_ & row' & Hrow' & Hw & Hw0).
           by assert (row' = row) as -> by congruence.
        -- right. by exists c'.
Qed.

(** A round over climbers that index both arrays finishes, and raises the
    time of each climber to the round number. *)
Lemma climb_round_valid t C time acc :
  NoDup C →
  (∀ c, c ∈ C → 0 ≤ c < Z.of_nat (length time) ∧ c < Z.of_nat (length (rows parents))) →
  ∃ time' next,
    for_fold C (time, acc) (climb_one parents t) = Ok (time', next) ∧
    ∀ j : nat, time' !! j = if bool_decide (Z.of_nat j ∈ C)
                            then raise_to t <$> time !! j else time !! j.
Proof.
  revert time acc. induction C as [|c C IH]; intros time acc Hnd Hrange; simpl.
  - by exists time, acc.
  - apply NoDup_cons in Hnd as [Hc Hnd].
    destruct (Hrange c) as [Hc1 Hc2]; [by left|].
    destruct (lookup_lt_is_Some_2 time (Z.to_nat c)) as [tc Htc]; [lia|].
    destruct (lookup_lt_is_Some_2 (rows parents) (Z.to_nat c)) as [row Hrow]; [lia|].
    rewrite (climb_one_in_range t time acc c tc row) by (done || lia).
    set (time1 := if float_lt tc (of_int t) then <[Z.to_nat c:=of_int t]> time else time).
    assert (length time1 = length time) as Hlen1.
    { subst time1. destruct (float_lt tc (of_int t)); [|done]. by rewrite length_insert. }
    destruct (IH time1 (acc ++ filter (λ p, 0 ≤ p) row) Hnd) as (time' & next & Hrun & Hlook).
    { intros c' Hc'. rewrite Hlen1. apply Hrange. by right. }
    exists time', next. split; [done|]. intros j. rewrite Hlook.
    destruct (decide (j = Z.to_nat c)) as [->|Hne].
    + rewrite Z2Nat.id by lia. rewrite bool_decide_eq_false_2 by done.
      rewrite bool_decide_eq_true_2 by (by left). rewrite Htc. simpl.
      subst time1. unfold raise_to. destruct (float_lt tc (of_int t)); [|done].
      rewrite list_lookup_insert_eq; [done|]. by eapply lookup_lt_Some.
    + assert (time1 !! j = time !! j) as ->.
      { subst time1. destruct (float_lt tc (of_int t)); [|done].
        by rewrite list_lookup_insert_ne. }
      case_bool_decide as Hj.
      * rewrite bool_decide_eq_true_2; [done|by right].
      * rewrite bool_decide_eq_false_2; [done|].
        intros [Heq|?]%elem_of_cons; [lia|done].
Qed.
End climb_rounds.

Section levels.
Variable n : nat.
Variable parents : ndarray2 Z.
#[local] Abbreviation level := (level n parents).

Lemma level_0 v : level 0 v ↔ v ∈ proband_indices n parents.
Proof.
  split.
  - intros (p & Hp & Hpath). by apply path_0_inv in Hpath as <-.
  - intros Hv. exists v. split; [done|apply path_refl].
Qed.

Lemma level_S t w : level (S t) w ↔ ∃ v, level t v ∧ parent_of parents v w.
Proof.
  split.
  - intros (p & Hp & (v & Hpv & Hvw)%path_S_inv). exists v. split; [by exists p|done].
  - intros (v & (p & Hp & Hpv) & Hvw). exists p. split; [done|]. by eapply path_step.
Qed.

Lemma level_nonneg t v : level t v → 0 ≤ v.
Proof.
  destruct t as [|t].
  - intros Hv%level_0. by apply elem_of_proband_indices in Hv as [[? _] _].
  - intros (u & _ & Huv)%level_S. by apply parent_of_range in Huv as [_ ?].
Qed.

Lemma level_range t v : valid_indices n parents → level t v → 0 ≤ v < Z.of_nat n.
Proof.
  intros [Hrows Hentries]. destruct t as [|t].
  - intros Hv%level_0. by apply elem_of_proband_indices in Hv as [? _].
  - intros (u & _ & Hu & row & Hrow & Hv & Hv0)%level_S. split; [done|].
    eapply Hentries; [|done]. by eapply list_elem_of_lookup_2.
Qed.

Lemma level_bound t v : acyclic parents → level t v → (t ≤ length (rows parents))%nat.
Proof. intros Hacyc (p & _ & Hpath). by eapply path_length_bound. Qed.

Lemma level_prefix s m v : level (s + m) v → ∃ u, level s u.
Proof.
  intros (p & Hp & (u & Hpu & _)%path_split). exists u. by exists p.
Qed.

(** In a well-formed acyclic matrix every individual is reached from some
    proband: walking down from child to child must end, and it ends at an
    individual that is nobody's parent. *)
Lemma every_individual_in_a_level (i : Z) :
  valid_indices n parents → acyclic parents → 0 ≤ i < Z.of_nat n → ∃ t, level t i.
Proof.
  intros [Hrows Hentries] Hacyc Hi.
  assert (∀ k : nat, (∃ t, level t i) ∨ ∃ c, 0 ≤ c < Z.of_nat n ∧ path parents c i k)
    as Hdescend.
  { induction k as [|k [?|(c & Hc & Hpath)]]; [|by left|].
    - right. exists i. split; [done|apply path_refl].
    - destruct (decide (c ∈ proband_indices n parents)) as [Hp|Hp].
      { left. exists k, c. done. }
      right. rewrite elem_of_proband_indices in Hp.
      assert (c ∈ ravel parents) as Hin.
      { destruct (decide (c ∈ ravel parents)); [done|]. destruct Hp. done. }
      unfold ravel in Hin. apply list_elem_of_join in Hin as (row & Hc' & Hrow).
      apply list_elem_of_lookup_1 in Hrow as [j Hj].
      pose proof (lookup_lt_Some _ _ _ Hj) as Hlt.
      exists (Z.of_nat j). split; [lia|].
      eapply path_cons; [|done]. split; [lia|]. exists row.
      rewrite Nat2Z.id. split_and!; [done|done|lia]. }
  destruct (Hdescend (S (length (rows parents)))) as [?|(c & _ & Hpath)]; [done|].
  apply path_length_bound in Hpath; [lia|assumption].
Qed.
End levels.

(** A well-formed acyclic pedigree with at least one individual has a
    proband, so its sampling pool is never empty. *)
Lemma acyclic_has_proband (n : nat) (parents : ndarray2 Z) :
  valid_indices n parents → acyclic parents → (0 < n)%nat →
  (0 < size (proband_indices n parents))%nat.
Proof.
  intros Hvalid Hacyc Hn.
  destruct (every_individual_in_a_level n parents 0 Hvalid Hacyc) as (t & p & Hp & _);
    [lia|].
  destruct (decide (size (proband_indices n parents) = 0%nat)) as [Hsize|]; [|lia].
  apply size_empty_iff in Hsize. by apply Hsize in Hp.
Qed.

Section climb_properties.
Context {F : Type} `{Float64 F}.
Variable n : nat.
Variable parents : ndarray2 Z.
#[local] Abbreviation level := (level n parents).
Implicit Types (time : list F) (C next : list Z).

(** The climbers of the next round are the next level. *)
Lemma next_climbers_level (t : nat) C time time' next :
  (∀ v, v ∈ C ↔ level t v) →
  for_fold C (time, []) (climb_one parents (Z.of_nat t)) = Ok (time', next) →
  length time' = length time ∧
  NoDup (elements (list_to_set next : gset Z)) ∧
  ∀ v, v ∈ elements (list_to_set next : gset Z) ↔ level (S t) v.
Proof.
  intros HC Hrun. apply climb_round_Ok in Hrun as [Hlen Hnext].
  2:{ intros c Hc%HC. by eapply level_nonneg. }
  split_and!; [done|apply NoDup_elements|].
  intros v. rewrite elem_of_elements, elem_of_list_to_set, Hnext, level_S. split.
  - intros [Hnil|(c & Hc & Hpar)]; [by apply elem_of_nil in Hnil|].
    exists c. by rewrite <- HC.
  - intros (c & Hc & Hpar). right. exists c. by rewrite HC.
Qed.

Lemma climb_nil fuel (t : Z) time : climb fuel parents t [] time = Some (Ok time).
Proof. by destruct fuel. Qed.

Lemma climb_0 (t : Z) c C time : climb 0 parents t (c :: C) time = None.
Proof. done. Qed.

Lemma climb_S fuel (t : Z) c C time :
  climb (S fuel) parents t (c :: C) time =
    match for_fold (c :: C) (time, []) (climb_one parents t) with
    | Raise e => Some (Raise e)
    | Ok (time, next_climbers) =>
        climb fuel parents (t + 1) (elements (list_to_set next_climbers : gset Z)) time
    end.
Proof. done. Qed.

(** Termination: in an acyclic matrix the climb stops, with a result or with
    an error, before it has run more rounds than the matrix has rows. *)
Lemma climb_terminates (fuel t : nat) C time :
  acyclic parents →
  (∀ v, v ∈ C ↔ level t v) →
  (length (rows parents) < t + fuel)%nat →
  is_Some (climb fuel parents (Z.of_nat t) C time).
Proof.
  intros Hacyc. revert t C time.
  induction fuel as [|fuel IH]; intros t C time HC Hfuel; destruct C as [|c C].
  - by rewrite climb_nil.
  - assert (level t c) as Hc by (apply HC; by left).
    apply level_bound in Hc; [lia|assumption].
  - by rewrite climb_nil.
  - rewrite climb_S.
    destruct (for_fold (c :: C) (time, []) (climb_one parents (Z.of_nat t)))
      as [[time' next]|e] eqn:Hrun; [|done].
    apply next_climbers_level in Hrun as (_ & _ & Hnext); [|done].
    replace (Z.of_nat t + 1) with (Z.of_nat (S t)) by lia.
    apply IH; [done|lia].
Qed.

(** The same, from a bound on the height of the levels alone. *)
Lemma climb_terminates_bounded (fuel t : nat) C time :
  (∀ s v, level s v → (s ≤ length (rows parents))%nat) →
  (∀ v, v ∈ C ↔ level t v) →
  (length (rows parents) < t + fuel)%nat →
  is_Some (climb fuel parents (Z.of_nat t) C time).
Proof.
  intros Hbound. revert t C time.
  induction fuel as [|fuel IH]; intros t C time HC Hfuel; destruct C as [|c C].
  - by rewrite climb_nil.
  - assert (level t c) as Hc by (apply HC; by left).
    apply Hbound in Hc. lia.
  - by rewrite climb_nil.
  - rewrite climb_S.
    destruct (for_fold (c :: C) (time, []) (climb_one parents (Z.of_nat t)))
      as [[time' next]|e] eqn:Hrun; [|done].
    apply next_climbers_level in Hrun as (_ & _ & Hnext); [|done].
    replace (Z.of_nat t + 1) with (Z.of_nat (S t)) by lia.
    apply IH; [done|lia].
Qed.

(** Divergence: in a well-formed matrix with non-empty levels at every
    height, no number of rounds is enough. *)
Lemma climb_diverges (fuel t : nat) C time :
  valid_indices n parents → length time = n →
  NoDup C → (∀ v, v ∈ C ↔ level t v) →
  (∀ s, ∃ v, level s v) →
  climb fuel parents (Z.of_nat t) C time = None.
Proof.
  intros Hvalid. revert t C time.
  induction fuel as [|fuel IH]; intros t C time Hlen Hnd HC Hall;
    (destruct C as [|c C];
     [destruct (Hall t) as [v Hv%HC]; by apply elem_of_nil in Hv|]); [done|].
  rewrite climb_S.
  destruct (climb_round_valid parents (Z.of_nat t) (c :: C) time [] Hnd)
    as (time' & next & Hrun & _).
  { intros c' Hc'%HC. pose proof (level_range _ _ _ _ Hvalid Hc') as Hr.
    destruct Hvalid as [Hrows _]. lia. }
  rewrite Hrun.
  apply next_climbers_level in Hrun as (Hlen' & Hnd' & Hnext); [|done].
  replace (Z.of_nat t + 1) with (Z.of_nat (S t)) by lia.
  apply IH; [lia|done..].
Qed.
End climb_properties.

#[global] Instance Z_float64_exact : Float64Exact Z.
Proof.
  split. intros a b _ _. simpl. unfold id.
  destruct (Z.ltb_spec a b); symmetry.
  - by apply bool_decide_eq_true.
  - apply bool_decide_eq_false. lia.
Qed.

Section climb_longest.
Context {F : Type} `{Float64Exact F}.
Variable n : nat.
Variable parents : ndarray2 Z.
Hypothesis Hvalid : valid_indices n parents.
Hypothesis Hacyc : acyclic parents.
Hypothesis Hsize : Z.of_nat n ≤ 2 ^ 53.
#[local] Abbreviation level := (level n parents).
Implicit Types (time : list F) (C next : list Z).

(** One round re-establishes the description of [time]. *)
Lemma times_before_S (t : nat) C time time' :
  (∀ v, v ∈ C ↔ level t v) →
  times_before n parents t time →
  (∀ j : nat, time' !! j = if bool_decide (Z.of_nat j ∈ C)
                          then raise_to (Z.of_nat t) <$> time !! j else time !! j) →
  times_before n parents (S t) time'.
Proof.
  intros HC Hinv Hlook i Hi. destruct (Hinv i Hi) as (k & Hk & Hlast & Hmax).
  rewrite Hlook, Hk. case_bool_decide as Hin.
  - apply HC in Hin. exists t. split_and!.
    + simpl. f_equal. unfold raise_to.
      pose proof (level_bound _ _ _ _ Hacyc Hin) as Ht.
      destruct Hvalid as [Hrows _].
      rewrite float_lt_of_int by lia.
      case_bool_decide as Hlt; [done|]. f_equal. lia.
    + right. split; [lia|done].
    + intros s Hs _. lia.
  - exists k. split_and!; [done| |].
    + destruct Hlast as [->|[? ?]]; [by left|right]. split; [lia|done].
    + intros s Hs Hlev. destruct (decide (s = t)) as [->|Hne].
      * destruct Hin. by apply HC.
      * apply Hmax; [lia|done].
Qed.

(** When the climb runs out of climbers, [time] holds the longest paths. *)
Lemma times_before_final (t : nat) time :
  (∀ v, ¬ level t v) →
  times_before n parents t time →
  ∀ i : nat, (i < n)%nat →
    ∃ k : nat, time !! i = Some (of_int (Z.of_nat k)) ∧
               longest_path n parents (Z.of_nat i) k.
Proof.
  intros Hempty Hinv i Hi. destruct (Hinv i Hi) as (k & Hk & Hlast & Hmax).
  assert (∀ s v, level s v → (s < t)%nat) as Hbelow.
  { intros s v Hlev. destruct (decide (s < t)%nat) as [|Hge]; [done|].
    replace s with (t + (s - t))%nat in Hlev by lia.
    apply level_prefix in Hlev as [u Hu]. by apply Hempty in Hu. }
  exists k. split; [done|]. split.
  - destruct Hlast as [->|[_ ?]]; [|done].
    destruct (every_individual_in_a_level n parents (Z.of_nat i)) as [s Hs];
      [done|assumption|lia|].
    pose proof (Hmax s (Hbelow _ _ Hs) Hs) as Hs0.
    by replace s with 0%nat in Hs by lia.
  - intros s Hs. apply Hmax; [|done]. by eapply Hbelow.
Qed.

Lemma climb_longest (fuel t : nat) C time :
  NoDup C → (∀ v, v ∈ C ↔ level t v) →
  length time = n → times_before n parents t time →
  (length (rows parents) < t + fuel)%nat →
  ∃ time',
    climb fuel parents (Z.of_nat t) C time = Some (Ok time') ∧ length time' = n ∧
    ∀ i : nat, (i < n)%nat →
      ∃ k : nat, time' !! i = Some (of_int (Z.of_nat k)) ∧
                 longest_path n parents (Z.of_nat i) k.
Proof.
  revert t C time.
  induction fuel as [|fuel IH]; intros t C time Hnd HC Hlen Hinv Hfuel;
    destruct C as [|c C].
  1,3: rewrite climb_nil; exists time; split_and!; [done..|];
       apply (times_before_final t); [|done];
       intros v Hv%HC; by apply elem_of_nil in Hv.
  - assert (level t c) as Hc by (apply HC; by left).
    apply level_bound in Hc; [lia|assumption].
  - rewrite climb_S.
    destruct (climb_round_valid parents (Z.of_nat t) (c :: C) time [] Hnd)
      as (time' & next & Hrun & Hlook).
    { intros c' Hc'%HC. pose proof (level_range _ _ _ _ Hvalid Hc') as Hr.
      destruct Hvalid as [Hrows _]. lia. }
    rewrite Hrun.
    apply (next_climbers_level n) in Hrun as (Hlen' & Hnd' & Hnext); [|done].
    replace (Z.of_nat t + 1) with (Z.of_nat (S t)) by lia.
    apply IH; [done|done|lia| |lia].
    by eapply times_before_S.
Qed.
End climb_longest.

Section get_times_properties.
Context {F : Type} `{Float64 F}.
Implicit Types (individual : list Z) (parents : ndarray2 Z) (time : list F).

(** More fuel does not change a result. *)
Lemma climb_fuel_mono parents (fuel fuel' : nat) (t : Z) C time r :
  climb fuel parents t C time = Some r → (fuel ≤ fuel')%nat →
  climb fuel' parents t C time = Some r.
Proof.
  revert fuel' t C time. induction fuel as [|fuel IH]; intros fuel' t C time Hrun Hle;
    destruct C as [|c C].
  - by rewrite climb_nil in *.
  - by rewrite climb_0 in Hrun.
  - by rewrite climb_nil in *.
  - destruct fuel' as [|fuel']; [lia|]. rewrite climb_S in *.
    destruct (for_fold _ _ _) as [[time' next]|e]; [|done].
    apply IH; [done|lia].
Qed.

(** With the parent indices given, [get_times] is the climb from the
    probands over a vector of zeros, followed by the optional check. *)
Lemma get_times_climb fuel individual parent_IDs parents check :
  get_times fuel individual parent_IDs (Some parents) check =
    match climb fuel parents 0
            (elements (proband_indices (length individual) parents))
            (replicate (length individual) (of_int 0)) with
    | None => None
    | Some (Raise e) => Some (Raise e)
    | Some (Ok time) =>
        if check then
          Some (match check_times individual parents time with
                | Ok _ => Ok time
                | Raise e => Raise e
                end)
        else Some (Ok time)
    end.
Proof. by destruct parent_IDs. Qed.

Lemma probands_level_0 (n : nat) parents v :
  v ∈ elements (proband_indices n parents) ↔ level n parents 0 v.
Proof. by rewrite elem_of_elements, level_0. Qed.

(** A cycle that a proband reaches keeps every level inhabited. *)
Lemma reachable_cycle_levels (n : nat) parents p v t k :
  p ∈ proband_indices n parents → path parents p v t → path parents v v (S k) →
  ∀ s, ∃ w, level n parents s w.
Proof.
  intros Hp Hpv Hcycle s.
  assert (∃ w j, level n parents s w ∧ path parents w v j) as (w & _ & Hw & _);
    [|by exists w].
  induction s as [|s (w & j & Hw & Hwv)].
  - exists p, t. split; [by apply level_0|done].
  - destruct j as [|j].
    + apply path_0_inv in Hwv as ->.
      apply path_head in Hcycle as (x & Hvx & Hxv).
      exists x, k. split; [|done]. apply level_S. by exists v.
    + apply path_head in Hwv as (x & Hwx & Hxv).
      exists x, j. split; [|done]. apply level_S. by exists w.
Qed.

(** Without a cycle that a proband reaches, no level lies higher than the
    matrix has rows. *)
Lemma unreachable_cycle_level_bound (n : nat) parents :
  ¬ reachable_cycle n parents →
  ∀ s v, level n parents s v → (s ≤ length (rows parents))%nat.
Proof.
  intros Hno s v (p & Hp & Hpath).
  destruct (decide (s ≤ length (rows parents))%nat) as [|Hlong]; [done|].
  destruct (long_path_enters_cycle parents p v s Hpath) as (w & j & k & Hpw & Hcyc);
    [lia|].
  destruct Hno. by exists p, w, j, k.
Qed.

(** C9.  On an acyclic matrix the climb of [get_times] terminates: a number
    of rounds above the number of rows always suffices.  What prevents
    termination is a cycle that the climb enters, that is, one that some
    proband reaches: on a matrix whose entries are within range the climb
    terminates exactly when there is no such cycle, and with one no number of
    rounds suffices.  A cycle that no proband reaches is never entered and
    leaves the climb as it is without it. *)
Theorem get_times_terminates individual parents parent_IDs check :
  (acyclic parents →
   ∀ fuel, (length (rows parents) < fuel)%nat →
     is_Some (get_times fuel individual parent_IDs (Some parents) check)) ∧
  (¬ reachable_cycle (length individual) parents →
   ∀ fuel, (length (rows parents) < fuel)%nat →
     is_Some (get_times fuel individual parent_IDs (Some parents) check)) ∧
  (valid_indices (length individual) parents →
   reachable_cycle (length individual) parents →
   ∀ fuel, get_times fuel individual parent_IDs (Some parents) check = None) ∧
  (valid_indices (length individual) parents →
   (∃ fuel, is_Some (get_times fuel individual parent_IDs (Some parents) check)) ↔
   ¬ reachable_cycle (length individual) parents).
Proof.
  assert (Hstop : ¬ reachable_cycle (length individual) parents →
    ∀ fuel, (length (rows parents) < fuel)%nat →
      is_Some (get_times fuel individual parent_IDs (Some parents) check)).
  { intros Hno fuel Hfuel. rewrite get_times_climb.
    destruct (climb_terminates_bounded (length individual) parents fuel 0
                (elements (proband_indices (length individual) parents))
                (replicate (length individual) (of_int 0))) as [r Hr].
    - by apply unreachable_cycle_level_bound.
    - apply probands_level_0.
    - lia.
    - change (Z.of_nat 0) with 0 in Hr. rewrite Hr.
      destruct r; [by destruct check|done]. }
  assert (Hloop : valid_indices (length individual) parents →
    reachable_cycle (length individual) parents →
    ∀ fuel, get_times fuel individual parent_IDs (Some parents) check = None).
  { intros Hvalid (p & v & t & k & Hp & Hpv & Hcycle) fuel. rewrite get_times_climb.
    pose proof (climb_diverges (length individual) parents fuel 0
                  (elements (proband_indices (length individual) parents))
                  (replicate (length individual) (of_int 0))) as Hdiv.
    change (Z.of_nat 0) with 0 in Hdiv. rewrite Hdiv; [done|done| | | |].
    - by rewrite length_replicate.
    - apply NoDup_elements.
    - apply probands_level_0.
    - by eapply reachable_cycle_levels. }
  split_and!; [|done|done|].
  - intros Hacyc. apply Hstop.
    intros (p & v & t & k & _ & _ & Hcycle). by apply Hacyc in Hcycle.
  - intros Hvalid. split.
    + intros [fuel Hsome] Hcyc. rewrite (Hloop Hvalid Hcyc fuel) in Hsome.
      by destruct Hsome.
    + intros Hno. exists (S (length (rows parents))). apply Hstop; [done|lia].
Qed.
End get_times_properties.

(** ** The unbranched lineage *)

Lemma lineage_rows (k i : nat) row :
  rows (lineage k) !! i = Some row ↔
    ((i < k)%nat ∧ row = [Z.of_nat i + 1; -1]) ∨ (i = k ∧ row = [-1; -1]).
Proof.
  unfold lineage. simpl. rewrite lookup_app_Some, list_lookup_fmap.
  rewrite length_fmap, length_seqZ, Nat2Z.id. split.
  - intros [Hi|[Hge Hi]].
    + left. destruct (seqZ 0 (Z.of_nat k) !! i) as [x|] eqn:Hx; [|done].
      apply lookup_seqZ in Hx as [-> Hlt]. simpl in Hi. split; [lia|]. by simplify_eq.
    + right. apply list_lookup_singleton_Some in Hi as [Hi <-]. split; [lia|done].
  - intros [[Hi ->]|[-> ->]].
    + left. rewrite lookup_seqZ_lt by lia. done.
    + right. split; [done|]. by rewrite Nat.sub_diag.
Qed.

Lemma lineage_parent_of (k : nat) v w :
  parent_of (lineage k) v w ↔ 0 ≤ v < Z.of_nat k ∧ w = v + 1.
Proof.
  unfold parent_of. split.
  - intros (Hv & row & Hrow & Hw & Hw0).
    apply lineage_rows in Hrow as [[Hi ->]|[_ ->]].
    + apply elem_of_cons in Hw as [->|Hw]; [lia|].
      apply list_elem_of_singleton in Hw. lia.
    + apply elem_of_cons in Hw as [->|Hw]; [lia|].
      apply list_elem_of_singleton in Hw. lia.
  - intros [Hv ->]. split; [lia|]. exists [v + 1; -1]. split_and!; [|by left|lia].
    apply lineage_rows. left. split; [lia|]. by rewrite Z2Nat.id by lia.
Qed.

Lemma lineage_path (k : nat) u v m :
  path (lineage k) u v m → v = u + Z.of_nat m.
Proof.
  induction 1 as [v|u v w m _ IH Hvw]; [lia|].
  apply lineage_parent_of in Hvw. lia.
Qed.

Lemma lineage_probands (k : nat) p :
  p ∈ proband_indices (S k) (lineage k) → p = 0.
Proof.
  intros [Hp Hnot]%elem_of_proband_indices.
  destruct (decide (p = 0)) as [|Hne]; [done|]. destruct Hnot.
  unfold ravel. apply list_elem_of_join. exists [p; -1]. split; [by left|].
  apply (list_elem_of_lookup_2 _ (Z.to_nat (p - 1))). apply lineage_rows.
  left. split; [lia|]. f_equal. lia.
Qed.

Lemma lineage_longest_path (k : nat) (i : Z) (m : nat) :
  longest_path (S k) (lineage k) i m → i = Z.of_nat m.
Proof.
  intros [(p & Hp & Hpath) _]. apply lineage_probands in Hp as ->.
  apply lineage_path in Hpath. lia.
Qed.

Section get_times_longest.
Context {F : Type} `{Float64Exact F}.

(** C3. On a well-formed acyclic parent-index matrix, [get_times] returns,
    for each individual, the length of the longest path from any proband to
    it.  In particular an individual that probands reach by paths of two
    lengths only gets the larger of the two (5 for lengths 2 and 5), and on a
    single unbranched lineage of depth [k] the times are [0, 1, ..., k]. *)
Theorem get_times_longest_path (individual : list Z) (parents : ndarray2 Z) :
  valid_indices (length individual) parents →
  acyclic parents →
  Z.of_nat (length individual) ≤ 2 ^ 53 →
  ∃ time : list F,
    (∀ fuel, (length individual < fuel)%nat →
       get_times fuel individual None (Some parents) false = Some (Ok time)) ∧
    length time = length individual ∧
    (∀ i : nat, (i < length individual)%nat →
       ∃ k : nat, time !! i = Some (of_int (Z.of_nat k)) ∧
                  longest_path (length individual) parents (Z.of_nat i) k) ∧
    (∀ (i a b : nat), (i < length individual)%nat →
       level (length individual) parents a (Z.of_nat i) →
       level (length individual) parents b (Z.of_nat i) →
       (∀ t, level (length individual) parents t (Z.of_nat i) → t = a ∨ t = b) →
       time !! i = Some (of_int (Z.of_nat (a `max` b)))) ∧
    (∀ k : nat, parents = lineage k →
       time = of_int <$> seqZ 0 (Z.of_nat (S k))).
Proof.
  intros Hvalid Hacyc Hsize.
  destruct (climb_longest (length individual) parents Hvalid Hacyc Hsize
              (S (length individual)) 0
              (elements (proband_indices (length individual) parents))
              (replicate (length individual) (of_int 0)))
    as (time & Hrun & Hlen & Hlongest).
  { apply NoDup_elements. }
  { apply probands_level_0. }
  { by rewrite length_replicate. }
  { intros i Hi. exists 0%nat. split_and!; [|by left|lia].
    by rewrite lookup_replicate_2. }
  { destruct Hvalid as [-> _]. lia. }
  change (Z.of_nat 0) with 0 in Hrun.
  exists time. split_and!; [|done|done| |].
  - intros fuel Hfuel. rewrite get_times_climb.
    by rewrite (climb_fuel_mono _ _ fuel _ _ _ _ Hrun) by lia.
  - intros i a b Hi Ha Hb Honly. destruct (Hlongest i Hi) as (k & -> & Hk & Hmax).
    do 3 f_equal. pose proof (Hmax a Ha). pose proof (Hmax b Hb).
    destruct (Honly k Hk); lia.
  - intros k ->. destruct Hvalid as [Hrows _].
    assert (length individual = S k) as HN.
    { rewrite <- Hrows. unfold lineage. simpl.
      rewrite length_app, length_fmap, length_seqZ. simpl. lia. }
    apply list_eq. intros i. rewrite list_lookup_fmap.
    destruct (decide (i < S k)%nat) as [Hi|Hi].
    + rewrite lookup_seqZ_lt by lia. simpl.
      destruct (Hlongest i) as (m & -> & Hm); [lia|].
      rewrite HN in Hm. apply lineage_longest_path in Hm. do 2 f_equal. lia.
    + rewrite lookup_seqZ_ge by lia. simpl. apply lookup_ge_None. lia.
Qed.
End get_times_longest.

(** ** [Pedigree.save_txt] *)

Lemma mapM_result_length {A B} (f : A → result B) (l : list A) l' :
  mapM_result f l = Ok l' → length l' = length l.
Proof.
  revert l'. induction l as [|x l IH]; intros l'; simpl.
  - by intros [= <-].
  - destruct (f x) as [y|e]; simpl; [|done].
    destruct (mapM_result f l) as [ys|e]; simpl; [|done].
    intros [= <-]. simpl. by rewrite (IH ys).
Qed.

Lemma broadcast_Ok {A} (n : nat) (v v' : list A) :
  broadcast n v = Ok v' → length v' = n ∧ (length v = n ∨ length v = 1%nat).
Proof.
  unfold broadcast. case_bool_decide as Hn.
  - intros [= <-]. auto.
  - destruct v as [|x [|y v]]; [done| |done].
    intros [= <-]. rewrite length_replicate. auto.
Qed.

Lemma assign_columns_Ok {A} (a : ndarray2 A) (js : list Z) (v a' : ndarray2 A) :
  assign_columns a js v = Ok a' →
  length (rows a') = length (rows a) ∧
  (length (rows v) = length (rows a) ∨ length (rows v) = 1%nat).
Proof.
  unfold assign_columns.
  destruct (broadcast (length (rows a)) (rows v)) as [vrows|e] eqn:Hb; simpl; [|done].
  apply broadcast_Ok in Hb as [Hlen Hv].
  destruct (mapM_result (broadcast (length js)) vrows) as [vrows'|e] eqn:Hm; simpl; [|done].
  apply mapM_result_length in Hm.
  destruct (mapM_result _ (zip (rows a) vrows')) as [new_rows|e] eqn:Hn; simpl; [|done].
  apply mapM_result_length in Hn. intros [= <-]. simpl.
  split; [|done]. rewrite Hn, length_zip_with. lia.
Qed.

Section save_txt_properties.
Context {F : Type} `{Float64 F}.
Implicit Types (self : Pedigree F).

Lemma build_array_rows self a :
  build_array self = Ok a → length (rows a) = num_individuals self.
Proof.
  unfold build_array. simpl. unfold assign_column.
  destruct (assign_columns _ [0] _) as [a1|e] eqn:H1; simpl; [|done].
  destruct (assign_columns a1 [1; 2] _) as [a2|e] eqn:H2; simpl; [|done].
  intros [Hlen _]%assign_columns_Ok.
  apply assign_columns_Ok in H1 as [H1 _]. apply assign_columns_Ok in H2 as [H2 _].
  simpl in H1. rewrite length_replicate in H1. congruence.
Qed.

Lemma take_four_rows {A} (a a' : ndarray2 A) :
  take_rows a [0; 1; 2; 3] = Ok a' →
  (4 ≤ length (rows a))%nat ∧ length (rows a') = 4%nat.
Proof.
  unfold take_rows.
  destruct (mapM_result (getitem (rows a)) [0; 1; 2; 3]) as [sel|e] eqn:Hsel; simpl; [|done].
  intros [= <-]. split; [|by apply mapM_result_length in Hsel].
  simpl in Hsel. rewrite !getitem_nonneg in Hsel by lia.
  destruct (rows a !! Z.to_nat 3) as [r3|] eqn:H3.
  - apply lookup_lt_Some in H3. lia.
  - by repeat (destruct (rows a !! _); simpl in Hsel).
Qed.

Lemma parent_index_to_ID_rows individual parents parent_IDs :
  parent_index_to_ID individual parents = Ok parent_IDs →
  length (rows parent_IDs) = length (rows parents).
Proof.
  unfold parent_index_to_ID.
  destruct (mapM_result _ (rows parents)) as [ids|e] eqn:Hm; simpl; [|done].
  intros [= <-]. by apply mapM_result_length in Hm.
Qed.

(** C1, text format.  [save_txt] selects rows 0 to 3 of the array where it
    means to select the four columns.  On a pedigree whose parent matrix has a
    row per individual it therefore raises unless there are exactly four
    individuals, so the text round trip does not exist for any other size. *)
Theorem save_txt_raises_unless_four self :
  length (rows (parents self)) = num_individuals self →
  num_individuals self ≠ 4%nat →
  raises (save_txt self).
Proof.
  intros Hrows Hsize. unfold save_txt.
  destruct (build_array self) as [pedarray|e] eqn:Hbuild; simpl; [|by eexists].
  apply build_array_rows in Hbuild.
  destruct (take_rows pedarray [0; 1; 2; 3]) as [selected|e] eqn:Htake; simpl;
    [|by eexists].
  apply take_four_rows in Htake as [Hfour Hsel].
  destruct (parent_index_to_ID (individual self) (parents self)) as [parent_IDs|e]
    eqn:Hids; simpl; [|by eexists].
  apply parent_index_to_ID_rows in Hids.
  destruct (assign_columns selected [1; 2] _) as [a|e] eqn:Hassign; simpl; [|by eexists].
  apply assign_columns_Ok in Hassign as [_ Hshape]. simpl in Hshape.
  rewrite length_fmap in Hshape. lia.
Qed.
End save_txt_properties.

(** * Worked examples

    Each theorem above that has hypotheses is applied here to a concrete
    input on which the hypotheses hold. *)

(** [check_times] on the example pedigree. *)
Lemma check_times_example :
  valid_indices (length (individual example_pedigree)) (parents example_pedigree) ∧
  length (time example_pedigree) = length (individual example_pedigree) ∧
  ((raises (check_times (individual example_pedigree) (parents example_pedigree)
              (time example_pedigree)) ↔
      ∃ i p, time_violation (parents example_pedigree) (time example_pedigree) i p) ∧
   (∀ e, check_times (individual example_pedigree) (parents example_pedigree)
           (time example_pedigree) = Raise e →
      ∃ i p ind pid,
        time_violation (parents example_pedigree) (time example_pedigree) i p ∧
        individual example_pedigree !! i = Some ind ∧
        individual example_pedigree !! Z.to_nat p = Some pid ∧
        e = ValueError (TimeOrder ind pid)) ∧
   ((¬ ∃ i p, time_violation (parents example_pedigree) (time example_pedigree) i p) →
      check_times (individual example_pedigree) (parents example_pedigree)
        (time example_pedigree) = Ok ())).
Proof.
  pose proof (parents_after_children_spec 4 (parents example_pedigree) eq_refl)
    as [Hvalid _].
  split; [exact Hvalid|]. split; [reflexivity|].
  apply (check_times_raises_iff_violation (individual example_pedigree)
           (parents example_pedigree) (time example_pedigree)).
  - exact Hvalid.
  - reflexivity.
Defined.


(** A failed [set_samples] on the example pedigree. *)
Lemma set_samples_failure_example :
  raises (set_samples example_rng example_pedigree (Some 3) None true).2 ∧
  (set_samples example_rng example_pedigree (Some 3) None true).1
    = with_num_samples (with_is_sample example_pedigree [0; 0; 0; 0]) 3.
Proof.
  assert (raises (set_samples example_rng example_pedigree (Some 3) None true).2) as Hr.
  { exists (ValueError (TooManySamples 3 2)). reflexivity. }
  split; [exact Hr|].
  apply (set_samples_state_after_failure example_rng example_pedigree
           (Some 3) None true Hr); [reflexivity|]. left. split; reflexivity.
Defined.

(** The simulator with four individuals per generation and end time 2. *)
Lemma sim_pedigree_rows_example :
  1 ≤ 4 ∧ 0 ≤ 2 ∧ (2 + 1) * 4 < 2 ^ 31 ∧
  ∃ tables,
    sim_pedigree (F:=Z) 4 None example_rng 2 = Ok tables ∧
    Z.of_nat (length (individuals tables)) = (2 + 1) * 4 ∧
    Z.of_nat (length (nodes tables)) = 2 * (2 + 1) * 4 ∧
    (∀ (j : nat) row, nodes tables !! j = Some row →
       ∃ t, 0 ≤ t ≤ 2 ∧ t = 2 - Z.of_nat j `div` (2 * 4) ∧
            t = 2 - node_individual row `div` 4 ∧
            node_individual row = Z.of_nat j `div` 2 ∧
            node_time row = of_int t ∧
            node_flags row = (if bool_decide (t = 0) then NODE_IS_SAMPLE else 0)) ∧
    (∀ (j : nat) row, individuals tables !! j = Some row →
       2 - Z.of_nat j `div` 4 = 2 → ind_parents row = [NULL; NULL]).
Proof.
  split; [lia|]. split; [lia|]. split; [lia|].
  apply (sim_pedigree_rows (F:=Z) 4 2 None example_rng); lia.
Defined.

Lemma sim_pedigree_parents_example :
  1 ≤ 4 ∧ 0 ≤ 2 ∧ (2 + 1) * 4 < 2 ^ 31 ∧
  ∃ tables,
    sim_pedigree (F:=Z) 4 None example_rng 2 = Ok tables ∧
    ∀ (j : nat) row p,
      individuals tables !! j = Some row → p ∈ ind_parents row →
      (Z.of_nat j `div` 4 = 0 → p = NULL) ∧
      (p = NULL ∨ (0 ≤ p ∧ p `div` 4 = Z.of_nat j `div` 4 - 1)) ∧
      (p ≠ NULL → 0 ≤ p < Z.of_nat j).
Proof.
  split; [lia|]. split; [lia|]. split; [lia|].
  apply (sim_pedigree_parents_precede (F:=Z) 4 2 None example_rng); lia.
Defined.

(** The climb on [two_paths], computed: individual 7 gets time 5. *)
Example get_times_two_paths :
  get_times (F:=Z) 9 [1; 2; 3; 4; 5; 6; 7; 8] None (Some two_paths) false
    = Some (Ok [0; 0; 1; 1; 2; 3; 4; 5]).
Proof. reflexivity. Qed.

(** The climb on a lineage of depth 3, computed. *)
Example get_times_lineage_3 :
  get_times (F:=Z) 5 [1; 2; 3; 4] None (Some (lineage 3)) true
    = Some (Ok [0; 1; 2; 3]).
Proof. reflexivity. Qed.

(** [get_times] on [two_paths]. *)
Lemma get_times_longest_path_example :
  valid_indices (length [1; 2; 3; 4; 5; 6; 7; 8]) two_paths ∧
  acyclic two_paths ∧
  Z.of_nat (length [1; 2; 3; 4; 5; 6; 7; 8]) ≤ 2 ^ 53 ∧
  ∃ time : list Z,
    (∀ fuel, (length [1; 2; 3; 4; 5; 6; 7; 8] < fuel)%nat →
       get_times fuel [1; 2; 3; 4; 5; 6; 7; 8] None (Some two_paths) false
         = Some (Ok time)) ∧
    length time = length [1; 2; 3; 4; 5; 6; 7; 8] ∧
    (∀ i : nat, (i < length [1; 2; 3; 4; 5; 6; 7; 8])%nat →
       ∃ k : nat, time !! i = Some (of_int (Z.of_nat k)) ∧
                  longest_path (length [1; 2; 3; 4; 5; 6; 7; 8]) two_paths (Z.of_nat i) k) ∧
    (∀ (i a b : nat), (i < length [1; 2; 3; 4; 5; 6; 7; 8])%nat →
       level (length [1; 2; 3; 4; 5; 6; 7; 8]) two_paths a (Z.of_nat i) →
       level (length [1; 2; 3; 4; 5; 6; 7; 8]) two_paths b (Z.of_nat i) →
       (∀ t, level (length [1; 2; 3; 4; 5; 6; 7; 8]) two_paths t (Z.of_nat i) →
          t = a ∨ t = b) →
       time !! i = Some (of_int (Z.of_nat (a `max` b)))) ∧
    (∀ k : nat, two_paths = lineage k →
       time = of_int <$> seqZ 0 (Z.of_nat (S k))).
Proof.
  pose proof (parents_after_children_spec 8 two_paths eq_refl) as [Hvalid Hinc].
  assert (acyclic two_paths) as Hacyc by (by apply acyclic_increasing).
  assert (Z.of_nat (length [1; 2; 3; 4; 5; 6; 7; 8]) ≤ 2 ^ 53) as Hsize by (by vm_compute).
  split; [exact Hvalid|]. split; [exact Hacyc|]. split; [exact Hsize|].
  exact (get_times_longest_path (F:=Z) [1; 2; 3; 4; 5; 6; 7; 8] two_paths
           Hvalid Hacyc Hsize).
Defined.

(** A lone individual that is its own parent is a cycle that the climb never
    enters: it leaves no proband to start from, and the climb stops at
    once. *)
Lemma self_parent_climb_terminates :
  path self_parent 0 0 1 ∧
  ∀ fuel, get_times (F:=Z) fuel [1] None (Some self_parent) false = Some (Ok [0]).
Proof.
  split.
  - apply path_one. split; [done|]. exists [0; -1]. split_and!; [done|by left|done].
  - intros fuel. rewrite get_times_climb.
    replace (elements (proband_indices (length [1]) self_parent)) with (@nil Z)
      by (by vm_compute).
    by rewrite climb_nil.
Qed.

(** [get_times] on [two_paths], which is acyclic; on [unreachable_loop],
    whose cycle no proband reaches; and on [reachable_loop], where proband 0
    reaches the cycle of individual 1. *)
Lemma get_times_terminates_example :
  (∀ fuel, (8 < fuel)%nat →
     is_Some (get_times (F:=Z) fuel [1; 2; 3; 4; 5; 6; 7; 8] None (Some two_paths) false)) ∧
  (path unreachable_loop 1 1 2 ∧
   ∀ fuel, (3 < fuel)%nat →
     is_Some (get_times (F:=Z) fuel [1; 2; 3] None (Some unreachable_loop) false)) ∧
  (∀ fuel, get_times (F:=Z) fuel [1; 2] None (Some reachable_loop) false = None).
Proof.
  split_and!.
  - apply (proj1 (get_times_terminates (F:=Z) [1; 2; 3; 4; 5; 6; 7; 8] two_paths None false)).
    apply acyclic_increasing, (parents_after_children_spec 8 two_paths eq_refl).
  - apply (path_cons unreachable_loop 1 2 1 1).
    + split; [done|]. exists [2; -1]. split_and!; [done|by left|done].
    + apply path_one. split; [done|]. exists [1; -1]. split_and!; [done|by left|done].
  - apply (proj1 (proj2 (get_times_terminates (F:=Z) [1; 2; 3] unreachable_loop None false))).
    intros (p & v & t & k & Hp & Hpv & Hcycle).
    assert (p = 0) as ->.
    { apply elem_of_proband_indices in Hp as [Hp Hnot].
      destruct (decide (p = 0)) as [|Hp0]; [done|]. destruct Hnot.
      assert (p = 1 ∨ p = 2) as [-> | ->] by (simpl in Hp; lia);
        apply (bool_decide_unpack _); reflexivity. }
    assert (∀ w, ¬ parent_of unreachable_loop 0 w) as Hnone.
    { intros w (_ & row & Hrow & Hw & Hw0). simpl in Hrow. injection Hrow as <-.
      repeat (apply elem_of_cons in Hw as [->|Hw]); try lia.
      by apply elem_of_nil in Hw. }
    destruct t as [|t].
    + apply path_0_inv in Hpv as <-.
      apply path_head in Hcycle as (w & Hw & _). by apply Hnone in Hw.
    + apply path_head in Hpv as (w & Hw & _). by apply Hnone in Hw.
  - apply (proj1 (proj2 (proj2
             (get_times_terminates (F:=Z) [1; 2] reachable_loop None false)))).
    + split; [done|]. intros row p Hrow Hp.
      repeat (apply elem_of_cons in Hrow as [->|Hrow]);
        [| |by apply elem_of_nil in Hrow];
        repeat (apply elem_of_cons in Hp as [->|Hp]); try done;
        by apply elem_of_nil in Hp.
    + exists 0, 1, 1%nat, 0%nat. split_and!.
      * by vm_compute.
      * apply path_one. split; [done|]. exists [1; -1]. split_and!; [done|by left|done].
      * apply path_one. split; [done|]. exists [1; -1]. split_and!; [done|by left|done].
Defined.

(** [save_txt] on a pedigree of one individual. *)
Lemma save_txt_single_example :
  length (rows (parents single_pedigree)) = num_individuals single_pedigree ∧
  num_individuals single_pedigree ≠ 4%nat ∧
  raises (save_txt single_pedigree).
Proof.
  split; [reflexivity|]. split; [discriminate|].
  apply (save_txt_raises_unless_four single_pedigree); [reflexivity|discriminate].
Defined.

(** What the two writers do with one individual: the array form is written,
    the text form fails on its row selection. *)
Example save_single_pedigree :
  save_npy single_pedigree = Ok (Array2 4 [[1; -1; -1; 0]]) ∧
  save_txt single_pedigree = Raise IndexError.
Proof. split; reflexivity. Qed.

(** With exactly four individuals the text form is written, with identifiers
    in the parent columns. *)
Example save_txt_four :
  data <$> save_txt example_pedigree
    = Ok [[1; 3; 4; 0]; [2; 0; 0; 0]; [3; 0; 0; 1]; [4; 0; 0; 1]].
Proof. reflexivity. Qed.

(** [parse_fam] on small families. *)
Lemma parse_fam_example :
  parse_fam digit_int Ok [fam_founder; fam_child]
    = Ok [ {| fam_parents := [-1; -1];
              fam_metadata_of := {| md_plink_fid := "F1"; md_plink_iid := "1"; md_sex := 1 |} |};
           {| fam_parents := [0; -1];
              fam_metadata_of := {| md_plink_fid := "F1"; md_plink_iid := "2"; md_sex := 2 |} |} ] ∧
  raises (parse_fam digit_int Ok [fam_founder; fam_child; fam_founder]) ∧
  raises (parse_fam digit_int Ok [fam_founder; fam_orphan]).
Proof.
  split; [reflexivity|]. split.
  - eapply (proj1 (parse_fam_errors_and_references digit_int Ok
                     [fam_founder; fam_child; fam_founder]) 0%nat 2%nat);
      [lia|reflexivity..].
  - eapply (proj1 (proj2 (proj2 (parse_fam_errors_and_references digit_int Ok
                     [fam_founder; fam_orphan]))) fam_orphan "9").
    + right. by left.
    + by left.
    + split; [done|]. intros r Hr.
      repeat (apply elem_of_cons in Hr as [->|Hr]); try done.
      by apply elem_of_nil in Hr.
Defined.

(** * Further properties of the module *)

(** ** Comprehensions and dictionaries *)

Lemma mapM_result_Ok {A B} (f : A → result B) (l : list A) (l' : list B) :
  mapM_result f l = Ok l' ↔ Forall2 (λ x y, f x = Ok y) l l'.
Proof.
  revert l'. induction l as [|x l IH]; intros l'; simpl.
  - split; [intros [= <-]; constructor|by intros ->%Forall2_nil_inv_l].
  - destruct (f x) as [y|e] eqn:Hx; simpl.
    + destruct (mapM_result f l) as [ys|e] eqn:Hl; simpl.
      * split.
        -- intros [= <-]. constructor; [done|by apply IH].
        -- intros (y' & ys' & Hy & Hys & ->)%Forall2_cons_inv_l.
           apply IH in Hys. congruence.
      * split; [done|].
        intros (y' & ys' & Hy & Hys & ->)%Forall2_cons_inv_l.
        apply IH in Hys. done.
    + split; [done|].
      intros (y' & ys' & Hy & Hys & ->)%Forall2_cons_inv_l. congruence.
Qed.

Lemma mapM_result_Raise {A B} (f : A → result B) (l : list A) e :
  mapM_result f l = Raise e → ∃ x, x ∈ l ∧ f x = Raise e.
Proof.
  induction l as [|x l IH]; simpl; [done|].
  destruct (f x) as [y|e'] eqn:Hx; simpl.
  - destruct (mapM_result f l) as [ys|e'] eqn:Hl; simpl; [done|].
    intros [= ->]. destruct IH as (z & Hz & Hfz); [done|].
    exists z. split; [by right|done].
  - intros [= ->]. exists x. split; [by left|done].
Qed.

Lemma mapM_result_raises {A B} (f : A → result B) (l : list A) x :
  x ∈ l → raises (f x) → raises (mapM_result f l).
Proof.
  intros Hx [e He]. destruct (mapM_result f l) as [l'|e'] eqn:Hl; [|by eexists].
  apply mapM_result_Ok in Hl.
  apply list_elem_of_lookup_1 in Hx as [i Hi].
  destruct (Forall2_lookup_l _ _ _ _ _ Hl Hi) as (y & _ & Hy). congruence.
Qed.

Lemma mapM_result_fmap {A B} (f : A → result B) (g : A → B) (l : list A) :
  (∀ x, x ∈ l → f x = Ok (g x)) → mapM_result f l = Ok (g <$> l).
Proof.
  intros Hf. apply mapM_result_Ok. apply Forall2_fmap_r, Forall_Forall2_diag.
  by apply Forall_forall.
Qed.

(** [dict(pairs)[k]] is the value of the last pair with the key [k]. *)
Lemma dict_of_pairs_snoc (l : list (Z * Z)) (kv : Z * Z) :
  dict_of_pairs (l ++ [kv]) = <[kv.1:=kv.2]> (dict_of_pairs l).
Proof. unfold dict_of_pairs. by rewrite foldl_snoc. Qed.

Lemma dict_of_pairs_None (l : list (Z * Z)) (k : Z) :
  dict_of_pairs l !! k = None ↔ k ∉ l.*1.
Proof.
  induction l as [|kv l IH] using rev_ind.
  - split; [intros _ []%elem_of_nil|done].
  - rewrite dict_of_pairs_snoc, fmap_app, elem_of_app. simpl.
    rewrite list_elem_of_singleton, lookup_insert_None, IH.
    split.
    + intros [Hl Hne] [Hin|Heq]; [by apply Hl|by apply Hne].
    + intros Hk. split; [intros Hin; apply Hk; by left|].
      intros Heq. apply Hk. by right.
Qed.

Lemma dict_of_pairs_Some (l : list (Z * Z)) (k v : Z) :
  dict_of_pairs l !! k = Some v ↔
  ∃ i : nat, l !! i = Some (k, v) ∧
    ∀ (j : nat) kv, (i < j)%nat → l !! j = Some kv → kv.1 ≠ k.
Proof.
  revert v. induction l as [|[k' v'] l IH] using rev_ind; intros v.
  - split; [done|]. by intros (i & Hi & _).
  - rewrite dict_of_pairs_snoc. simpl.
    destruct (decide (k' = k)) as [->|Hne].
    + rewrite lookup_insert_eq. split.
      * intros [= ->]. exists (length l). split.
        -- by rewrite lookup_app_r, Nat.sub_diag by lia.
        -- intros j kv Hj Hkv. apply lookup_lt_Some in Hkv.
           rewrite length_app in Hkv. simpl in Hkv. lia.
      * intros (i & Hi & Hlast).
        destruct (decide (i = length l)) as [->|Hi'].
        -- rewrite lookup_app_r, Nat.sub_diag in Hi by lia. by simplify_eq/=.
        -- assert (i < length l)%nat as Hlt.
           { apply lookup_lt_Some in Hi. rewrite length_app in Hi. simpl in Hi. lia. }
           exfalso. apply (Hlast (length l) (k, v')); [done| |done].
           by rewrite lookup_app_r, Nat.sub_diag by lia.
    + rewrite lookup_insert_ne by done. rewrite IH. split.
      * intros (i & Hi & Hlast). exists i. split.
        -- by rewrite lookup_app_l by (by eapply lookup_lt_Some).
        -- intros j kv Hj Hkv.
           destruct (decide (j < length l)%nat) as [Hjl|Hjl].
           ++ rewrite lookup_app_l in Hkv by done. eauto.
           ++ rewrite lookup_app_r in Hkv by lia.
              apply list_lookup_singleton_Some in Hkv as [_ <-]. done.
      * intros (i & Hi & Hlast).
        assert (i < length l)%nat as Hlt.
        { destruct (decide (i < length l)%nat) as [|Hge]; [done|].
          rewrite lookup_app_r in Hi by lia.
          apply list_lookup_singleton_Some in Hi as [_ [= ? ?]]. done. }
        exists i. rewrite lookup_app_l in Hi by done. split; [done|].
        intros j kv Hj Hkv. apply (Hlast j kv Hj).
        by rewrite lookup_app_l by (by eapply lookup_lt_Some).
Qed.

(** ** [Pedigree.get_proband_indices] *)

Lemma StronglySorted_le_lt (l : list Z) :
  StronglySorted Z.le l → NoDup l → StronglySorted Z.lt l.
Proof.
  induction 1 as [|x l Hl IH Hx]; intros Hnd; [constructor|].
  apply NoDup_cons in Hnd as [Hxl Hnd]. constructor; [by apply IH|].
  apply Forall_forall. intros y Hy.
  rewrite Forall_forall in Hx. specialize (Hx y Hy).
  assert (x ≠ y) by (by intros ->). lia.
Qed.

(** X1. [get_proband_indices] lists, in strictly ascending order, exactly the
    indices of [individual] that occur nowhere in the parent matrix. *)
Theorem get_proband_indices_sorted {F} (self : Pedigree F) :
  StronglySorted Z.lt (get_proband_indices self) ∧
  ∀ i, i ∈ get_proband_indices self ↔
       0 ≤ i < Z.of_nat (length (individual self)) ∧ i ∉ ravel (parents self).
Proof.
  unfold get_proband_indices. split.
  - apply StronglySorted_le_lt.
    + apply StronglySorted_merge_sort; apply _.
    + rewrite merge_sort_Permutation. apply NoDup_elements.
  - intros i. rewrite merge_sort_Permutation, elem_of_elements.
    apply elem_of_proband_indices.
Qed.

(** ** [Pedigree.parent_ID_to_index] and [Pedigree.parent_index_to_ID] *)

Lemma fst_zip_take {A B} (l : list A) (k : list B) : (zip l k).*1 = take (length k) l.
Proof.
  revert k. induction l as [|x l IH]; intros [|y k]; simpl; try done.
  by rewrite IH.
Qed.

Lemma lookup_zip_seqZ (individual : list Z) (n i : nat) (k v : Z) :
  zip individual (seqZ 0 (Z.of_nat n)) !! i = Some (k, v) ↔
  individual !! i = Some k ∧ v = Z.of_nat i ∧ (i < n)%nat.
Proof.
  split.
  - intros (x & y & [= -> ->] & Hx & Hy)%lookup_zip_with_Some.
    apply lookup_seqZ in Hy. split_and!; [done|lia..].
  - intros (Hk & -> & Hi). apply lookup_zip_with_Some.
    exists k, (Z.of_nat i). split_and!; [done..|].
    apply lookup_seqZ. lia.
Qed.

(** The dictionary [dict(zip(individual, range(n)))]. *)
Lemma ind_dict_None (individual : list Z) (n : nat) (k : Z) :
  dict_of_pairs (zip individual (seqZ 0 (Z.of_nat n))) !! k = None ↔
  k ∉ take n individual.
Proof.
  rewrite dict_of_pairs_None, fst_zip_take, length_seqZ. by rewrite Nat2Z.id.
Qed.

Lemma ind_dict_Some (individual : list Z) (n : nat) (k v : Z) :
  dict_of_pairs (zip individual (seqZ 0 (Z.of_nat n))) !! k = Some v ↔
  ∃ i : nat, v = Z.of_nat i ∧ (i < n)%nat ∧ individual !! i = Some k ∧
    ∀ j : nat, (i < j < n)%nat → individual !! j ≠ Some k.
Proof.
  rewrite dict_of_pairs_Some. split.
  - intros (i & Hi & Hlast). apply lookup_zip_seqZ in Hi as (Hk & -> & Hin).
    exists i. split_and!; [done..|].
    intros j Hj Hjk. apply (Hlast j (k, Z.of_nat j)); [lia| |done].
    apply lookup_zip_seqZ. split_and!; [done..|lia].
  - intros (i & -> & Hin & Hk & Hlast). exists i. split.
    + by apply lookup_zip_seqZ.
    + intros j [k' v'] Hj Hkv Heq. simpl in Heq. subst k'.
      apply lookup_zip_seqZ in Hkv as (Hk' & -> & Hjn).
      by apply (Hlast j); [lia|].
Qed.

Lemma ind_dict_getitem (individual : list Z) (n : nat) (k p : Z) :
  dict_getitem (<[0:=-1]> (dict_of_pairs (zip individual (seqZ 0 (Z.of_nat n))))) k = Ok p ↔
  resolves_to individual n k p.
Proof.
  unfold dict_getitem, resolves_to. case_bool_decide as Hk.
  - subst k. rewrite lookup_insert_eq. split; [by intros [= <-]|by intros ->].
  - rewrite lookup_insert_ne by done.
    destruct (dict_of_pairs _ !! k) as [v|] eqn:Hd.
    + rewrite <- ind_dict_Some. split; [by intros [= <-]|congruence].
    + split; [done|]. rewrite <- ind_dict_Some. congruence.
Qed.

Lemma ind_dict_getitem_raises (individual : list Z) (n : nat) (k : Z) e :
  dict_getitem (<[0:=-1]> (dict_of_pairs (zip individual (seqZ 0 (Z.of_nat n))))) k = Raise e ↔
  e = KeyErrorZ k ∧ k ≠ 0 ∧ k ∉ take n individual.
Proof.
  unfold dict_getitem. destruct (decide (k = 0)) as [->|Hk].
  - rewrite lookup_insert_eq. split; [done|]. by intros (_ & ? & _).
  - rewrite lookup_insert_ne by done.
    destruct (dict_of_pairs _ !! k) as [v|] eqn:Hd.
    + split; [done|]. intros (_ & _ & Hnot). apply ind_dict_None in Hnot. congruence.
    + apply ind_dict_None in Hd. split; [by intros [= <-]|by intros (-> & _)].
Qed.

(** X2. The errors of [parent_ID_to_index].  The dictionary is built from as
    many identifiers as the matrix has rows: a [0] among them is refused with
    the [ValueError] of the reserved identifier; otherwise the call fails
    exactly when some entry of the matrix is neither [0] nor one of these
    identifiers, and the failure is the [KeyError] of such an entry. *)
Theorem parent_ID_to_index_errors (individual : list Z) (parent_IDs : ndarray2 Z) :
  let ids := take (length (rows parent_IDs)) individual in
  (0 ∈ ids →
     parent_ID_to_index individual parent_IDs = Raise (ValueError InvalidIDZero)) ∧
  (0 ∉ ids →
     (raises (parent_ID_to_index individual parent_IDs) ↔
        ∃ k, k ∈ ravel parent_IDs ∧ k ≠ 0 ∧ k ∉ ids) ∧
     (∀ e, parent_ID_to_index individual parent_IDs = Raise e →
        ∃ k, e = KeyErrorZ k ∧ k ∈ ravel parent_IDs ∧ k ≠ 0 ∧ k ∉ ids)).
Proof.
  intros ids. unfold parent_ID_to_index. split.
  - intros H0. rewrite bool_decide_eq_true_2; [done|].
    destruct (dict_of_pairs _ !! 0) eqn:Hd; [done|].
    by apply ind_dict_None in Hd.
  - intros H0. rewrite bool_decide_eq_false_2.
    2:{ intros [v Hv]. apply ind_dict_None in H0. congruence. }
    assert (∀ e, mapM_result (mapM_result (dict_getitem
              (<[0:=-1]> (dict_of_pairs
                 (zip individual (seqZ 0 (Z.of_nat (length (rows parent_IDs))))))))) 
              (rows parent_IDs) = Raise e →
            ∃ k, e = KeyErrorZ k ∧ k ∈ ravel parent_IDs ∧ k ≠ 0 ∧ k ∉ ids) as Herr.
    { intros e (row & Hrow & (k & Hk & Hget)%mapM_result_Raise)%mapM_result_Raise.
      apply ind_dict_getitem_raises in Hget as (-> & Hk0 & Hnot).
      exists k. split_and!; [done| |done..].
      unfold ravel. apply list_elem_of_join. eauto. }
    split.
    + split.
      * intros [e He].
        destruct (mapM_result _ (rows parent_IDs)) as [ps|e'] eqn:Hm; [done|].
        simpl in He. destruct (Herr e' eq_refl) as (k & _ & ?). eauto.
      * intros (k & Hk & Hk0 & Hnot).
        unfold ravel in Hk. apply list_elem_of_join in Hk as (row & Hkrow & Hrow).
        assert (raises (mapM_result (mapM_result (dict_getitem
              (<[0:=-1]> (dict_of_pairs
                 (zip individual (seqZ 0 (Z.of_nat (length (rows parent_IDs)))))))))
              (rows parent_IDs))) as [e He].
        { eapply mapM_result_raises; [exact Hrow|].
          eapply mapM_result_raises; [exact Hkrow|].
          exists (KeyErrorZ k). by apply ind_dict_getitem_raises. }
        rewrite He. by eexists.
    + intros e He.
      destruct (mapM_result _ (rows parent_IDs)) as [ps|e'] eqn:Hm; [done|].
      simpl in He. injection He as <-. by apply Herr.
Qed.

Lemma parent_ID_to_index_inv (individual : list Z) (parent_IDs parents : ndarray2 Z) :
  parent_ID_to_index individual parent_IDs = Ok parents →
  shape1 parents = shape1 parent_IDs ∧
  Forall2 (Forall2 (resolves_to individual (length (rows parent_IDs))))
    (rows parent_IDs) (rows parents).
Proof.
  unfold parent_ID_to_index. case_bool_decide; [done|].
  destruct (mapM_result _ (rows parent_IDs)) as [ps|e] eqn:Hm; [|done].
  intros [= <-]. split; [done|]. simpl.
  apply mapM_result_Ok in Hm. eapply Forall2_impl; [exact Hm|].
  intros row prow Hrow. simpl in Hrow. apply mapM_result_Ok in Hrow.
  eapply Forall2_impl; [exact Hrow|].
  intros k p Hkp. by apply ind_dict_getitem.
Qed.

(** X3. What [parent_ID_to_index] returns: it succeeds with [parents] exactly
    when no [0] is among the identifiers it files, [parents] has the shape of
    the input, and in it every [0] has become [-1] and every other identifier
    the position that holds it in [individual]; when an identifier occurs more
    than once, the last of its positions. *)
Theorem parent_ID_to_index_resolves (individual : list Z) (parent_IDs parents : ndarray2 Z) :
  parent_ID_to_index individual parent_IDs = Ok parents ↔
  (0 ∉ take (length (rows parent_IDs)) individual) ∧
  shape1 parents = shape1 parent_IDs ∧
  Forall2 (Forall2 (resolves_to individual (length (rows parent_IDs))))
    (rows parent_IDs) (rows parents).
Proof.
  split.
  - intros Hok. split; [|by apply parent_ID_to_index_inv].
    intros H0. revert Hok. unfold parent_ID_to_index.
    rewrite bool_decide_eq_true_2; [done|].
    destruct (dict_of_pairs _ !! 0) eqn:Hd; [done|]. by apply ind_dict_None in Hd.
  - intros (H0 & Hshape & Hrows). unfold parent_ID_to_index.
    rewrite bool_decide_eq_false_2.
    2:{ intros [v Hv]. apply ind_dict_None in H0. congruence. }
    assert (mapM_result (mapM_result (dict_getitem
              (<[0:=-1]> (dict_of_pairs
                 (zip individual (seqZ 0 (Z.of_nat (length (rows parent_IDs)))))))))
              (rows parent_IDs) = Ok (rows parents)) as ->.
    { apply mapM_result_Ok. eapply Forall2_impl; [exact Hrows|].
      intros row prow Hrow. simpl. apply mapM_result_Ok.
      eapply Forall2_impl; [exact Hrow|].
      intros k p Hkp. by apply ind_dict_getitem. }
    simpl. rewrite <- Hshape. by destruct parents.
Qed.

(** One entry of [parent_index_to_ID]. *)
Lemma index_entry_Ok (individual : list Z) (p k : Z) :
  (if bool_decide (0 ≤ p) then getitem individual p else Ok 0) = Ok k ↔
  p < Z.of_nat (length individual) ∧ k = ID_of individual p.
Proof.
  unfold ID_of. case_bool_decide as Hp.
  - rewrite getitem_nonneg by done.
    destruct (individual !! Z.to_nat p) as [x|] eqn:Hx; simpl.
    + apply lookup_lt_Some in Hx. split; [intros [= <-]; split; [lia|done]|].
      by intros [_ ->].
    + apply lookup_ge_None in Hx. split; [done|]. lia.
  - split; [intros [= <-]; split; [lia|done]|]. by intros [_ ->].
Qed.

Lemma index_entry_Raise (individual : list Z) (p : Z) e :
  (if bool_decide (0 ≤ p) then getitem individual p else Ok 0) = Raise e →
  e = IndexError ∧ Z.of_nat (length individual) ≤ p.
Proof.
  case_bool_decide as Hp; [|done]. rewrite getitem_nonneg by done.
  destruct (individual !! Z.to_nat p) as [x|] eqn:Hx; [done|].
  apply lookup_ge_None in Hx. intros [= <-]. split; [done|lia].
Qed.

Lemma parent_index_to_ID_in_range (individual : list Z) (parents : ndarray2 Z) :
  Forall (λ p, p < Z.of_nat (length individual)) (ravel parents) →
  parent_index_to_ID individual parents =
    Ok (Array2 (shape1 parents)
          ((λ row : list Z, ID_of individual <$> row) <$> rows parents)).
Proof.
  intros Hall. rewrite Forall_forall in Hall. unfold parent_index_to_ID.
  rewrite (mapM_result_fmap _ (λ row : list Z, ID_of individual <$> row)); [done|].
  intros row Hrow. apply mapM_result_fmap. intros p Hp.
  apply index_entry_Ok. split; [|done].
  apply Hall. unfold ravel. apply list_elem_of_join. eauto.
Qed.

(** X4. [parent_index_to_ID] translates every negative entry to the
    identifier [0] and every other entry to the identifier at that position,
    keeping the shape; it fails, with [IndexError], exactly when some entry
    lies beyond the last individual.  A negative entry is never used as a
    Python index from the end. *)
Theorem parent_index_to_ID_cases (individual : list Z) (parents : ndarray2 Z) :
  (Forall (λ p, p < Z.of_nat (length individual)) (ravel parents) →
     parent_index_to_ID individual parents =
       Ok (Array2 (shape1 parents)
             ((λ row : list Z, ID_of individual <$> row) <$> rows parents))) ∧
  (¬ Forall (λ p, p < Z.of_nat (length individual)) (ravel parents) →
     parent_index_to_ID individual parents = Raise IndexError).
Proof.
  split; [apply parent_index_to_ID_in_range|].
  unfold parent_index_to_ID.
  - intros Hnot.
    destruct (mapM_result _ (rows parents)) as [ids|e] eqn:Hm; simpl.
    + exfalso. apply Hnot. apply Forall_forall. intros p Hp.
      unfold ravel in Hp. apply list_elem_of_join in Hp as (row & Hprow & Hrow).
      apply mapM_result_Ok in Hm.
      apply list_elem_of_lookup_1 in Hrow as [i Hi].
      destruct (Forall2_lookup_l _ _ _ _ _ Hm Hi) as (idrow & _ & Hidrow).
      simpl in Hidrow. apply mapM_result_Ok in Hidrow.
      apply list_elem_of_lookup_1 in Hprow as [j Hj].
      destruct (Forall2_lookup_l _ _ _ _ _ Hidrow Hj) as (k & _ & Hk).
      by apply index_entry_Ok in Hk as [? _].
    + apply mapM_result_Raise in Hm as (row & _ & (p & _ & Hp)%mapM_result_Raise).
      by apply index_entry_Raise in Hp as [-> _].
Qed.

Lemma parent_ID_to_index_of_IDs (individual : list Z) (parents : ndarray2 Z) :
  NoDup individual →
  0 ∉ individual →
  length (rows parents) = length individual →
  Forall (λ p, -1 ≤ p < Z.of_nat (length individual)) (ravel parents) →
  parent_ID_to_index individual
    (Array2 (shape1 parents)
       ((λ row : list Z, ID_of individual <$> row) <$> rows parents))
  = Ok parents.
Proof.
  intros Hnd H0 Hlen Hall.
  rewrite Forall_forall in Hall.
  unfold parent_ID_to_index. simpl. rewrite length_fmap, Hlen.
  rewrite bool_decide_eq_false_2.
  2:{ intros [v Hv]. apply ind_dict_Some in Hv as (i & _ & _ & Hi & _).
      apply H0. by eapply list_elem_of_lookup_2. }
  assert (mapM_result (mapM_result (dict_getitem
            (<[0:=-1]> (dict_of_pairs
               (zip individual (seqZ 0 (Z.of_nat (length individual))))))))
            ((λ row : list Z, ID_of individual <$> row) <$> rows parents)
          = Ok (rows parents)) as ->.
  2:{ simpl. by destruct parents. }
  apply mapM_result_Ok, Forall2_fmap_l, Forall_Forall2_diag, Forall_forall.
  intros row Hrow.
  apply mapM_result_Ok, Forall2_fmap_l, Forall_Forall2_diag, Forall_forall.
  intros p Hp. apply ind_dict_getitem.
  assert (-1 ≤ p < Z.of_nat (length individual)) as Hrange.
  { apply Hall. unfold ravel. apply list_elem_of_join. eauto. }
  unfold resolves_to, ID_of. destruct (decide (0 ≤ p)) as [Hp0|Hp0].
  - rewrite (bool_decide_eq_true_2 (0 ≤ p)) by done.
    destruct (lookup_lt_is_Some_2 individual (Z.to_nat p)) as [k Hk]; [lia|].
    rewrite Hk. simpl. rewrite bool_decide_eq_false_2.
    2:{ intros ->. apply H0. by eapply list_elem_of_lookup_2. }
    exists (Z.to_nat p). split_and!; [lia|lia|done|].
    intros j Hj Hjk. pose proof (NoDup_lookup _ _ _ _ Hnd Hk Hjk). lia.
  - rewrite (bool_decide_eq_false_2 (0 ≤ p)) by done.
    rewrite bool_decide_eq_true_2 by done. lia.
Qed.

(** X5. Indices survive the translation to identifiers and back: when the
    identifiers are pairwise distinct and none is [0], the matrix has one row
    per individual, and its entries are [-1] or indices of individuals,
    [parent_ID_to_index] undoes [parent_index_to_ID]. *)
Theorem index_ID_round_trip (individual : list Z) (parents : ndarray2 Z) :
  NoDup individual →
  0 ∉ individual →
  length (rows parents) = length individual →
  Forall (λ p, -1 ≤ p < Z.of_nat (length individual)) (ravel parents) →
  ∃ parent_IDs,
    parent_index_to_ID individual parents = Ok parent_IDs ∧
    parent_ID_to_index individual parent_IDs = Ok parents.
Proof.
  intros Hnd H0 Hlen Hall.
  exists (Array2 (shape1 parents)
            ((λ row : list Z, ID_of individual <$> row) <$> rows parents)).
  split; [|by apply parent_ID_to_index_of_IDs].
  apply parent_index_to_ID_in_range. eapply Forall_impl; [exact Hall|].
  simpl. lia.
Qed.

(** X6. Identifiers survive the translation to indices and back: whenever
    [parent_ID_to_index] succeeds, [parent_index_to_ID] returns the matrix of
    identifiers it was given. *)
Theorem ID_index_round_trip (individual : list Z) (parent_IDs parents : ndarray2 Z) :
  parent_ID_to_index individual parent_IDs = Ok parents →
  parent_index_to_ID individual parents = Ok parent_IDs.
Proof.
  intros [Hshape Hrows]%parent_ID_to_index_inv. unfold parent_index_to_ID.
  assert (mapM_result (mapM_result (λ p,
            if bool_decide (0 ≤ p) then getitem individual p else Ok 0)) (rows parents)
          = Ok (rows parent_IDs)) as ->.
  2:{ simpl. rewrite Hshape. by destruct parent_IDs. }
  apply mapM_result_Ok, Forall2_flip. eapply Forall2_impl; [exact Hrows|].
  intros idrow row Hrow. simpl.
  apply mapM_result_Ok, Forall2_flip. eapply Forall2_impl; [exact Hrow|].
  intros k p Hkp. simpl. unfold resolves_to in Hkp.
  case_bool_decide as Hk.
  - subst. by rewrite bool_decide_eq_false_2 by lia.
  - destruct Hkp as (i & -> & _ & Hi & _).
    rewrite bool_decide_eq_true_2 by lia. by rewrite getitem_nat, Hi.
Qed.

(** The example pedigree: individual 1 is the child of individuals 3 and 4. *)
Lemma index_ID_round_trip_example :
  NoDup (individual example_pedigree) ∧
  ∃ parent_IDs,
    parent_index_to_ID (individual example_pedigree) (parents example_pedigree)
      = Ok parent_IDs ∧
    parent_ID_to_index (individual example_pedigree) parent_IDs
      = Ok (parents example_pedigree).
Proof.
  assert (NoDup (individual example_pedigree)) as Hnd.
  { apply (bool_decide_unpack _). reflexivity. }
  split; [exact Hnd|].
  apply (index_ID_round_trip (individual example_pedigree) (parents example_pedigree)).
  - exact Hnd.
  - apply (bool_decide_unpack _). reflexivity.
  - reflexivity.
  - apply (bool_decide_unpack _). reflexivity.
Defined.

Lemma ID_index_round_trip_example :
  parent_index_to_ID [10; 20; 30] (Array2 2 [[2; 1]; [-1; -1]; [-1; -1]])
    = Ok (Array2 2 [[30; 20]; [0; 0]; [0; 0]]).
Proof.
  apply (ID_index_round_trip [10; 20; 30] (Array2 2 [[30; 20]; [0; 0]; [0; 0]])).
  reflexivity.
Defined.

(** ** [Pedigree.set_samples] with a list of identifiers *)

Lemma filter_tagged {A} (g : Z → A) (Q : A → Prop) `{∀ x, Decision (Q x)} (l : list Z) :
  (filter (λ ix : Z * A, Q ix.2) ((λ i, (i, g i)) <$> l)).*1 = filter (λ i, Q (g i)) l.
Proof.
  induction l as [|i l IH]; [done|]. rewrite fmap_cons, !filter_cons. simpl.
  destruct (decide (Q (g i))); [|exact IH].
  rewrite fmap_cons. simpl. f_equal. exact IH.
Qed.

(** Among distinct candidates with distinct identifiers, as many candidates
    carry a requested identifier as there are requests exactly when the
    requests are distinct and each names a candidate. *)
Lemma count_matching (g : Z → Z) (l : list Z) (ids : list Z) :
  NoDup l →
  (∀ i j, i ∈ l → j ∈ l → g i = g j → i = j) →
  length (filter (λ i, g i ∈ (list_to_set ids : gset Z)) l) = length ids ↔
  NoDup ids ∧ ∀ x, x ∈ ids → ∃ i, i ∈ l ∧ g i = x.
Proof.
  intros Hnd Hinj.
  set (chosen := filter (λ i, g i ∈ (list_to_set ids : gset Z)) l).
  assert (NoDup (g <$> chosen)) as Hndc.
  { apply NoDup_fmap_2_strong; [|by apply NoDup_filter].
    intros i j [_ Hi]%list_elem_of_filter [_ Hj]%list_elem_of_filter. by apply Hinj. }
  assert (g <$> chosen ⊆+ ids) as Hsub.
  { apply NoDup_submseteq; [done|].
    intros x (i & -> & [Hi _]%list_elem_of_filter)%list_elem_of_fmap.
    by apply elem_of_list_to_set in Hi. }
  rewrite <- (length_fmap g chosen). split.
  - intros Hlen.
    assert (g <$> chosen ≡ₚ ids) as Hperm.
    { apply submseteq_length_Permutation; [done|lia]. }
    split; [by rewrite <- Hperm|].
    intros x Hx. rewrite <- Hperm in Hx.
    apply list_elem_of_fmap in Hx as (i & -> & [_ Hi]%list_elem_of_filter). eauto.
  - intros [Hndi Hall].
    assert (ids ⊆+ g <$> chosen) as Hsup.
    { apply NoDup_submseteq; [done|]. intros x Hx.
      destruct (Hall x Hx) as (i & Hi & <-).
      apply list_elem_of_fmap. exists i. split; [done|].
      apply list_elem_of_filter. split; [|done]. by apply elem_of_list_to_set. }
    apply submseteq_length in Hsub, Hsup. lia.
Qed.

Section set_samples_IDs_properties.
Context {F : Type} `{Float64 F}.
Implicit Types (self : Pedigree F) (rs : RandomState).

(** The comprehension reads [self.individual[i]] for proband indices only,
    which are all within the array. *)
Lemma tag_probands self :
  mapM_result (λ i, x ← getitem (individual self) i; Ok (i, x))
    (elements (proband_indices (length (individual self)) (parents self)))
  = Ok ((λ i, (i, default 0 (individual self !! Z.to_nat i))) <$>
          elements (proband_indices (length (individual self)) (parents self))).
Proof.
  apply mapM_result_fmap. intros i Hi.
  apply elem_of_elements, elem_of_proband_indices in Hi as [Hi _].
  rewrite getitem_nonneg by lia.
  destruct (lookup_lt_is_Some_2 (individual self) (Z.to_nat i)) as [x Hx]; [lia|].
  by rewrite Hx.
Qed.

(** X7. [set_samples] with a list of identifiers, on a pedigree whose
    identifiers are pairwise distinct: the stored sample count becomes the
    length of the list; the call succeeds exactly when the listed identifiers
    are pairwise distinct and each is the identifier of a proband, and then
    the flag vector has a 1 exactly at the probands that are listed and 0
    elsewhere; in every other case it raises the size-mismatch [ValueError]. *)
Theorem set_samples_by_IDs rs self (ids : list Z) :
  num_individuals self = length (individual self) →
  NoDup (individual self) →
  let probands := proband_indices (length (individual self)) (parents self) in
  let r := set_samples rs self None (Some ids) true in
  let named :=
    NoDup ids ∧
    ∀ x, x ∈ ids → ∃ i : nat, Z.of_nat i ∈ probands ∧ individual self !! i = Some x in
  num_samples r.1 = Some (Z.of_nat (length ids)) ∧
  (named →
     r.2 = Ok () ∧
     ∃ flags, is_sample r.1 = Some flags ∧ length flags = num_individuals self ∧
       (∀ x, x ∈ flags → x = 0 ∨ x = 1) ∧
       ∀ i : nat, flags !! i = Some 1 ↔
         Z.of_nat i ∈ probands ∧ ∃ x, individual self !! i = Some x ∧ x ∈ ids) ∧
  (¬ named → r.2 = Raise (ValueError SampleSizeMismatch)).
Proof.
  intros Hn Hnd probands r named.
  set (g := λ i : Z, default 0 (individual self !! Z.to_nat i)).
  set (chosen := filter (λ i, g i ∈ (list_to_set ids : gset Z)) (elements probands)).
  assert (∀ i, i ∈ elements probands → 0 ≤ i < Z.of_nat (length (individual self)))
    as Hrange.
  { intros i Hi. by apply elem_of_elements, elem_of_proband_indices in Hi as [Hi _]. }
  assert (∀ i, i ∈ elements probands →
            individual self !! Z.to_nat i = Some (g i)) as Hg.
  { intros i Hi. unfold g.
    destruct (lookup_lt_is_Some_2 (individual self) (Z.to_nat i)) as [x Hx];
      [specialize (Hrange i Hi); lia|]. by rewrite Hx. }
  assert (length chosen = length ids ↔ named) as Hcount.
  { unfold chosen. rewrite count_matching; [|apply NoDup_elements|].
    - unfold named. split; intros [Hndi Hall]; (split; [done|]); intros x Hx.
      + destruct (Hall x Hx) as (i & Hi & <-). exists (Z.to_nat i).
        pose proof (Hrange i Hi). rewrite Z2Nat.id by lia.
        split; [by apply elem_of_elements|by apply Hg].
      + destruct (Hall x Hx) as (i & Hi & Hx').
        exists (Z.of_nat i). apply elem_of_elements in Hi. split; [done|].
        unfold g. by rewrite Nat2Z.id, Hx'.
    - intros i j Hi Hj Hij.
      pose proof (Hrange i Hi). pose proof (Hrange j Hj).
      apply Hg in Hi, Hj. rewrite Hij in Hi.
      pose proof (NoDup_lookup _ _ _ _ Hnd Hi Hj). lia. }
  assert (r = mark_samples
                (with_num_samples
                   (with_is_sample self (replicate (num_individuals self) 0))
                   (Z.of_nat (length ids)))
                (Z.of_nat (length ids)) (IntArray chosen)) as Hr.
  { unfold r, set_samples. simpl. rewrite tag_probands.
    do 2 f_equal.
    exact (filter_tagged g (λ x, x ∈ (list_to_set ids : gset Z)) (elements probands)). }
  rewrite Hr. unfold mark_samples. simpl.
  destruct (decide (length chosen = length ids)) as [Hlen|Hlen].
  - rewrite bool_decide_eq_false_2 by (intros Hne; apply Hne; lia).
    destruct (setitems_IntArray chosen (replicate (num_individuals self) 0) 1)
      as (flags & Hset & Hflen & Hlook).
    { intros i [_ Hi]%list_elem_of_filter. rewrite length_replicate, Hn. by apply Hrange. }
    rewrite length_replicate in Hflen. simpl in Hset. rewrite Hset. simpl.
    split; [done|]. split; [|intros Hnot; by apply Hcount in Hlen].
    intros _. split; [done|]. exists flags. split_and!; [done..| |].
    + intros x (j & Hj)%list_elem_of_lookup_1. rewrite Hlook in Hj.
      case_bool_decide.
      * destruct (replicate _ _ !! j); simplify_eq/=. by right.
      * apply lookup_replicate in Hj as [-> _]. by left.
    + intros i. rewrite Hlook. split.
      * case_bool_decide as Hin; [|by intros [? _]%lookup_replicate].
        intros _. apply list_elem_of_filter in Hin as [Hin Hel].
        apply elem_of_list_to_set in Hin. split; [by apply elem_of_elements|].
        exists (g (Z.of_nat i)). split; [|done].
        apply Hg in Hel. by rewrite Nat2Z.id in Hel.
      * intros (Hp & x & Hx & Hxin).
        rewrite bool_decide_eq_true_2.
        -- apply lookup_lt_Some in Hx.
           rewrite lookup_replicate_2 by lia. done.
        -- apply list_elem_of_filter. split; [|by apply elem_of_elements].
           apply elem_of_list_to_set. unfold g. by rewrite Nat2Z.id, Hx.
  - rewrite bool_decide_eq_true_2 by lia. simpl.
    split; [done|]. split; [|done]. intros Hnamed. by apply Hcount in Hnamed.
Qed.
End set_samples_IDs_properties.

(** The example pedigree has the probands 0 and 1, with the identifiers 1
    and 2. *)
Lemma set_samples_by_IDs_example :
  NoDup (individual example_pedigree) ∧
  num_samples (set_samples example_rng example_pedigree None (Some [2]) true).1
    = Some 1 ∧
  (set_samples example_rng example_pedigree None (Some [2; 2]) true).2
    = Raise (ValueError SampleSizeMismatch).
Proof.
  assert (NoDup (individual example_pedigree)) as Hnd.
  { apply (bool_decide_unpack _). reflexivity. }
  split; [exact Hnd|]. split.
  - apply (set_samples_by_IDs example_rng example_pedigree [2] eq_refl Hnd).
  - apply (set_samples_by_IDs example_rng example_pedigree [2; 2] eq_refl Hnd).
    intros [Hdup _]. apply NoDup_cons in Hdup as [Hin _].
    apply Hin. apply list_elem_of_here.
Defined.

(** ** What [set_samples] leaves alone *)

Lemma setitem_Ok_inv {A} (l l' : list A) (i : Z) (x : A) :
  setitem l i x = Ok l' →
  length l' = length l ∧ ∀ y, y ∈ l' → y ∈ l ∨ y = x.
Proof.
  unfold setitem. destruct (normalize_index _ _) as [j|]; [|done].
  intros [= <-]. split; [by rewrite length_insert|].
  intros y (k & Hk)%list_elem_of_lookup_1.
  apply list_lookup_insert_Some in Hk as [(_ & -> & _)|[_ Hk]]; [by right|].
  left. by eapply list_elem_of_lookup_2.
Qed.

Lemma setitems_Ok_inv {A} (idx : index_array) (l l' : list A) (x : A) :
  setitems l idx x = Ok l' →
  length l' = length l ∧ ∀ y, y ∈ l' → y ∈ l ∨ y = x.
Proof.
  destruct idx as [idx|]; [|done]. simpl. revert l.
  induction idx as [|i idx IH]; intros l; simpl.
  - intros [= <-]. split; [done|]. intros y Hy. by left.
  - destruct (setitem l i x) as [l1|e] eqn:Hset; [|done].
    apply setitem_Ok_inv in Hset as [Hlen1 Hel1].
    intros [Hlen Hel]%IH. split; [congruence|].
    intros y Hy. destruct (Hel y Hy) as [Hy1| ->]; [|by right]. by apply Hel1.
Qed.

Section set_samples_frame_properties.
Context {F : Type} `{Float64 F}.
Implicit Types (self : Pedigree F) (rs : RandomState).

Lemma mark_samples_frame self n sample_indices :
  let self' := (mark_samples self n sample_indices).1 in
  individual self' = individual self ∧ num_individuals self' = num_individuals self ∧
  parents self' = parents self ∧ time self' = time self ∧ sex self' = sex self ∧
  ploidy self' = ploidy self ∧ samples self' = samples self ∧
  num_samples self' = num_samples self.
Proof.
  unfold mark_samples. case_bool_decide; [done|].
  by destruct (setitems _ _ _).
Qed.

Lemma mark_samples_Ok self n sample_indices old :
  is_sample self = Some old →
  (mark_samples self n sample_indices).2 = Ok () →
  ∃ flags, is_sample (mark_samples self n sample_indices).1 = Some flags ∧
    length flags = length old ∧ ∀ y, y ∈ flags → y ∈ old ∨ y = 1.
Proof.
  intros Hold. unfold mark_samples. case_bool_decide; [done|].
  rewrite Hold. simpl.
  destruct (setitems old sample_indices 1) as [flags|e] eqn:Hset; [|done].
  intros _. exists flags. split; [done|]. by eapply setitems_Ok_inv.
Qed.

(** X8. Whatever the arguments and whatever the outcome, [set_samples] changes
    nothing but [is_sample] and [num_samples]: the identifiers, the parent
    matrix, the times, the sexes, the ploidy and the number of individuals
    stay as they were, and the attribute [samples] is never assigned.  After a
    successful call the flag vector has one entry per individual, each 0
    or 1. *)
Theorem set_samples_frame rs self num_samples sample_IDs probands_only :
  let r := set_samples rs self num_samples sample_IDs probands_only in
  (individual r.1 = individual self ∧ num_individuals r.1 = num_individuals self ∧
   parents r.1 = parents self ∧ time r.1 = time self ∧ sex r.1 = sex self ∧
   ploidy r.1 = ploidy self ∧ samples r.1 = samples self) ∧
  (r.2 = Ok () →
   ∃ flags, is_sample r.1 = Some flags ∧ length flags = num_individuals self ∧
     ∀ x, x ∈ flags → x = 0 ∨ x = 1).
Proof.
  intros r. subst r. unfold set_samples.
  destruct probands_only; simpl; [|done].
  destruct num_samples as [k|], sample_IDs as [ids|]; simpl; try done.
  - case_bool_decide; simpl; [done|].
    destruct (choice_no_replace _ _ _) as [idx|e]; simpl; [|done].
    split.
    + pose proof (mark_samples_frame
        (with_num_samples (with_is_sample self (replicate (num_individuals self) 0)) k)
        k idx) as Hfr. simpl in Hfr. tauto.
    + intros Hok. eapply mark_samples_Ok in Hok as (flags & Hfl & Hlen & Hel); [|done].
      exists flags. rewrite length_replicate in Hlen. split_and!; [done..|].
      intros x Hx. destruct (Hel x Hx) as [Hx0|?]; [|by right].
      apply elem_of_replicate in Hx0 as [? _]. by left.
  - destruct (mapM_result _ _) as [tagged|e]; simpl; [|done].
    split.
    + pose proof (mark_samples_frame
        (with_num_samples (with_is_sample self (replicate (num_individuals self) 0))
           (Z.of_nat (length ids)))
        (Z.of_nat (length ids))
        (IntArray (filter (λ ix : Z * Z, ix.2 ∈ (list_to_set ids : gset Z)) tagged).*1))
        as Hfr. simpl in Hfr. tauto.
    + intros Hok. eapply mark_samples_Ok in Hok as (flags & Hfl & Hlen & Hel); [|done].
      exists flags. rewrite length_replicate in Hlen. split_and!; [done..|].
      intros x Hx. destruct (Hel x Hx) as [Hx0|?]; [|by right].
      apply elem_of_replicate in Hx0 as [? _]. by left.
Qed.
End set_samples_frame_properties.

(** ** The times that [get_times] assigns *)

#[global] Instance Z_float64_exact_ge : Float64ExactGe Z.
Proof.
  split. intros a b _ _. simpl. unfold id. rewrite Z.geb_leb.
  destruct (Z.leb_spec b a); symmetry.
  - apply bool_decide_eq_true. lia.
  - apply bool_decide_eq_false. lia.
Qed.

(** An entry of the matrix that is an index is the parent of the individual
    of its row. *)
Lemma ravel_parent_of (n : nat) (parents : ndarray2 Z) (w : Z) :
  length (rows parents) = n → w ∈ ravel parents → 0 ≤ w →
  ∃ v, 0 ≤ v < Z.of_nat n ∧ parent_of parents v w.
Proof.
  intros Hrows Hin Hw. unfold ravel in Hin.
  apply list_elem_of_join in Hin as (row & Hwrow & Hrow).
  apply list_elem_of_lookup_1 in Hrow as [j Hj].
  pose proof (lookup_lt_Some _ _ _ Hj) as Hlt.
  exists (Z.of_nat j). split; [lia|]. split; [lia|]. exists row.
  by rewrite Nat2Z.id.
Qed.

Section get_times_order.
Context {F : Type} `{Float64Exact F}.
Implicit Types (individual : list Z) (parents : ndarray2 Z) (time : list F).

(** The climb from the probands over a vector of zeros. *)
Lemma climb_from_probands individual parents :
  valid_indices (length individual) parents →
  acyclic parents →
  Z.of_nat (length individual) ≤ 2 ^ 53 →
  ∃ time,
    (∀ fuel check, (length individual < fuel)%nat →
       get_times fuel individual None (Some parents) check =
         if check then
           Some (match check_times individual parents time with
                 | Ok _ => Ok time
                 | Raise e => Raise e
                 end)
         else Some (Ok time)) ∧
    length time = length individual ∧
    ∀ i : nat, (i < length individual)%nat →
      ∃ k : nat, time !! i = Some (of_int (Z.of_nat k)) ∧
                 longest_path (length individual) parents (Z.of_nat i) k.
Proof.
  intros Hvalid Hacyc Hsize.
  destruct (climb_longest (length individual) parents Hvalid Hacyc Hsize
              (S (length individual)) 0
              (elements (proband_indices (length individual) parents))
              (replicate (length individual) (of_int 0)))
    as (time & Hrun & Hlen & Hlongest).
  { apply NoDup_elements. }
  { apply probands_level_0. }
  { by rewrite length_replicate. }
  { intros i Hi. exists 0%nat. split_and!; [|by left|lia].
    by rewrite lookup_replicate_2. }
  { destruct Hvalid as [-> _]. lia. }
  change (Z.of_nat 0) with 0 in Hrun.
  exists time. split_and!; [|done..].
  intros fuel check Hfuel. rewrite get_times_climb.
  by rewrite (climb_fuel_mono _ _ fuel _ _ _ _ Hrun) by lia.
Qed.

(** A parent lies on a longer path than its child. *)
Lemma longest_path_parent (n : nat) parents (v w : Z) (a b : nat) :
  parent_of parents v w →
  longest_path n parents v a → longest_path n parents w b → (a < b)%nat.
Proof.
  intros Hvw [Ha _] [_ Hb].
  assert (level n parents (S a) w) as Hw by (apply level_S; eauto).
  apply Hb in Hw. lia.
Qed.

(** X10. On a well-formed acyclic parent-index matrix the individuals to
    which [get_times] assigns the time 0 are exactly the probands; every
    other individual gets the time of a positive number of generations. *)
Theorem get_times_probands individual parents :
  valid_indices (length individual) parents →
  acyclic parents →
  Z.of_nat (length individual) ≤ 2 ^ 53 →
  ∃ time,
    (∀ fuel, (length individual < fuel)%nat →
       get_times fuel individual None (Some parents) false = Some (Ok time)) ∧
    ∀ i : nat, (i < length individual)%nat →
      ∃ k : nat, time !! i = Some (of_int (Z.of_nat k)) ∧
        (k = 0%nat ↔ Z.of_nat i ∈ proband_indices (length individual) parents).
Proof.
  intros Hvalid Hacyc Hsize.
  destruct (climb_from_probands individual parents Hvalid Hacyc Hsize)
    as (time & Hrun & Hlen & Hlongest).
  exists time. split; [intros fuel Hfuel; by apply (Hrun fuel false)|].
  intros i Hi. destruct (Hlongest i Hi) as (k & Hk & Hlev & Hmax).
  exists k. split; [done|]. split.
  - intros ->. apply elem_of_proband_indices. split; [lia|]. intros Hin.
    destruct (ravel_parent_of (length individual) parents (Z.of_nat i))
      as (v & Hv & Hvi); [by destruct Hvalid|done|lia|].
    destruct (every_individual_in_a_level (length individual) parents v)
      as [t Ht]; [done|assumption|done|].
    assert (level (length individual) parents (S t) (Z.of_nat i)) as Hi'
      by (apply level_S; eauto).
    apply Hmax in Hi'. lia.
  - intros Hp. destruct k as [|k]; [done|].
    apply level_S in Hlev as (v & _ & _ & row & Hrow & Hin & _).
    apply elem_of_proband_indices in Hp as [_ Hp]. exfalso. apply Hp.
    unfold ravel. apply list_elem_of_join. exists row.
    split; [done|]. by eapply list_elem_of_lookup_2.
Qed.

Context `{!Float64ExactGe F}.

(** X9. On a well-formed acyclic parent-index matrix the times that
    [get_times] assigns put every individual strictly below each of its
    parents, so the call with [check=True] returns the same vector as the
    call without: the check that follows the climb never fails. *)
Theorem get_times_checked individual parents :
  valid_indices (length individual) parents →
  acyclic parents →
  Z.of_nat (length individual) ≤ 2 ^ 53 →
  ∃ time,
    (∀ fuel check, (length individual < fuel)%nat →
       get_times fuel individual None (Some parents) check = Some (Ok time)) ∧
    check_times individual parents time = Ok () ∧
    ∀ (i : nat) (p : Z), parent_of parents (Z.of_nat i) p →
      ∃ a b : nat, time !! i = Some (of_int (Z.of_nat a)) ∧
        time !! Z.to_nat p = Some (of_int (Z.of_nat b)) ∧ (a < b)%nat.
Proof.
  intros Hvalid Hacyc Hsize.
  destruct (climb_from_probands individual parents Hvalid Hacyc Hsize)
    as (time & Hrun & Hlen & Hlongest).
  assert (∀ (i : nat) (p : Z), parent_of parents (Z.of_nat i) p →
            ∃ a b : nat, time !! i = Some (of_int (Z.of_nat a)) ∧
              time !! Z.to_nat p = Some (of_int (Z.of_nat b)) ∧ (a < b)%nat ∧
              (b ≤ length individual)%nat) as Horder.
  { intros i p Hip.
    pose proof Hip as (_ & row & Hrow & Hp & Hp0).
    pose proof Hvalid as [Hrows Hentries].
    assert (i < length individual)%nat as Hi.
    { rewrite Nat2Z.id in Hrow. apply lookup_lt_Some in Hrow. lia. }
    assert (p < Z.of_nat (length individual)) as Hplt.
    { eapply Hentries; [|done]. by eapply list_elem_of_lookup_2. }
    destruct (Hlongest i Hi) as (a & Ha & Hla).
    destruct (Hlongest (Z.to_nat p)) as (b & Hb & Hlb); [lia|].
    rewrite Z2Nat.id in Hlb by done.
    exists a, b. split_and!; [done|done|by eapply longest_path_parent|].
    destruct Hlb as [Hlb _]. apply level_bound in Hlb; [lia|assumption]. }
  assert (check_times individual parents time = Ok ()) as Hcheck.
  { unfold check_times. apply for_Ok. intros [i ind] Hi%elem_of_enumerate.
    pose proof Hvalid as [Hrows Hentries].
    pose proof (lookup_lt_Some _ _ _ Hi) as Hilt.
    destruct (lookup_lt_is_Some_2 (rows parents) i) as [row Hrow]; [lia|].
    rewrite getitem_nat, Hrow. simpl. apply for_Ok. intros p Hp.
    destruct (lookup_lt_is_Some_2 time i) as [t1 Ht1]; [lia|].
    destruct (check_parent_cases individual time i ind p t1 Ht1 Hlen)
      as [[Hok _]|(Hp0 & t2 & pid & Ht2 & Hge & _)]; [|done|].
    { eapply Hentries; [|done]. by eapply list_elem_of_lookup_2. }
    exfalso.
    destruct (Horder i p) as (a & b & Ha & Hb & Hab & Hbn).
    { split; [lia|]. exists row. by rewrite Nat2Z.id. }
    rewrite Ht1 in Ha. rewrite Ht2 in Hb. simplify_eq.
    rewrite float_ge_of_int in Hge by lia.
    apply bool_decide_eq_true in Hge. lia. }
  exists time. split_and!; [|done|].
  - intros fuel check Hfuel. rewrite (Hrun fuel check Hfuel).
    destruct check; [|done]. by rewrite Hcheck.
  - intros i p Hip. destruct (Horder i p Hip) as (a & b & ? & ? & ? & _). eauto.
Qed.
End get_times_order.

(** [get_times] on [two_paths], whose probands are the individuals 0 and 1. *)
Lemma get_times_probands_example :
  ∃ time : list Z,
    (∀ fuel, (8 < fuel)%nat →
       get_times fuel [1; 2; 3; 4; 5; 6; 7; 8] None (Some two_paths) false
         = Some (Ok time)) ∧
    ∀ i : nat, (i < 8)%nat →
      ∃ k : nat, time !! i = Some (Z.of_nat k) ∧
        (k = 0%nat ↔ Z.of_nat i ∈ proband_indices 8 two_paths).
Proof.
  pose proof (parents_after_children_spec 8 two_paths eq_refl) as [Hvalid Hinc].
  assert (acyclic two_paths) as Hacyc by (by apply acyclic_increasing).
  assert (Z.of_nat (length [1; 2; 3; 4; 5; 6; 7; 8]) ≤ 2 ^ 53) as Hsize by (by vm_compute).
  exact (get_times_probands (F:=Z) [1; 2; 3; 4; 5; 6; 7; 8] two_paths Hvalid Hacyc Hsize).
Defined.

Lemma get_times_checked_example :
  ∃ time : list Z,
    (∀ fuel check, (8 < fuel)%nat →
       get_times fuel [1; 2; 3; 4; 5; 6; 7; 8] None (Some two_paths) check
         = Some (Ok time)) ∧
    check_times [1; 2; 3; 4; 5; 6; 7; 8] two_paths time = Ok () ∧
    ∀ (i : nat) (p : Z), parent_of two_paths (Z.of_nat i) p →
      ∃ a b : nat, time !! i = Some (Z.of_nat a) ∧
        time !! Z.to_nat p = Some (Z.of_nat b) ∧ (a < b)%nat.
Proof.
  pose proof (parents_after_children_spec 8 two_paths eq_refl) as [Hvalid Hinc].
  assert (acyclic two_paths) as Hacyc by (by apply acyclic_increasing).
  assert (Z.of_nat (length [1; 2; 3; 4; 5; 6; 7; 8]) ≤ 2 ^ 53) as Hsize by (by vm_compute).
  exact (get_times_checked (F:=Z) [1; 2; 3; 4; 5; 6; 7; 8] two_paths Hvalid Hacyc Hsize).
Defined.

(** ** The pedigree that [sim_pedigree] produces *)

Section sim_pedigree_graph.
Context {F : Type} `{Float64 F}.

(** X11. The individual table of [sim_pedigree], read as a pedigree: it has
    one row of two parent slots per individual, and every slot is [NULL] or
    the index of a row of the table; each step from a child to a parent goes
    back exactly one generation of [N] rows, so an ancestor reached in [n]
    steps lies [n] generations earlier, no chain of ancestors is longer than
    [E], and no individual is its own ancestor. *)
Theorem sim_pedigree_genealogy (N E : Z) (sequence_length : option F) rng :
  1 ≤ N → 0 ≤ E → (E + 1) * N < 2 ^ 31 →
  ∃ tables,
    sim_pedigree N sequence_length rng E = Ok tables ∧
    valid_indices (Z.to_nat ((E + 1) * N)) (table_parents tables) ∧
    (∀ row, row ∈ rows (table_parents tables) →
       length row = 2%nat ∧
       ∀ p, p ∈ row → p = NULL ∨ 0 ≤ p < (E + 1) * N) ∧
    (∀ u v n, path (table_parents tables) u v n →
       v `div` N + Z.of_nat n = u `div` N) ∧
    (∀ u v n, path (table_parents tables) u v n → 0 ≤ u < (E + 1) * N →
       Z.of_nat n ≤ E) ∧
    acyclic (table_parents tables).
Proof.
  intros HN HE Hbound.
  destruct (sim_pedigree_invariant N E sequence_length rng HN HE Hbound)
    as (tables & population & rng' & Hrun & Hli & _ & _ & Hind & _).
  simpl in *. exists tables.
  assert (∀ v w, parent_of (table_parents tables) v w →
            0 ≤ w < v ∧ w `div` N + 1 = v `div` N) as Hstep.
  { intros v w (Hv & row & Hrow & Hw & Hw0). simpl in Hrow.
    rewrite list_lookup_fmap in Hrow.
    destruct (individuals tables !! Z.to_nat v) as [r|] eqn:Hr; [|done].
    simpl in Hrow. injection Hrow as <-.
    destruct (Hind _ r Hr) as (_ & _ & Hslots). specialize (Hslots w Hw).
    rewrite Z2Nat.id in Hslots by done.
    pose proof (Z.div_pos v N) as Hq0.
    pose proof (Z.mul_div_le v N) as Hq1.
    case_bool_decide as HvN; [unfold NULL in Hslots; lia|].
    split; [nia|].
    assert (w `div` N = v `div` N - 1) as ->; [|lia].
    symmetry. apply (Z.div_unique _ _ _ (w - (v `div` N - 1) * N)); lia. }
  assert (∀ u v n, path (table_parents tables) u v n →
            v `div` N + Z.of_nat n = u `div` N ∧ (n = 0%nat ∨ 0 ≤ v)) as Hpath.
  { induction 1 as [v|u v w n _ IH Hvw]; [split; [lia|by left]|].
    apply Hstep in Hvw. lia. }
  assert (∀ row, row ∈ rows (table_parents tables) →
            length row = 2%nat ∧
            ∀ p, p ∈ row → p = NULL ∨ 0 ≤ p < (E + 1) * N) as Hslot.
  { intros row Hrow. simpl in Hrow.
    apply list_elem_of_fmap in Hrow as (r & -> & Hr).
    apply list_elem_of_lookup_1 in Hr as [j Hj].
    pose proof (lookup_lt_Some _ _ _ Hj) as Hlt.
    destruct (Hind j r Hj) as (_ & Hlen & Hslots). split; [done|].
    intros p Hp. specialize (Hslots p Hp).
    pose proof (Z.mul_div_le (Z.of_nat j) N) as Hq1.
    pose proof (Z.div_pos (Z.of_nat j) N) as Hq0.
    case_bool_decide as HjN; [by left|]. right.
    assert (1 ≤ Z.of_nat j `div` N) by (apply Z.div_le_lower_bound; lia).
    nia. }
  split_and!; [done| |done|by intros u v n [? _]%Hpath| |].
  - split; [simpl; rewrite length_fmap; lia|].
    intros row p Hrow Hp.
    destruct (Hslot row Hrow) as [_ Hp']. destruct (Hp' p Hp) as [->|?]; [|lia].
    unfold NULL. lia.
  - intros u v n [Hp Hv]%Hpath Hu.
    assert (0 ≤ u `div` N ≤ E) as Hq.
    { split; [apply Z.div_pos; lia|].
      apply Z.lt_succ_r, Z.div_lt_upper_bound; lia. }
    destruct Hv as [->|Hv]; [lia|].
    pose proof (Z.div_pos v N). lia.
  - intros v n [Hcycle _]%Hpath. lia.
Qed.

(** X12. The edges of [sim_pedigree]'s domain.  The tables returned always
    hold one population and the sequence length given ([-1] when none is);
    with a negative end time no generation is produced, whatever the
    population size; with an end time of 0 or more and a negative population
    size the first draw of parents fails. *)
Theorem sim_pedigree_edge_cases (N E : Z) (seq_length : option F) rng :
  (∀ tables, sim_pedigree N seq_length rng E = Ok tables →
     populations tables = 1%nat ∧
     sequence_length tables = default (of_int (-1)) seq_length) ∧
  (E < 0 →
     sim_pedigree N seq_length rng E =
       Ok {| sequence_length := default (of_int (-1)) seq_length;
             populations := 1; individuals := []; nodes := [] |}) ∧
  (0 ≤ E → N < 0 → raises (sim_pedigree N seq_length rng E)).
Proof.
  split_and!.
  - intros tables. unfold sim_pedigree.
    destruct (for_fold _ _ _) as [st|e] eqn:Hrun; simpl; [|done].
    intros [= <-].
    apply (for_fold_Ok_invariant
      (λ _ st, populations st.1.1 = 1%nat ∧
               sequence_length st.1.1 = default (of_int (-1)) seq_length))
      in Hrun; [done|done|].
    intros i time [[tables population] rng0] st1 _ [Hpop Hseq] Hgen.
    unfold generation in Hgen.
    destruct (choice_pairs rng0 population N) as [drawn|e]; simpl in Hgen; [|done].
    by injection Hgen as <-.
  - intros HE. unfold sim_pedigree. by rewrite seqZ_nil by lia.
  - intros HE HN. unfold sim_pedigree. apply raises_bind.
    apply (for_fold_raises _ _ _ E).
    + apply elem_of_reverse, elem_of_seqZ. lia.
    + intros [[tables population] rng0]. unfold generation, choice_pairs.
      destruct population as [|x population].
      * rewrite (bool_decide_eq_true_2 (length (@nil Z) = 0%nat ∧ N ≠ 0))
          by (split; [done|lia]).
        by eexists.
      * rewrite (bool_decide_eq_false_2 (length (x :: population) = 0%nat ∧ N ≠ 0))
          by (by intros [? _]).
        rewrite (bool_decide_eq_true_2 (N < 0)) by done. by eexists.
Qed.
End sim_pedigree_graph.

(** The simulator with four individuals per generation and end time 2. *)
Lemma sim_pedigree_genealogy_example :
  ∃ tables : TableCollection Z,
    sim_pedigree 4 None example_rng 2 = Ok tables ∧
    valid_indices 12 (table_parents tables) ∧
    acyclic (table_parents tables).
Proof.
  destruct (sim_pedigree_genealogy (F:=Z) 4 2 None example_rng)
    as (tables & Hrun & Hvalid & _ & _ & _ & Hacyc); [lia|lia|by vm_compute|].
  exists tables. split; [exact Hrun|]. split; [exact Hvalid|exact Hacyc].
Defined.

(** ** The rows that [parse_fam] builds *)

Lemma build_id_map_Raise (individuals : list fam_row) e :
  build_id_map individuals = Raise e → e = ValueError DuplicatePlinkID.
Proof.
  unfold build_id_map.
  destruct (for_fold _ _ _) as [m|e'] eqn:Hloop; [done|]. simpl. intros [= <-].
  apply for_fold_Raise in Hloop as (ir & m & _ & Hbody). simpl in Hbody.
  case_bool_decide; [|done]. by injection Hbody as <-.
Qed.

Section parse_fam_rows.
Variable py_int : string → option Z.
Variable tc_sort : list fam_individual → result (list fam_individual).

(** The row that one iteration of the second loop appends. *)
Lemma fam_add_row_inv id_map tb r tb' :
  fam_add_row py_int id_map tb r = Ok tb' →
  ∃ z p m, py_int (fam_sex r) = Some z ∧ 0 ≤ z < 3 ∧
    tb' = tb ++ [{| fam_parents := [p; m];
                    fam_metadata_of := {| md_plink_fid := plink_fid r;
                                          md_plink_iid := plink_iid r;
                                          md_sex := z |} |}].
Proof.
  unfold fam_add_row, id_map_getitem.
  destruct (py_int (fam_sex r)) as [z|]; [|done]. simpl.
  case_bool_decide as Hz; [|done]. simpl.
  set (pat_id := if bool_decide (pat r ≠ "0") then _ else _).
  set (mat_id := if bool_decide (mat r ≠ "0") then _ else _).
  destruct (id_map !! pat_id) as [p|]; simpl; [|done].
  destruct (id_map !! mat_id) as [m|]; simpl; [|done].
  intros [= <-]. by exists z, p, m.
Qed.

(** X13. When [parse_fam] accepts its input, the table it hands to
    [tc.sort()] has one row per input line, in the order of the file; row [i]
    has two parent slots and the metadata of line [i]: its family and
    individual identifiers unchanged, and its sex field read as an integer,
    which is 0, 1 or 2. *)
Theorem parse_fam_metadata (individuals : list fam_row) (tb : list fam_individual) :
  fam_rows py_int individuals = Ok tb →
  parse_fam py_int tc_sort individuals = tc_sort tb ∧
  length tb = length individuals ∧
  ∀ i r, individuals !! i = Some r →
    ∃ row z, tb !! i = Some row ∧
      py_int (fam_sex r) = Some z ∧ 0 ≤ z < 3 ∧
      fam_metadata_of row = {| md_plink_fid := plink_fid r;
                               md_plink_iid := plink_iid r;
                               md_sex := z |} ∧
      length (fam_parents row) = 2%nat.
Proof.
  intros Htb. unfold parse_fam. rewrite Htb. simpl. split; [done|].
  unfold fam_rows in Htb.
  destruct (build_id_map individuals) as [m|e] eqn:Hm; [|done]. simpl in Htb.
  apply (for_fold_Ok_invariant
    (λ n tb, length tb = n ∧
       ∀ i r, (i < n)%nat → individuals !! i = Some r →
         ∃ row z, tb !! i = Some row ∧
           py_int (fam_sex r) = Some z ∧ 0 ≤ z < 3 ∧
           fam_metadata_of row = {| md_plink_fid := plink_fid r;
                                    md_plink_iid := plink_iid r;
                                    md_sex := z |} ∧
           length (fam_parents row) = 2%nat)) in Htb.
  - destruct Htb as [Hlen Hrows]. split; [done|].
    intros i r Hi. apply Hrows; [|done]. by eapply lookup_lt_Some.
  - split; [done|]. intros i r Hi. lia.
  - intros n r tb0 tb1 Hr [Hlen Hrows] Hstep.
    apply fam_add_row_inv in Hstep as (z & p & mm & Hz & Hrange & ->).
    split; [rewrite length_app; simpl; lia|].
    intros i r' Hi Hr'. destruct (decide (i = n)) as [->|Hne].
    + assert (r' = r) as -> by congruence.
      exists {| fam_parents := [p; mm];
                fam_metadata_of := {| md_plink_fid := plink_fid r;
                                      md_plink_iid := plink_iid r;
                                      md_sex := z |} |}, z.
      rewrite lookup_app_r by lia.
      rewrite Hlen, Nat.sub_diag. split_and!; [done|done|lia|lia|done|done].
    + destruct (Hrows i r') as (row' & z' & Hrow' & Hrest); [lia|done|].
      exists row', z'. split; [|done].
      rewrite lookup_app_l; [done|]. by eapply lookup_lt_Some.
Qed.

(** The two loops of [parse_fam] run to the end exactly on the well-formed
    inputs. *)
Lemma fam_rows_Ok_iff (individuals : list fam_row) :
  (∃ tb, fam_rows py_int individuals = Ok tb) ↔
    NoDup (row_key <$> individuals) ∧
    (∀ r, r ∈ individuals → sex_code_ok py_int r) ∧
    (∀ r p, r ∈ individuals → p = pat r ∨ p = mat r →
       ¬ unresolved individuals (plink_fid r) p).
Proof.
  split.
  - intros [tb Htb]. unfold fam_rows in Htb.
    destruct (build_id_map individuals) as [m|e] eqn:Hm; [|done]. simpl in Htb.
    pose proof (build_id_map_Ok _ _ Hm) as (Hnd & H0 & Hval & Hfree).
    assert (∀ r, r ∈ individuals → ¬ raises (fam_add_row py_int m [] r)) as Hrows.
    { intros r Hr Hraises.
      assert (raises (for_fold individuals [] (fam_add_row py_int m))) as [e He];
        [|congruence].
      eapply for_fold_raises; [exact Hr|]. intros tb0.
      apply (proj2 (fam_add_row_raises py_int tc_sort m tb0 r H0)).
      by apply (proj1 (fam_add_row_raises py_int tc_sort m [] r H0)). }
    split_and!; [done| |].
    + intros r Hr. specialize (Hrows r Hr).
      destruct (fam_add_row py_int m [] r) as [tb1|e] eqn:Hrow; [|destruct Hrows; by eexists].
      by apply fam_add_row_Ok in Hrow as [? _].
    + intros r p Hr Hp [Hp0 Hnone]. apply (Hrows r Hr).
      apply (proj2 (fam_add_row_raises py_int tc_sort m [] r H0)).
      right. exists p. split_and!; [done..|].
      apply Hfree; [apply plink_key_not_zero|done].
  - intros (Hnd & Hsex & Hres).
    destruct (build_id_map_complete individuals Hnd) as [m Hm].
    pose proof (build_id_map_Ok _ _ Hm) as (_ & H0 & Hval & _).
    unfold fam_rows. rewrite Hm. simpl.
    destruct (for_fold individuals [] (fam_add_row py_int m)) as [tb|e] eqn:Hloop;
      [by eexists|].
    exfalso. apply for_fold_Raise in Hloop as (r & tb' & Hr & Hraise).
    assert (raises (fam_add_row py_int m tb' r)) as Hraises by (by eexists).
    apply (proj1 (fam_add_row_raises py_int tc_sort m tb' r H0)) in Hraises
      as [Hbad|(p & Hp & Hp0 & Hnone)].
    + by apply Hbad, Hsex.
    + apply (Hres r p Hr Hp). split; [done|]. intros r' Hr' Hkey.
      apply list_elem_of_lookup_1 in Hr' as [i Hi].
      specialize (Hval i r' Hi). rewrite Hkey in Hval. congruence.
Qed.
End parse_fam_rows.

Section parse_fam_loops.
Variable py_int : string → option Z.

(** X14. The two loops of [parse_fam] run to the end, and the table they
    built is handed to [tc.sort()], exactly on the well-formed inputs: those
    whose family-id/individual-id keys are pairwise distinct, whose sex codes
    are all 0, 1 or 2, and whose parent fields are all ["0"] or the individual
    identifier of a row of the same family.  On such an input [parse_fam]
    returns whatever [tc.sort()] makes of that table, an error of the sort
    included; on any other input it raises an error of its own before
    [tc.sort()] is called, the same whatever the sort would do.  When two rows
    share a key, that error is the duplicate-identifier [ValueError], whatever
    else is wrong with the input, since the first loop ends before any other
    field is read.  On an input without rows the table handed to the sort is
    empty. *)
Theorem parse_fam_accepts (individuals : list fam_row) :
  let well_formed :=
    NoDup (row_key <$> individuals) ∧
    (∀ r, r ∈ individuals → sex_code_ok py_int r) ∧
    (∀ r p, r ∈ individuals → p = pat r ∨ p = mat r →
       ¬ unresolved individuals (plink_fid r) p) in
  (well_formed →
     ∃ tb, fam_rows py_int individuals = Ok tb ∧
           ∀ tc_sort, parse_fam py_int tc_sort individuals = tc_sort tb) ∧
  (¬ well_formed →
     ∃ e, fam_rows py_int individuals = Raise e ∧
          ∀ tc_sort, parse_fam py_int tc_sort individuals = Raise e) ∧
  (¬ NoDup (row_key <$> individuals) →
     ∀ tc_sort, parse_fam py_int tc_sort individuals
                  = Raise (ValueError DuplicatePlinkID)) ∧
  (fam_rows py_int [] = Ok [] ∧ ∀ tc_sort, parse_fam py_int tc_sort [] = tc_sort []).
Proof.
  intros well_formed. split_and!.
  - intros Hwf. apply (fam_rows_Ok_iff py_int Ok) in Hwf as [tb Htb].
    exists tb. split; [done|].
    intros tc_sort. unfold parse_fam. by rewrite Htb.
  - intros Hnot.
    destruct (fam_rows py_int individuals) as [tb|e] eqn:Hrows.
    + destruct Hnot. apply (fam_rows_Ok_iff py_int Ok). by exists tb.
    + exists e. split; [done|]. intros tc_sort. unfold parse_fam. by rewrite Hrows.
  - intros Hdup tc_sort. unfold parse_fam, fam_rows.
    destruct (build_id_map individuals) as [m|e] eqn:Hm.
    + by apply build_id_map_Ok in Hm as [? _].
    + apply build_id_map_Raise in Hm as ->. done.
  - done.
  - done.
Qed.
End parse_fam_loops.


(** A founder and a child of the same family. *)
Lemma parse_fam_metadata_example :
    parse_fam digit_int Ok [fam_founder; fam_child]
    = Ok [ {| fam_parents := [-1; -1];
                   fam_metadata_of := {| md_plink_fid := "F1"; md_plink_iid := "1";
                                         md_sex := 1 |} |};
                {| fam_parents := [0; -1];
                   fam_metadata_of := {| md_plink_fid := "F1"; md_plink_iid := "2";
                                         md_sex := 2 |} |} ].
Proof.
  apply (parse_fam_metadata digit_int Ok [fam_founder; fam_child]).
  reflexivity.
Defined.

(** ** The array and text forms of a pedigree *)

Lemma mapM_result_id {A} (f : A → result A) (l : list A) :
  (∀ x, x ∈ l → f x = Ok x) → mapM_result f l = Ok l.
Proof. intros Hf. rewrite (mapM_result_fmap f id) by done. by rewrite list_fmap_id. Qed.

Lemma mapM_result_zip {A B C} (f : A * B → result C) (g : A → B → C)
    (l : list A) (k : list B) :
  (∀ x y, (x, y) ∈ zip l k → f (x, y) = Ok (g x y)) →
  mapM_result f (zip l k) = Ok (zip_with g l k).
Proof.
  intros Hf. rewrite (zip_with_zip g). apply mapM_result_fmap.
  intros [x y] Hxy. by apply Hf.
Qed.

Lemma length_set_columns {A} (js : list Z) (r rv : list A) :
  length (set_columns js r rv) = length r.
Proof.
  unfold set_columns. generalize (zip js rv). intros l. revert r.
  induction l as [|jx l IH]; intros r; simpl; [done|].
  by rewrite IH, length_insert.
Qed.

Lemma for_fold_setitem {A} (l : list (Z * A)) (r : list A) :
  Forall (λ jx : Z * A, 0 ≤ jx.1 < Z.of_nat (length r)) l →
  for_fold l r (λ r jx, setitem r jx.1 jx.2)
  = Ok (foldl (λ r (jx : Z * A), <[Z.to_nat jx.1:=jx.2]> r) r l).
Proof.
  revert r. induction l as [|jx l IH]; intros r Hl; simpl; [done|].
  apply Forall_cons in Hl as [Hjx Hl].
  rewrite setitem_nonneg by lia. rewrite bool_decide_eq_true_2 by lia.
  apply IH. eapply Forall_impl; [exact Hl|]. intros jx'. simpl.
  by rewrite length_insert.
Qed.

(** [a[:, js] = v] when [v] has the shape of the slice and the columns [js]
    exist: each row receives the values of the corresponding row of [v]. *)
Lemma assign_columns_exact {A} (a : ndarray2 A) (js : list Z) (v : ndarray2 A) (w : nat) :
  length (rows v) = length (rows a) →
  Forall (λ rv, length rv = length js) (rows v) →
  Forall (λ r, length r = w) (rows a) →
  Forall (λ j, 0 ≤ j < Z.of_nat w) js →
  assign_columns a js v =
    Ok (Array2 (shape1 a) (zip_with (set_columns js) (rows a) (rows v))).
Proof.
  intros Hlen Hv Ha Hjs. unfold assign_columns.
  assert (broadcast (length (rows a)) (rows v) = Ok (rows v)) as ->.
  { unfold broadcast. by rewrite bool_decide_eq_true_2. }
  simpl. rewrite mapM_result_id.
  2:{ intros rv Hrv. rewrite Forall_forall in Hv. unfold broadcast.
      by rewrite bool_decide_eq_true_2 by (by apply Hv). }
  simpl. rewrite (mapM_result_zip _ (set_columns js)); [done|].
  intros r rv Hin. simpl. apply for_fold_setitem.
  apply elem_of_zip_l in Hin. rewrite Forall_forall in Ha. rewrite (Ha r Hin).
  apply Forall_forall. intros [j x] Hjx. simpl.
  apply elem_of_zip_l in Hjx. rewrite Forall_forall in Hjs. by apply Hjs.
Qed.

Lemma Forall_length_set_columns {A} (js : list Z) (l k : list (list A)) (w : nat) :
  Forall (λ r, length r = w) l →
  Forall (λ r, length r = w) (zip_with (set_columns js) l k).
Proof.
  intros Hl. apply Forall_forall. intros r (x & y & -> & Hx & _)%elem_of_zip_with.
  rewrite length_set_columns. rewrite Forall_forall in Hl. by apply Hl.
Qed.

Section array_forms.
Context {F : Type} `{Float64 F}.
Implicit Types (self : Pedigree F).

(** The array that [build_array] fills, for a pedigree whose arrays agree in
    length and whose parent matrix has two columns. *)
Lemma build_array_exact self :
  num_individuals self = length (individual self) →
  length (rows (parents self)) = length (individual self) →
  length (time self) = length (individual self) →
  Forall (λ row, length row = 2%nat) (rows (parents self)) →
  ∃ a, build_array self = Ok a ∧ shape1 a = 4%nat ∧
    length (rows a) = length (individual self) ∧
    Forall (λ r, length r = 4%nat) (rows a) ∧
    ∀ (i : nat) ind p0 p1 t,
      individual self !! i = Some ind →
      rows (parents self) !! i = Some [p0; p1] →
      time self !! i = Some t →
      rows a !! i = Some [of_int ind; of_int p0; of_int p1; t].
Proof.
  intros Hn Hrows Htime Hcols.
  unfold build_array. simpl. unfold assign_column.
  rewrite (assign_columns_exact _ [0] _ 4); simpl.
  2:{ by rewrite !length_fmap, length_replicate. }
  2:{ apply Forall_fmap, Forall_forall. by intros x _. }
  2:{ apply Forall_replicate. done. }
  2:{ apply Forall_singleton. lia. }
  rewrite (assign_columns_exact _ [1; 2] _ 4); simpl.
  2:{ rewrite length_zip_with, !length_fmap, length_replicate. lia. }
  2:{ apply Forall_fmap. eapply Forall_impl; [exact Hcols|].
      intros row Hrow. simpl. by rewrite length_fmap. }
  2:{ apply Forall_length_set_columns, Forall_replicate. done. }
  2:{ repeat constructor; lia. }
  rewrite (assign_columns_exact _ [3] _ 4); simpl.
  2:{ rewrite !length_zip_with, !length_fmap, length_replicate. lia. }
  2:{ apply Forall_fmap, Forall_forall. by intros x _. }
  2:{ do 2 apply Forall_length_set_columns. apply Forall_replicate. done. }
  2:{ apply Forall_singleton. lia. }
  eexists. split; [done|]. simpl. split_and!; [done| | |].
  - rewrite !length_zip_with, !length_fmap, length_replicate. lia.
  - do 3 apply Forall_length_set_columns. apply Forall_replicate. done.
  - intros i ind p0 p1 t Hind Hpar Ht.
    rewrite !lookup_zip_with, !list_lookup_fmap, Hind, Hpar, Ht.
    rewrite lookup_replicate_2 by (apply lookup_lt_Some in Hind; lia).
    done.
Qed.
(** X15. The array that [save_npy] stores (the one [build_array] returns),
    for a pedigree whose identifier, parent and time arrays have one entry
    per individual: it has four columns and one row per individual, and row
    [i] holds the identifier of individual [i], its two parent indices, in
    that order and as indices, and its time. *)
Theorem save_npy_array self :
  num_individuals self = length (individual self) →
  length (rows (parents self)) = length (individual self) →
  length (time self) = length (individual self) →
  Forall (λ row, length row = 2%nat) (rows (parents self)) →
  ∃ a, save_npy self = Ok a ∧ build_array self = Ok a ∧ shape1 a = 4%nat ∧
    length (rows a) = length (individual self) ∧
    ∀ (i : nat) ind p0 p1 t,
      individual self !! i = Some ind →
      rows (parents self) !! i = Some [p0; p1] →
      time self !! i = Some t →
      rows a !! i = Some [of_int ind; of_int p0; of_int p1; t].
Proof.
  intros Hn Hrows Htime Hcols.
  destruct (build_array_exact self Hn Hrows Htime Hcols)
    as (a & Ha & Hshape & Hlen & _ & Hlook).
  exists a. by split_and!.
Qed.

Lemma take_all_four_rows {A} (a : ndarray2 A) :
  length (rows a) = 4%nat → take_rows a [0; 1; 2; 3] = Ok a.
Proof.
  destruct a as [s [|r0 [|r1 [|r2 [|r3 [|r4 l]]]]]]; try done.
Qed.

(** X16. With exactly four individuals [save_txt] does write the pedigree:
    after the header line, line [i] holds the identifier of individual [i],
    the identifiers of its two parents, with 0 for an absent parent, and its
    time. *)
Theorem save_txt_four_individuals self :
  num_individuals self = 4%nat →
  length (individual self) = 4%nat →
  length (rows (parents self)) = 4%nat →
  length (time self) = 4%nat →
  Forall (λ row, length row = 2%nat) (rows (parents self)) →
  Forall (λ p, p < 4) (ravel (parents self)) →
  ∃ f, save_txt self = Ok f ∧
    header f = "ind" +:+ tab +:+ "father" +:+ tab +:+ "mother" +:+ tab +:+ "time"
                 +:+ newline ∧
    length (data f) = 4%nat ∧
    ∀ (i : nat) ind p0 p1 t,
      individual self !! i = Some ind →
      rows (parents self) !! i = Some [p0; p1] →
      time self !! i = Some t →
      data f !! i = Some [of_int ind; of_int (ID_of (individual self) p0);
                          of_int (ID_of (individual self) p1); t].
Proof.
  intros Hn Hind Hrows Htime Hcols Hrange.
  destruct (build_array_exact self) as (a & Ha & Hshape & Hlen & Hwidth & Hlook);
    [congruence..|done|].
  unfold save_txt. rewrite Ha. simpl.
  rewrite take_all_four_rows by congruence. simpl.
  rewrite parent_index_to_ID_in_range by (by rewrite Hind).
  simpl. rewrite (assign_columns_exact _ [1; 2] _ 4); simpl.
  2:{ rewrite !length_fmap. congruence. }
  2:{ rewrite <- list_fmap_compose. apply Forall_fmap.
      eapply Forall_impl; [exact Hcols|].
      intros row Hrow. simpl. by rewrite !length_fmap. }
  2:{ done. }
  2:{ repeat constructor; lia. }
  eexists. split; [done|]. simpl. split_and!; [done| |].
  - rewrite length_zip_with, !length_fmap. lia.
  - intros i ind p0 p1 t Hi Hp Ht.
    rewrite lookup_zip_with, !list_lookup_fmap, Hp, (Hlook i ind p0 p1 t) by done.
    done.
Qed.
End array_forms.

(** The array form of the example pedigree: individual 1 has the parents
    at the indices 2 and 3. *)
Lemma save_npy_array_example :
  ∃ a, save_npy example_pedigree = Ok a ∧ shape1 a = 4%nat ∧
    rows a !! 0%nat = Some [1; 2; 3; 0].
Proof.
  destruct (save_npy_array example_pedigree) as (a & Ha & _ & Hshape & _ & Hrow);
    [reflexivity..|by repeat constructor|].
  exists a. split; [exact Ha|]. split; [exact Hshape|].
  apply (Hrow 0%nat 1 2 3 0); reflexivity.
Defined.

(** The text form of the example pedigree: the parents of individual 1 have
    the identifiers 3 and 4. *)
Lemma save_txt_four_individuals_example :
  ∃ f, save_txt example_pedigree = Ok f ∧ length (data f) = 4%nat ∧
    data f !! 0%nat = Some [1; 3; 4; 0] ∧ data f !! 1%nat = Some [2; 0; 0; 0].
Proof.
  destruct (save_txt_four_individuals example_pedigree) as (f & Hf & _ & Hlen & Hrow);
    [reflexivity..|by repeat constructor|by repeat constructor|].
  exists f. split; [exact Hf|]. split; [exact Hlen|]. split.
  - apply (Hrow 0%nat 1 2 3 0); reflexivity.
  - apply (Hrow 1%nat 2 (-1) (-1) 0); reflexivity.
Defined.

(** ** [Pedigree.asdict] *)

Lemma int32_idemp (x : Z) : int32 (int32 x) = int32 x.
Proof.
  unfold int32. pose proof (Z.mod_pos_bound (x + 2 ^ 31) (2 ^ 32)) as Hb.
  replace ((x + 2 ^ 31) `mod` 2 ^ 32 - 2 ^ 31 + 2 ^ 31)
    with ((x + 2 ^ 31) `mod` 2 ^ 32) by lia.
  by rewrite Z.mod_mod by lia.
Qed.

Lemma uint32_idemp (x : Z) : uint32 (uint32 x) = uint32 x.
Proof. unfold uint32. by rewrite Z.mod_mod by lia. Qed.

Lemma fmap_id_Forall {A} (f : A → A) (P : A → Prop) (l : list A) :
  (∀ x, P x → f x = x) → Forall P l → f <$> l = l.
Proof.
  intros Hf Hl. induction Hl as [|x l Hx _ IH]; [done|].
  by rewrite fmap_cons, IH, Hf.
Qed.

Section asdict_properties.
Context {F : Type} `{Float64 F}.

(** X17. A pedigree is rebuilt from its [asdict]: when the identifiers fit
    in 32 bits and the sample flags, if any, are unsigned 32-bit values, the
    constructor applied to [asdict] of a constructed pedigree returns that
    pedigree.  When an identifier does not fit and wraps to a value that is
    not positive, the constructor accepts the original arrays but refuses the
    arrays it has stored. *)
Theorem asdict_round_trip (individual : list Z) (parents : ndarray2 Z) (time : list F)
    (is_sample : option (list Z)) (sex : option Z) (ploidy : Z) (P : Pedigree F) :
  Pedigree_init individual parents time is_sample sex ploidy = Ok P →
  (Forall (λ x, x < 2 ^ 31) individual →
   (∀ l, is_sample = Some l → Forall (λ x, 0 ≤ x < 2 ^ 32) l) →
   Pedigree_from_dict (asdict P) = Ok P) ∧
  ((∃ x, x ∈ individual ∧ int32 x ≤ 0) →
   Pedigree_from_dict (asdict P) = Raise (ValueError IndividualIDs)).
Proof.
  unfold Pedigree_init.
  case_bool_decide as Hpl; [done|].
  case_bool_decide as Hsex; [done|].
  case_bool_decide as Hsh; [done|].
  destruct individual as [|x l]; [done|]. simpl.
  case_bool_decide as Hmin; [done|]. intros [= <-].
  assert (ploidy = 2) as -> by (by destruct (decide (ploidy = 2))).
  assert (sex = None) as -> by (by destruct sex; [destruct Hsex|]).
  assert (∀ y, y ∈ x :: l → 0 < y) as Hpos.
  { intros y Hy. destruct (decide (0 < y)) as [|Hny]; [done|].
    destruct Hmin. apply foldr_min_le. exists y. split; [done|lia]. }
  unfold Pedigree_from_dict, asdict, Pedigree_init. simpl.
  rewrite (bool_decide_eq_false_2 (Z.of_nat (shape1 parents) ≠ 2))
    by (intros Hne; by apply Hne).
  change (list_fmap Z Z int32) with (fmap (M:=list) int32).
  split.
  - intros Hfit Hflags.
    assert (int32 x = x ∧ int32 <$> l = l) as [Hx Hl].
    { apply Forall_cons in Hfit as [Hx Hl]. split.
      - apply int32_id. specialize (Hpos x (list_elem_of_here _ _)). lia.
      - apply (fmap_id_Forall _ (λ y, 0 < y < 2 ^ 31)); [intros y ?; apply int32_id; lia|].
        apply Forall_forall. intros y Hy. split.
        + apply Hpos. by right.
        + rewrite Forall_forall in Hl. by apply Hl. }
    rewrite Hx, Hl. rewrite bool_decide_eq_false_2 by done.
    rewrite Hx, Hl. do 2 f_equal.
    + f_equal. rewrite <- list_fmap_compose. apply list_fmap_ext.
      intros i row _. simpl. rewrite <- list_fmap_compose. apply list_fmap_ext.
      intros j p _. simpl. apply int32_idemp.
    + destruct is_sample as [flags|]; [|done]. simpl. f_equal.
      rewrite <- list_fmap_compose. apply list_fmap_ext.
      intros i p _. simpl. apply uint32_idemp.
    + destruct is_sample as [flags|]; [|done]. simpl. do 2 f_equal.
      apply (fmap_id_Forall _ (λ y, 0 ≤ y < 2 ^ 32)); [apply uint32_id|by apply Hflags].
    + destruct is_sample as [flags|]; [|done]. simpl. do 4 f_equal.
      apply (fmap_id_Forall _ (λ y, 0 ≤ y < 2 ^ 32)); [apply uint32_id|by apply Hflags].
  - intros (y & Hy & Hwrap). rewrite bool_decide_eq_true_2; [done|].
    apply foldr_min_le. exists (int32 y). split; [|done].
    rewrite <- fmap_cons. apply list_elem_of_fmap. eauto.
Qed.
End asdict_properties.

(** The pedigree built from the arrays of the example pedigree. *)
Lemma asdict_round_trip_example :
  ∃ P : Pedigree Z,
    Pedigree_init [1; 2; 3; 4] (Array2 2 [[2; 3]; [-1; -1]; [-1; -1]; [-1; -1]])
      [0; 0; 1; 1] (Some [1; 1; 0; 0]) None 2 = Ok P ∧
    Pedigree_from_dict (asdict P) = Ok P.
Proof.
  eexists. split; [reflexivity|].
  eapply (asdict_round_trip (F:=Z) [1; 2; 3; 4]
            (Array2 2 [[2; 3]; [-1; -1]; [-1; -1]; [-1; -1]])
            [0; 0; 1; 1] (Some [1; 1; 0; 0]) None 2).
  - reflexivity.
  - repeat constructor.
  - intros l [= <-]. repeat constructor; lia.
Defined.

(** ** [get_times] from parent identifiers *)

Section get_times_IDs_properties.
Context {F : Type} `{Float64 F}.

(** X18. [get_times] may be given the parents as identifiers instead of
    indices: for pairwise distinct non-zero identifiers and a matrix with one
    row per individual whose entries are [-1] or indices, the call with the
    identifier matrix that [parent_index_to_ID] makes of the indices behaves as
    the call with the indices themselves, for every number of rounds and with
    or without the check. *)
Theorem get_times_by_IDs (individual : list Z) (parents : ndarray2 Z) :
  NoDup individual →
  0 ∉ individual →
  length (rows parents) = length individual →
  Forall (λ p, -1 ≤ p < Z.of_nat (length individual)) (ravel parents) →
  ∃ parent_IDs,
    parent_index_to_ID individual parents = Ok parent_IDs ∧
    ∀ fuel check,
      get_times (F:=F) fuel individual (Some parent_IDs) None check =
      get_times fuel individual None (Some parents) check.
Proof.
  intros Hnd H0 Hlen Hall.
  exists (Array2 (shape1 parents)
            ((λ row : list Z, ID_of individual <$> row) <$> rows parents)).
  split.
  { apply parent_index_to_ID_in_range. eapply Forall_impl; [exact Hall|].
    simpl. lia. }
  intros fuel check. unfold get_times.
  cbn [from_option id]. by rewrite parent_ID_to_index_of_IDs.
Qed.
End get_times_IDs_properties.

(** The lineage of depth 3, with the identifiers 10, 20, 30, 40. *)
Lemma get_times_by_IDs_example :
  ∃ parent_IDs,
    parent_index_to_ID [10; 20; 30; 40] (lineage 3) = Ok parent_IDs ∧
    ∀ fuel check,
      get_times (F:=Z) fuel [10; 20; 30; 40] (Some parent_IDs) None check =
      get_times fuel [10; 20; 30; 40] None (Some (lineage 3)) check.
Proof.
  apply (get_times_by_IDs (F:=Z) [10; 20; 30; 40] (lineage 3)).
  - apply (bool_decide_unpack _). reflexivity.
  - apply (bool_decide_unpack _). reflexivity.
  - reflexivity.
  - apply (bool_decide_unpack _). reflexivity.
Defined.

(** ** Which error [check_times] reports *)

Lemma for_Raise_first {A} (l : list A) body e :
  for_ l body = Raise e →
  ∃ (i : nat) x, l !! i = Some x ∧ body x = Raise e ∧
    ∀ (j : nat) y, (j < i)%nat → l !! j = Some y → body y = Ok ().
Proof.
  induction l as [|x l IH]; simpl; [done|].
  destruct (body x) as [[]|e'] eqn:Hx.
  - intros (i & y & Hi & Hy & Hbefore)%IH. exists (S i), y. split_and!; [done..|].
    intros [|j] z Hj Hz; simpl in Hz; [by simplify_eq|].
    apply (Hbefore j); [lia|done].
  - intros [= ->]. exists 0%nat, x. split_and!; [done..|]. intros j y Hj. lia.
Qed.

Section check_times_order.
Context {F : Type} `{Float64 F}.

(** X19. When [check_times] raises, the error is that of the first offending
    parent slot in the order of the loops, row by row and within a row slot
    by slot: it names the identifiers of that individual and that parent, and
    no earlier slot offends. *)
Theorem check_times_first_violation (individual : list Z) (parents : ndarray2 Z)
    (time : list F) e :
  valid_indices (length individual) parents →
  length time = length individual →
  check_times individual parents time = Raise e →
  ∃ (i k : nat) row p ind pid,
    slot_violation parents time i k ∧
    (∀ i' k', slot_violation parents time i' k' →
       (i < i')%nat ∨ i = i' ∧ (k ≤ k')%nat) ∧
    rows parents !! i = Some row ∧ row !! k = Some p ∧
    individual !! i = Some ind ∧ individual !! Z.to_nat p = Some pid ∧
    e = ValueError (TimeOrder ind pid).
Proof.
  intros [Hrows Hentries] Hlen Hraise. unfold check_times in Hraise.
  apply for_Raise_first in Hraise as (i0 & [i ind] & Hi0 & Hbody & Hbefore).
  unfold enumerate in Hi0. rewrite list_lookup_imap in Hi0.
  destruct (individual !! i0) as [ind0|] eqn:Hind; [|done].
  simpl in Hi0. injection Hi0 as <- <-.
  pose proof (lookup_lt_Some _ _ _ Hind) as Hilt.
  destruct (lookup_lt_is_Some_2 (rows parents) i0) as [row Hrow]; [lia|].
  destruct (lookup_lt_is_Some_2 time i0) as [t1 Ht1]; [lia|].
  rewrite getitem_nat, Hrow in Hbody. simpl in Hbody.
  apply for_Raise_first in Hbody as (k & p & Hk & Hp & Hslots).
  assert (∀ (j : nat) rowj (q : Z) tj indj,
            rows parents !! j = Some rowj → q ∈ rowj → time !! j = Some tj →
            check_parent individual time j indj q = Ok () →
            ¬ (0 ≤ q ∧ ∃ t2, time !! Z.to_nat q = Some t2 ∧ float_ge tj t2 = true))
    as Hclean.
  { intros j rowj q tj indj Hj Hq Htj Hok.
    destruct (check_parent_cases individual time j indj q tj Htj Hlen)
      as [[_ Hno]|(_ & _ & pid & _ & _ & _ & Hr)]; [|done|congruence].
    eapply Hentries; [|done]. by eapply list_elem_of_lookup_2. }
  destruct (check_parent_cases individual time i0 ind0 p t1 Ht1 Hlen)
    as [[Hok _]|(Hp0 & t2 & pid & Ht2 & Hge & Hpid & Hr)]; [|congruence|].
  { eapply Hentries; by eapply list_elem_of_lookup_2. }
  exists i0, k, row, p, ind0, pid. split_and!; [| |done..|congruence].
  - exists row, p, t1, t2. by split_and!.
  - intros i' k' (row' & p' & t1' & t2' & Hrow' & Hp' & Hp0' & Ht1' & Ht2' & Hge').
    destruct (decide (i0 < i')%nat) as [|Hge0]; [by left|]. right.
    destruct (decide (i' = i0)) as [->|Hne].
    + split; [done|].
      destruct (decide (k ≤ k')%nat) as [|Hlt]; [done|]. exfalso.
      assert (row' = row) as -> by congruence.
      assert (t1' = t1) as -> by congruence.
      apply (Hclean i0 row p' t1 ind0 Hrow); [by eapply list_elem_of_lookup_2|done| |eauto].
      apply (Hslots k'); [lia|done].
    + exfalso.
      assert (i' < length individual)%nat as Hi'lt.
      { apply lookup_lt_Some in Hrow'. lia. }
      destruct (lookup_lt_is_Some_2 individual i') as [ind' Hind']; [done|].
      assert (for_ row' (check_parent individual time i' ind') = Ok ()) as Hrow_ok.
      { specialize (Hbefore i' (i', ind')). simpl in Hbefore.
        rewrite getitem_nat, Hrow' in Hbefore. simpl in Hbefore.
        apply Hbefore; [lia|].
        unfold enumerate. by rewrite list_lookup_imap, Hind'. }
      rewrite for_Ok in Hrow_ok.
      apply (Hclean i' row' p' t1' ind' Hrow'); [by eapply list_elem_of_lookup_2|done| |eauto].
      apply Hrow_ok. by eapply list_elem_of_lookup_2.
Qed.
End check_times_order.

(** A child that is given the time 1 while its parent has the time 0. *)
Lemma check_times_first_violation_example :
  ∃ (i k : nat) row p ind pid,
    slot_violation (F:=Z) (Array2 2 [[1; -1]; [-1; -1]]) [1; 0] i k ∧
    (∀ i' k', slot_violation (F:=Z) (Array2 2 [[1; -1]; [-1; -1]]) [1; 0] i' k' →
       (i < i')%nat ∨ i = i' ∧ (k ≤ k')%nat) ∧
    rows (Array2 2 [[1; -1]; [-1; -1]]) !! i = Some row ∧ row !! k = Some p ∧
    [7; 9] !! i = Some ind ∧ [7; 9] !! Z.to_nat p = Some pid ∧
    ValueError (TimeOrder 7 9) = ValueError (TimeOrder ind pid).
Proof.
  apply (check_times_first_violation (F:=Z) [7; 9] (Array2 2 [[1; -1]; [-1; -1]]) [1; 0]).
  - apply (parents_after_children_spec 2 (Array2 2 [[1; -1]; [-1; -1]]) eq_refl).
  - reflexivity.
  - reflexivity.
Defined.
